(** * Recipe corpus tooling: merge, removal, validation, fuzzy matching and
    equivalence clustering.

    A shallow embedding of the Python scripts under [scripts/] together with
    the properties stated for them.  JSON objects with a fixed shape are
    records; a key that the scripts read with [.get] is an optional field;
    a subscript [x[key]] on an optional field raises [KeyError] when the key
    is missing.  Python integers are [Z]; Python dictionaries and sets are
    [gmap] and [gset]; printed report lines are collected as a list of
    events. *)

From stdpp Require Import base numbers list strings pretty gmap sets
  sorting.
From Stdlib Require Import Ascii QArith Qminmax.

#[local] Open Scope Z_scope.

(** ** Exceptions *)

Inductive exn :=
  | KeyError (key : string)
  | TypeError (what : string)
  | AttributeError (what : string)
  | FileNotFoundError (path : string).

Inductive result (A : Type) :=
  | Ok (a : A)
  | Raise (e : exn).
Arguments Ok {A} a.
Arguments Raise {A} e.

#[global] Instance result_ret : MRet result := λ A a, Ok a.
#[global] Instance result_bind : MBind result := λ A B f m,
  match m with
  | Ok a => f a
  | Raise e => Raise e
  end.

(** [x[key]] on a field that may be missing. *)
Definition subscript {A} (key : string) (v : option A) : result A :=
  match v with
  | Some a => Ok a
  | None => Raise (KeyError key)
  end.

(** A [for] loop whose body may raise and prints report lines: the state is
    threaded from left to right and the printed lines are appended. *)
Fixpoint for_each {S X E} (body : S → X → result (S * list E))
    (xs : list X) (st : S) : result (S * list E) :=
  match xs with
  | [] => Ok (st, [])
  | x :: xs' =>
      '(st1, out1) ← body st x;
      '(st2, out2) ← for_each body xs' st1;
      Ok (st2, out1 ++ out2)
  end.

(** ** JSON values *)

(** A text-valued key of a JSON object: missing, [null], or a string. *)
Inductive field :=
  | Absent
  | Null
  | Text (s : string).

(** Values that are copied without being inspected. *)
Inductive json :=
  | JNull
  | JStr (s : string)
  | JNum (literal : string).

#[global] Instance field_eq_dec : EqDecision field.
Proof. solve_decision. Defined.
#[global] Instance json_eq_dec : EqDecision json.
Proof. solve_decision. Defined.

(** [x.get(key)]: [None] (Python's) when the key is missing or null. *)
Definition get (f : field) : option string :=
  match f with
  | Text s => Some s
  | Absent | Null => None
  end.

(** [x.get(key, "")]: the default replaces a missing key only. *)
Definition get_or_empty (f : field) : option string :=
  match f with
  | Absent => Some ""%string
  | Null => None
  | Text s => Some s
  end.

(** [v or ""] on a value that is [None] or a string. *)
Definition or_empty (v : option string) : string := default ""%string v.

(** The value stored under a key written as ["k": x.get("k")]. *)
Definition stored (v : option string) : field :=
  match v with
  | Some s => Text s
  | None => Null
  end.

(** ** Data model *)

(** A recipe object.  In a diff it carries no [recipe_id]; in the corpus it
    is the diff object extended with one. *)
Record recipe := Recipe {
  recipe_id : option Z;
  r_slug : string;
  r_label : string;
  r_extra : list (string * json);
}.

Record ingredient := Ingredient {
  ingredient_id : option Z;
  i_slug : string;
  i_label : string;
  i_language : field;
  i_extra : list (string * json);
}.

Record alias := Alias {
  alias_id : option Z;
  a_ingredient_id : Z;
  variant_label : string;
  a_language : field;
  a_source : field;
}.

Record entry := Entry {
  entry_id : option Z;
  e_recipe_id : Z;
  e_ingredient_id : Z;
  amount_raw : field;
  amount_value : json;
  amount_unit : field;
  preparation : field;
  notes : field;
  source_citation : field;
  source_span : field;
  added_at : field;
  added_by : field;
}.

Record corpus := Corpus {
  recipes : list recipe;
  ingredients : list ingredient;
  aliases : list alias;
  entries : list entry;
}.

(** Diff items refer to recipes and ingredients by slug. *)
Record diff_alias := DiffAlias {
  da_ingredient_slug : string;
  da_variant_label : string;
  da_language : field;
  da_source : field;
}.

Record diff_entry := DiffEntry {
  de_recipe_slug : string;
  de_ingredient_slug : string;
  de_amount_raw : field;
  de_amount_value : json;
  de_amount_unit : field;
  de_preparation : field;
  de_notes : field;
  de_source_citation : field;
  de_source_span : field;
}.

Record diff := Diff {
  d_recipes : list recipe;
  d_ingredients : list ingredient;
  d_aliases : list diff_alias;
  d_entries : list diff_entry;
}.

#[global] Instance recipe_eq_dec : EqDecision recipe.
Proof. solve_decision. Defined.
#[global] Instance ingredient_eq_dec : EqDecision ingredient.
Proof. solve_decision. Defined.
#[global] Instance alias_eq_dec : EqDecision alias.
Proof. solve_decision. Defined.
#[global] Instance entry_eq_dec : EqDecision entry.
Proof. solve_decision. Defined.

(** ** Identifier allocation ([merge_diff.py], [next_id]) *)

(** [max(l)] on a non-empty list, scanning from the left. *)
Definition py_max (x : Z) (xs : list Z) : Z := foldl Z.max x xs.

(** [next_id(arr, key)]: [key] reads the identifier of a row with [.get]. *)
Definition next_id {A} (arr : list A) (key : A → option Z) : Z :=
  match map (λ x, default 0 (key x)) arr with
  | [] => 1
  | v :: vs => py_max v vs + 1
  end.

(** The allocation rule in the words of the design: the maximum of the
    existing identifiers, or [0] when there is none, plus one. *)
Definition existing_ids {A} (arr : list A) (key : A → option Z) : list Z :=
  map (λ x, default 0 (key x)) arr.

Fixpoint max_default (d : Z) (ids : list Z) : Z :=
  match ids with
  | [] => d
  | [i] => i
  | i :: rest => Z.max i (max_default d rest)
  end.

Definition allocate_id (ids : list Z) : Z := max_default 0 ids + 1.

(** ** Merge ([merge_diff.py]) *)

(** Report lines printed while merging. *)
Inductive merge_event :=
  | AddedRecipe (label : string) (id : Z)
  | SkippedRecipe (slug : string) (id : Z)
  | LabelCollision (slug existing new : string)
  | SkippedIngredient (slug : string) (id : Z)
  | AddedIngredient (label : string) (id : Z)
  | UnknownAliasIngredient (slug : string)
  | SkippedAlias (slug variant : string)
  | AddedAlias (slug variant : string) (id : Z)
  | UnknownEntryRecipe (slug : string)
  | UnknownEntryIngredient (slug : string)
  | SkippedEntry (rslug islug : string)
  | AddedEntry (rslug islug : string) (id : Z).

(** [idx_by(arr, key)]: a later row replaces an earlier one with its key. *)
Definition idx_by {K V} `{Countable K} (key : V → K) (arr : list V)
    : gmap K V :=
  foldl (λ m x, <[key x := x]> m) ∅ arr.

(** [{"recipe_id": new_id, **r}]: a key of [r] wins over the new one. *)
Definition with_recipe_id (new_id : Z) (r : recipe) : recipe :=
  match recipe_id r with
  | Some _ => r
  | None => Recipe (Some new_id) (r_slug r) (r_label r) (r_extra r)
  end.

Definition with_ingredient_id (new_id : Z) (i : ingredient) : ingredient :=
  match ingredient_id i with
  | Some _ => i
  | None =>
      Ingredient (Some new_id) (i_slug i) (i_label i) (i_language i)
        (i_extra i)
  end.

Definition merge_recipe (st : list recipe * gmap string recipe) (r : recipe)
    : result (list recipe * gmap string recipe * list merge_event) :=
  let '(rows, recipes_by_slug) := st in
  match recipes_by_slug !! r_slug r with
  | None =>
      let new_id := next_id rows recipe_id in
      let new := with_recipe_id new_id r in
      Ok (rows ++ [new], <[r_slug new := new]> recipes_by_slug,
          [AddedRecipe (r_label r) new_id])
  | Some existing =>
      id ← subscript "recipe_id" (recipe_id existing);
      Ok (st, [SkippedRecipe (r_slug r) id])
  end.

Definition merge_ingredient (st : list ingredient * gmap string ingredient)
    (ing : ingredient)
    : result (list ingredient * gmap string ingredient * list merge_event) :=
  let '(rows, ingredients_by_slug) := st in
  let slug := i_slug ing in
  match ingredients_by_slug !! slug with
  | Some existing =>
      let warn :=
        if decide (i_label existing = i_label ing) then []
        else [LabelCollision slug (i_label existing) (i_label ing)] in
      id ← subscript "ingredient_id" (ingredient_id existing);
      Ok (st, warn ++ [SkippedIngredient slug id])
  | None =>
      let new_id := next_id rows ingredient_id in
      let new := with_ingredient_id new_id ing in
      Ok (rows ++ [new], <[i_slug new := new]> ingredients_by_slug,
          [AddedIngredient (i_label ing) new_id])
  end.

Definition alias_key (a : alias) : Z * string :=
  (a_ingredient_id a, variant_label a).

Definition merge_alias (ingredients_by_slug : gmap string ingredient)
    (st : list alias * gset (Z * string)) (a : diff_alias)
    : result (list alias * gset (Z * string) * list merge_event) :=
  let '(rows, seen_alias) := st in
  match ingredients_by_slug !! da_ingredient_slug a with
  | None => Ok (st, [UnknownAliasIngredient (da_ingredient_slug a)])
  | Some ing =>
      iid ← subscript "ingredient_id" (ingredient_id ing);
      let key := (iid, da_variant_label a) in
      if decide (key ∈ seen_alias) then
        Ok (st, [SkippedAlias (i_slug ing) (da_variant_label a)])
      else
        let new_id := next_id rows alias_id in
        let new :=
          Alias (Some new_id) iid (da_variant_label a)
            (stored (get (da_language a))) (stored (get (da_source a))) in
        Ok (rows ++ [new], {[key]} ∪ seen_alias,
            [AddedAlias (i_slug ing) (da_variant_label a) new_id])
  end.

(** The tuples of [seen_entry]. *)
Definition entry_key : Type := Z * Z * option string * string.

Definition seen_key (e : entry) : entry_key :=
  (e_recipe_id e, e_ingredient_id e, get_or_empty (amount_raw e),
   or_empty (get_or_empty (preparation e))).

Section merge.
(** [utcnow n] is the time stamp returned by the [n]-th call (counting
    from 0) of [datetime.datetime.utcnow().isoformat()]. *)
Variable utcnow : nat → string.

Definition merge_entry (recipes_by_slug : gmap string recipe)
    (ingredients_by_slug : gmap string ingredient) (by_whom : string)
    (st : list entry * gset entry_key * nat) (e : diff_entry)
    : result (list entry * gset entry_key * nat * list merge_event) :=
  let '(rows, seen_entry, calls) := st in
  let r := recipes_by_slug !! de_recipe_slug e in
  let i := ingredients_by_slug !! de_ingredient_slug e in
  match r, i with
  | None, _ => Ok (st, [UnknownEntryRecipe (de_recipe_slug e)])
  | Some _, None => Ok (st, [UnknownEntryIngredient (de_ingredient_slug e)])
  | Some r, Some i =>
      rid ← subscript "recipe_id" (recipe_id r);
      iid ← subscript "ingredient_id" (ingredient_id i);
      let tup : entry_key :=
        (rid, iid, get_or_empty (de_amount_raw e),
         or_empty (get_or_empty (de_preparation e))) in
      if decide (tup ∈ seen_entry) then
        Ok (st, [SkippedEntry (r_slug r) (i_slug i)])
      else
        let new_id := next_id rows entry_id in
        let timestamp := utcnow calls in
        let new :=
          {| entry_id := Some new_id;
             e_recipe_id := rid;
             e_ingredient_id := iid;
             amount_raw := stored (get (de_amount_raw e));
             amount_value := de_amount_value e;
             amount_unit := stored (get (de_amount_unit e));
             preparation := stored (get (de_preparation e));
             notes := stored (get (de_notes e));
             source_citation := stored (get (de_source_citation e));
             source_span := stored (get (de_source_span e));
             added_at := Text timestamp;
             added_by := Text by_whom |} in
        Ok (rows ++ [new], {[tup]} ∪ seen_entry, S calls,
            [AddedEntry (r_slug r) (i_slug i) new_id])
  end.

(** [merge]: the corpus that is saved and the report; nothing is saved
    when an exception is raised. *)
Definition merge (master : corpus) (d : diff) (by_whom : string)
    : result (corpus * list merge_event) :=
  let recipes_by_slug := idx_by r_slug (recipes master) in
  let ingredients_by_slug := idx_by i_slug (ingredients master) in
  '(rows_r, recipes_by_slug, out_r) ←
    for_each merge_recipe (d_recipes d) (recipes master, recipes_by_slug);
  '(rows_i, ingredients_by_slug, out_i) ←
    for_each merge_ingredient (d_ingredients d)
      (ingredients master, ingredients_by_slug);
  let seen_alias : gset (Z * string) :=
    list_to_set (map alias_key (aliases master)) in
  '(rows_a, _, out_a) ←
    for_each (merge_alias ingredients_by_slug) (d_aliases d)
      (aliases master, seen_alias);
  let seen_entry : gset entry_key :=
    list_to_set (map seen_key (entries master)) in
  '(rows_e, _, _, out_e) ←
    for_each (merge_entry recipes_by_slug ingredients_by_slug by_whom)
      (d_entries d) (entries master, seen_entry, 0%nat);
  Ok (Corpus rows_r rows_i rows_a rows_e, out_r ++ out_i ++ out_a ++ out_e).

(** The [__main__] block: exit status 0 when [merge] returns, 1 when it
    raises. *)
Definition merge_main (master : corpus) (d : diff) (by_whom : string) : Z :=
  match merge master d by_whom with
  | Ok _ => 0
  | Raise _ => 1
  end.
End merge.

(** ** Removal ([remove_diff.py]) *)

Inductive remove_event :=
  | RemovedEntry (rslug islug : string)
  | RemovedAlias (islug variant : string)
  | RemovedIngredient (slug label : string)
  | RemovedRecipe (slug label : string).

(** [next((x for x in rows if x[key] == id), None)]. *)
Fixpoint find_by_id {A} (name : string) (key : A → option Z)
    (rows : list A) (id : Z) : result (option A) :=
  match rows with
  | [] => Ok None
  | x :: rows' =>
      xid ← subscript name (key x);
      if decide (xid = id) then Ok (Some x) else find_by_id name key rows' id
  end.

(** The condition tested for one diff entry in the inner loop of step 1. *)
Definition entry_matches (recipe : recipe) (ingredient : ingredient)
    (e : entry) (diff_entry : diff_entry) : bool :=
  bool_decide (r_slug recipe = de_recipe_slug diff_entry)
  && bool_decide (i_slug ingredient = de_ingredient_slug diff_entry)
  && bool_decide (or_empty (get (amount_raw e))
                  = or_empty (get (de_amount_raw diff_entry)))
  && bool_decide (or_empty (get (preparation e))
                  = or_empty (get (de_preparation diff_entry))).

Definition alias_matches (ingredient : ingredient) (a : alias)
    (diff_alias : diff_alias) : bool :=
  bool_decide (i_slug ingredient = da_ingredient_slug diff_alias)
  && bool_decide (variant_label a = da_variant_label diff_alias).

Definition remove_entry (master : corpus) (d : diff) (kept : list entry)
    (e : entry) : result (list entry * list remove_event) :=
  recipe ← find_by_id "recipe_id" recipe_id (recipes master) (e_recipe_id e);
  ingredient ← find_by_id "ingredient_id" ingredient_id (ingredients master)
                 (e_ingredient_id e);
  match recipe, ingredient with
  | Some r, Some i =>
      if existsb (entry_matches r i e) (d_entries d) then
        Ok (kept, [RemovedEntry (r_slug r) (i_slug i)])
      else Ok (kept ++ [e], [])
  | _, _ => Ok (kept ++ [e], [])
  end.

Definition remove_alias (master : corpus) (d : diff) (kept : list alias)
    (a : alias) : result (list alias * list remove_event) :=
  ingredient ← find_by_id "ingredient_id" ingredient_id (ingredients master)
                 (a_ingredient_id a);
  match ingredient with
  | None => Ok (kept ++ [a], [])
  | Some i =>
      if existsb (alias_matches i a) (d_aliases d) then
        Ok (kept, [RemovedAlias (i_slug i) (variant_label a)])
      else Ok (kept ++ [a], [])
  end.

(** The inner loops of steps 3 and 4: the identifier is read only for a
    diff item with the same slug. *)
Fixpoint ingredient_should_remove (in_use : gset Z) (ing : ingredient)
    (named : list ingredient) : result bool :=
  match named with
  | [] => Ok false
  | diff_ingredient :: named' =>
      if decide (i_slug ing = i_slug diff_ingredient) then
        id ← subscript "ingredient_id" (ingredient_id ing);
        if decide (id ∉ in_use) then Ok true
        else ingredient_should_remove in_use ing named'
      else ingredient_should_remove in_use ing named'
  end.

Fixpoint recipe_should_remove (in_use : gset Z) (r : recipe)
    (named : list recipe) : result bool :=
  match named with
  | [] => Ok false
  | diff_recipe :: named' =>
      if decide (r_slug r = r_slug diff_recipe) then
        id ← subscript "recipe_id" (recipe_id r);
        if decide (id ∉ in_use) then Ok true
        else recipe_should_remove in_use r named'
      else recipe_should_remove in_use r named'
  end.

Definition remove_ingredient (in_use : gset Z) (d : diff)
    (kept : list ingredient) (ing : ingredient)
    : result (list ingredient * list remove_event) :=
  should_remove ← ingredient_should_remove in_use ing (d_ingredients d);
  if should_remove : bool then
    Ok (kept, [RemovedIngredient (i_slug ing) (i_label ing)])
  else Ok (kept ++ [ing], []).

Definition remove_recipe (in_use : gset Z) (d : diff)
    (kept : list recipe) (r : recipe)
    : result (list recipe * list remove_event) :=
  should_remove ← recipe_should_remove in_use r (d_recipes d);
  if should_remove : bool then
    Ok (kept, [RemovedRecipe (r_slug r) (r_label r)])
  else Ok (kept ++ [r], []).

Definition ingredient_ids_in_use (es : list entry) (als : list alias)
    : gset Z :=
  list_to_set (map e_ingredient_id es) ∪ list_to_set (map a_ingredient_id als).

Definition recipe_ids_in_use (es : list entry) : gset Z :=
  list_to_set (map e_recipe_id es).

Definition remove_diff (master : corpus) (d : diff)
    : result (corpus * list remove_event) :=
  '(entries', out_e) ← for_each (remove_entry master d) (entries master) [];
  '(aliases', out_a) ← for_each (remove_alias master d) (aliases master) [];
  let ingredient_ids_in_use := ingredient_ids_in_use entries' aliases' in
  '(ingredients', out_i) ←
    for_each (remove_ingredient ingredient_ids_in_use d)
      (ingredients master) [];
  let recipe_ids_in_use := recipe_ids_in_use entries' in
  '(recipes', out_r) ←
    for_each (remove_recipe recipe_ids_in_use d) (recipes master) [];
  Ok (Corpus recipes' ingredients' aliases' entries',
      out_e ++ out_a ++ out_i ++ out_r).

(** ** Vocabulary of the removal properties *)

(** Every recipe and ingredient row of the corpus carries its surrogate
    identifier. *)
Definition ids_present (master : corpus) : Prop :=
  (∀ r, r ∈ recipes master → is_Some (recipe_id r))
  ∧ (∀ i, i ∈ ingredients master → is_Some (ingredient_id i)).

(** The text of an optional field once [null] and a missing key are read as
    the empty string. *)
Definition coalesce (f : field) : string :=
  match f with
  | Absent | Null => ""%string
  | Text s => s
  end.

Definition blank (f : field) : Prop :=
  f = Absent ∨ f = Null ∨ f = Text ""%string.

(** Equality of optional text fields that identifies a missing key, [null]
    and the empty string, and nothing else. *)
Definition same_text (f g : field) : Prop :=
  f = g ∨ (blank f ∧ blank g).

(** The rows dropped by each step of the removal pass. *)
Definition drops_entry (master : corpus) (d : diff) (e : entry) : Prop :=
  ∃ r i,
    find_by_id "recipe_id" recipe_id (recipes master) (e_recipe_id e)
      = Ok (Some r)
    ∧ find_by_id "ingredient_id" ingredient_id (ingredients master)
        (e_ingredient_id e) = Ok (Some i)
    ∧ existsb (entry_matches r i e) (d_entries d) = true.

Definition drops_alias (master : corpus) (d : diff) (a : alias) : Prop :=
  ∃ i,
    find_by_id "ingredient_id" ingredient_id (ingredients master)
      (a_ingredient_id a) = Ok (Some i)
    ∧ existsb (alias_matches i a) (d_aliases d) = true.

(** ** Sample data *)

(** A corpus with one recipe, one ingredient carrying one alias, and two
    entries that differ in their preparation only. *)
Definition sample_corpus : corpus :=
  {| recipes := [Recipe (Some 1) "kyphi-28" "Kyphi of 28 ingredients" []];
     ingredients := [Ingredient (Some 1) "honey" "Honey" (Text "en") []];
     aliases := [Alias (Some 1) 1 "meli" (Text "grc") Null];
     entries :=
       [Entry (Some 1) 1 1 (Text "2 hin") JNull Null Null Null Null Null
          (Text "2025-09-02T10:00:00") (Text "gpt");
        Entry (Some 2) 1 1 (Text "2 hin") JNull Null (Text "strained") Null
          Null Null (Text "2025-09-02T10:00:00") (Text "gpt")] |}.

(** A removal diff that names the first entry (its preparation key is
    missing), the ingredient and the recipe. *)
Definition sample_removal : diff :=
  {| d_recipes := [Recipe None "kyphi-28" "Kyphi of 28 ingredients" []];
     d_ingredients := [Ingredient None "honey" "Honey" Absent []];
     d_aliases := [];
     d_entries :=
       [DiffEntry "kyphi-28" "honey" (Text "2 hin") JNull Absent Absent
          Absent Absent Absent] |}.

Definition sample_after_removal : corpus :=
  {| recipes := recipes sample_corpus;
     ingredients := ingredients sample_corpus;
     aliases := aliases sample_corpus;
     entries :=
       [Entry (Some 2) 1 1 (Text "2 hin") JNull Null (Text "strained") Null
          Null Null (Text "2025-09-02T10:00:00") (Text "gpt")] |}.

(** ** Vocabulary of the merge properties *)

(** A slug is known to a merge when a recipe (ingredient) of the corpus or of
    the diff carries it. *)
Definition known_recipe_slug (master : corpus) (d : diff) (s : string)
    : Prop :=
  s ∈ map r_slug (recipes master) ∨ s ∈ map r_slug (d_recipes d).

Definition known_ingredient_slug (master : corpus) (d : diff) (s : string)
    : Prop :=
  s ∈ map i_slug (ingredients master) ∨ s ∈ map i_slug (d_ingredients d).

(** The references of a diff entry resolve. *)
Definition resolves (master : corpus) (d : diff) (e : diff_entry) : Prop :=
  known_recipe_slug master d (de_recipe_slug e)
  ∧ known_ingredient_slug master d (de_ingredient_slug e).

(** The report line printed for an entry whose references do not resolve:
    the recipe is looked at first. *)
Definition unresolved_report (master : corpus) (d : diff) (e : diff_entry)
    (ev : merge_event) : Prop :=
  (¬ known_recipe_slug master d (de_recipe_slug e)
   ∧ ev = UnknownEntryRecipe (de_recipe_slug e))
  ∨ (known_recipe_slug master d (de_recipe_slug e)
     ∧ ¬ known_ingredient_slug master d (de_ingredient_slug e)
     ∧ ev = UnknownEntryIngredient (de_ingredient_slug e)).

(** The corpus holds the fact stated by a diff entry: an entry row that
    links a recipe and an ingredient carrying the entry's slugs, with the
    entry's amount and preparation. *)
Definition committed (master : corpus) (e : diff_entry) : Prop :=
  ∃ r i row,
    r ∈ recipes master ∧ r_slug r = de_recipe_slug e
    ∧ i ∈ ingredients master ∧ i_slug i = de_ingredient_slug e
    ∧ row ∈ entries master
    ∧ recipe_id r = Some (e_recipe_id row)
    ∧ ingredient_id i = Some (e_ingredient_id row)
    ∧ coalesce (amount_raw row) = coalesce (de_amount_raw e)
    ∧ coalesce (preparation row) = coalesce (de_preparation e).

(** The diff [d] with its entries replaced. *)
Definition with_entries (d : diff) (es : list diff_entry) : diff :=
  Diff (d_recipes d) (d_ingredients d) (d_aliases d) es.

(** A [seen_entry] tuple with [None] read as the empty string. *)
Definition norm_key (k : entry_key) : Z * Z * string * string :=
  let '(rid, iid, amount, prep) := k in (rid, iid, or_empty amount, prep).

(** A slug index over rows that carry their identifiers. *)
Definition index_ok {R} (slug : R → string) (id : R → option Z)
    (rows : list R) (by_slug : gmap string R) : Prop :=
  (∀ r, r ∈ rows → is_Some (id r))
  ∧ (∀ s r, by_slug !! s = Some r → r ∈ rows ∧ slug r = s).

(** The rows of step 4 in the state [st] hold the fact stated by [e]. *)
Definition entry_stored (rbs : gmap string recipe)
    (ibs : gmap string ingredient) (e : diff_entry)
    (st : list entry * gset entry_key * nat) : Prop :=
  ∀ r i rid iid,
    rbs !! de_recipe_slug e = Some r → ibs !! de_ingredient_slug e = Some i →
    recipe_id r = Some rid → ingredient_id i = Some iid →
    ∃ row, row ∈ st.1.1
           ∧ norm_key (seen_key row)
             = (rid, iid, coalesce (de_amount_raw e),
                coalesce (de_preparation e)).

(** Every tuple of [seen_entry] comes from a row. *)
Definition seen_stored (st : list entry * gset entry_key * nat) : Prop :=
  ∀ tup, tup ∈ st.1.2 →
    ∃ row, row ∈ st.1.1 ∧ norm_key (seen_key row) = norm_key tup.

(** A diff with two entries for a known recipe: one for a known ingredient,
    one whose ingredient slug is carried by no ingredient. *)
Definition sample_diff_unresolved : diff :=
  {| d_recipes := [];
     d_ingredients := [];
     d_aliases := [];
     d_entries :=
       [DiffEntry "kyphi-28" "honey" (Text "1 hin") JNull Absent
          (Text "boiled") Absent Absent Absent;
        DiffEntry "kyphi-28" "unobtainium" (Text "1 part") JNull Absent
          Absent Absent Absent Absent] |}.

(** A diff whose only entry has no [amount_raw] key. *)
Definition sample_diff_no_amount : diff :=
  {| d_recipes := [];
     d_ingredients := [];
     d_aliases := [];
     d_entries :=
       [DiffEntry "kyphi-28" "honey" Absent JNull Absent (Text "skimmed")
          Absent Absent Absent] |}.

Definition sample_clock (n : nat) : string := "2025-09-03T08:00:00".

(** ** Text

    A Python string is a sequence of characters; the characters of the
    embedding are the code points below 256.  The character classes below are
    those of [str.isspace], of the patterns [\s] and [\w] of [re], and of
    [str.lower] on these code points. *)

Definition ord (c : ascii) : nat := nat_of_ascii c.

Definition between (lo hi n : nat) : bool := (lo <=? n)%nat && (n <=? hi)%nat.

Definition isspace (c : ascii) : bool :=
  let n := ord c in
  between 9 13 n || between 28 32 n || (n =? 133)%nat || (n =? 160)%nat.

Definition is_word (c : ascii) : bool :=
  let n := ord c in
  between 48 57 n || between 65 90 n || (n =? 95)%nat || between 97 122 n
  || (n =? 170)%nat || between 178 179 n || (n =? 181)%nat
  || between 185 186 n || between 188 190 n || between 192 214 n
  || between 216 246 n || between 248 255 n.

Definition lower_char (c : ascii) : ascii :=
  let n := ord c in
  if between 65 90 n || between 192 214 n || between 216 222 n
  then ascii_of_nat (n + 32)
  else c.

Definition chars (s : string) : list ascii := String.list_ascii_of_string s.
Definition text (cs : list ascii) : string := String.string_of_list_ascii cs.

(** [len(s)] *)
Definition len (s : string) : nat := length (chars s).

(** [s.lower()] *)
Definition str_lower (s : string) : string := text (map lower_char (chars s)).

Fixpoint lstrip (cs : list ascii) : list ascii :=
  match cs with
  | c :: cs' => if isspace c then lstrip cs' else cs
  | [] => []
  end.

(** [s.strip()] *)
Definition str_strip (s : string) : string :=
  text (reverse (lstrip (reverse (lstrip (chars s))))).

(** [s.split()]: the maximal runs of characters that are not white space;
    [word] is the run being read. *)
Fixpoint split_ws (cs word : list ascii) : list (list ascii) :=
  match cs with
  | [] => match word with [] => [] | _ => [word] end
  | c :: cs' =>
      if isspace c then
        match word with
        | [] => split_ws cs' []
        | _ => word :: split_ws cs' []
        end
      else split_ws cs' (word ++ [c])
  end.

(** [sep.join(words)] *)
Fixpoint join (sep : list ascii) (words : list (list ascii)) : list ascii :=
  match words with
  | [] => []
  | [w] => w
  | w :: ws => w ++ sep ++ join sep ws
  end.

(** [re.sub(r'[^\w\s]', '', s)] *)
Definition drop_punctuation (cs : list ascii) : list ascii :=
  filter (λ c, is_word c || isspace c) cs.

(** ** Sorting

    [list.sort] and [sorted] are stable and compare with [<] only; the
    result is the one of a stable insertion sort. With [reverse=True] the
    order is reversed and equal items keep their original order: that
    is the stable sort for the converse order. *)

Fixpoint insert_sorted {A} (lt : A → A → bool) (x : A) (l : list A)
    : list A :=
  match l with
  | [] => [x]
  | y :: l' => if lt y x then y :: insert_sorted lt x l' else x :: l
  end.

Definition py_sorted {A} (lt : A → A → bool) (l : list A) : list A :=
  foldr (insert_sorted lt) [] l.

(** ** [difflib.SequenceMatcher(None, a, b).ratio()]

    The standard-library class, with no junk function and the automatic
    junk heuristic on, as the scripts construct it. *)

(** A matching block [(i, j, k)]: [a[i:i+k] == b[j:j+k]]. *)
Definition block : Type := nat * nat * nat.

(** A pending region [(alo, ahi, blo, bhi)]. *)
Definition region : Type := nat * nat * nat * nat.

Definition block_lt (x y : block) : bool :=
  let '(i1, j1, k1) := x in
  let '(i2, j2, k2) := y in
  (i1 <? i2)%nat
  || ((i1 =? i2)%nat
      && ((j1 <? j2)%nat || ((j1 =? j2)%nat && (k1 <? k2)%nat))).

Section difflib.
Context {A : Type} `{Countable A}.

(** The loop over [enumerate(b)] of [__chain_b]: [i] is the position of the
    head of [b]. *)
Fixpoint chain_b_loop (i : nat) (b : list A) (b2j : gmap A (list nat))
    : gmap A (list nat) :=
  match b with
  | [] => b2j
  | elt :: b' =>
      chain_b_loop (S i) b' (<[elt := default [] (b2j !! elt) ++ [i]]> b2j)
  end.

(** [__chain_b]: the positions of each element of [b], in increasing order;
    when [b] has 200 elements or more, the elements that occur more than
    [len(b) // 100 + 1] times are deleted from the dictionary.  The junk set
    stays empty. *)
Definition chain_b (b : list A) : gmap A (list nat) :=
  let b2j := chain_b_loop 0 b ∅ in
  let n := length b in
  if (200 <=? n)%nat then
    let ntest := (n / 100 + 1)%nat in
    filter (λ '(elt, idxs), ¬ (ntest < length idxs)%nat) b2j
  else b2j.

Section find_longest_match.
Context (a b : list A) (b2j : gmap A (list nat)).

(** [j2len.get(j-1, 0)]: there is no key [-1]. *)
Definition j2lenget_pred (j2len : gmap nat nat) (j : nat) : nat :=
  match j with
  | O => 0%nat
  | S j' => default 0%nat (j2len !! j')
  end.

(** The loop over [b2j.get(a[i], nothing)]. *)
Fixpoint inner_loop (blo bhi i : nat) (j2len : gmap nat nat)
    (js : list nat) (newj2len : gmap nat nat) (best : block)
    : gmap nat nat * block :=
  match js with
  | [] => (newj2len, best)
  | j :: js' =>
      if (j <? blo)%nat then inner_loop blo bhi i j2len js' newj2len best
      else if (bhi <=? j)%nat then (newj2len, best)
      else
        let k := (j2lenget_pred j2len j + 1)%nat in
        let newj2len := <[j := k]> newj2len in
        let '(besti, bestj, bestsize) := best in
        let best :=
          if (bestsize <? k)%nat then ((i + 1 - k)%nat, (j + 1 - k)%nat, k)
          else best in
        inner_loop blo bhi i j2len js' newj2len best
  end.

(** The loop over [range(alo, ahi)]. *)
Fixpoint outer_loop (blo bhi : nat) (range : list nat)
    (j2len : gmap nat nat) (best : block) : block :=
  match range with
  | [] => best
  | i :: range' =>
      let js :=
        match a !! i with
        | Some elt => default [] (b2j !! elt)
        | None => []
        end in
      let '(newj2len, best) := inner_loop blo bhi i j2len js ∅ best in
      outer_loop blo bhi range' newj2len best
  end.

(** The first [while] loop: it runs at most [besti] times. *)
Fixpoint extend_back (alo blo besti bestj bestsize : nat) : block :=
  match besti, bestj with
  | S i', S j' =>
      if (alo <? besti)%nat && (blo <? bestj)%nat
         && bool_decide (a !! i' = b !! j')
      then extend_back alo blo i' j' (S bestsize)
      else (besti, bestj, bestsize)
  | _, _ => (besti, bestj, bestsize)
  end.

(** The second [while] loop: it runs at most [n = ahi - (besti + bestsize)]
    times. *)
Fixpoint extend_forward (n ahi bhi besti bestj bestsize : nat) : nat :=
  match n with
  | O => bestsize
  | S n' =>
      if (besti + bestsize <? ahi)%nat && (bestj + bestsize <? bhi)%nat
         && bool_decide (a !! (besti + bestsize)%nat
                         = b !! (bestj + bestsize)%nat)
      then extend_forward n' ahi bhi besti bestj (S bestsize)
      else bestsize
  end.

(** [find_longest_match(alo, ahi, blo, bhi)]; the last two [while] loops
    extend over junk elements only and do nothing. *)
Definition find_longest_match (alo ahi blo bhi : nat) : block :=
  let '(besti, bestj, bestsize) :=
    outer_loop blo bhi (seq alo (ahi - alo)) ∅ (alo, blo, 0%nat) in
  let '(besti, bestj, bestsize) :=
    extend_back alo blo besti bestj bestsize in
  let bestsize :=
    extend_forward (ahi - (besti + bestsize)) ahi bhi besti bestj bestsize in
  (besti, bestj, bestsize).

(** The [while queue] loop of [get_matching_blocks].  [queue.pop()] takes
    the region appended last: the head of the list.  The loop runs once per
    unit of [fuel]; [None] when the fuel runs out before the queue is
    empty. *)
Fixpoint blocks_loop (fuel : nat) (queue : list region)
    (matching_blocks : list block) : option (list block) :=
  match queue with
  | [] => Some matching_blocks
  | (alo, ahi, blo, bhi) :: queue' =>
      match fuel with
      | O => None
      | S fuel' =>
          let '(i, j, k) := find_longest_match alo ahi blo bhi in
          if (k =? 0)%nat then blocks_loop fuel' queue' matching_blocks
          else
            let queue1 :=
              if (alo <? i)%nat && (blo <? j)%nat
              then (alo, i, blo, j) :: queue' else queue' in
            let queue2 :=
              if (i + k <? ahi)%nat && (j + k <? bhi)%nat
              then (i + k, ahi, j + k, bhi)%nat :: queue1 else queue1 in
            blocks_loop fuel' queue2 (matching_blocks ++ [(i, j, k)])
      end
  end.

(** The number of consecutive positions up to [x] whose elements are keys of
    [b2j]: the length the inner loop computes on the diagonal when [a] is
    matched against itself. *)
Fixpoint diag_run (x : nat) : nat :=
  let here :=
    match a !! x with
    | Some elt => bool_decide (is_Some (b2j !! elt))
    | None => false
    end in
  match x with
  | O => if here then 1%nat else 0%nat
  | S x' => if here then S (diag_run x') else 0%nat
  end.

End find_longest_match.

(** The loop that collapses adjacent blocks; [(i1, j1, k1)] is the block
    being grown. *)
Fixpoint collapse (i1 j1 k1 : nat) (blocks : list block) : list block :=
  match blocks with
  | [] => if (k1 =? 0)%nat then [] else [(i1, j1, k1)]
  | (i2, j2, k2) :: blocks' =>
      if (i1 + k1 =? i2)%nat && (j1 + k1 =? j2)%nat
      then collapse i1 j1 (k1 + k2) blocks'
      else
        (if (k1 =? 0)%nat then [] else [(i1, j1, k1)])
        ++ collapse i2 j2 k2 blocks'
  end.

(** [get_matching_blocks()].  The queue loop runs at most
    [2 * len(a) + 1] times, which is the fuel given to it. *)
Definition get_matching_blocks (a b : list A) : list block :=
  let la := length a in
  let lb := length b in
  let matching_blocks :=
    default []
      (blocks_loop a b (chain_b b) (2 * la + 1) [(0, la, 0, lb)%nat] []) in
  collapse 0 0 0 (py_sorted block_lt matching_blocks) ++ [(la, lb, 0%nat)].

(** [_calculate_ratio(matches, length)]; the float [2.0 * matches / length]
    is the correctly rounded value of this fraction. *)
Definition calculate_ratio (matches length : nat) : Q :=
  match length with
  | O => 1%Q
  | S _ => Qmake (2 * Z.of_nat matches) (Pos.of_nat length)
  end.

(** [ratio()] *)
Definition ratio (a b : list A) : Q :=
  let matches := sum_list (map (λ triple : block, triple.2)
                             (get_matching_blocks a b)) in
  calculate_ratio matches (length a + length b).

End difflib.

(** ** Fuzzy matching ([ingredient_db.py], [link_ingredients.py])

    A similarity score is the exact value of the fraction that Python rounds
    to a float; scores are compared as rationals. *)

Definition Qltb (x y : Q) : bool := negb (Qle_bool y x).

(** [x.get(key, d)] on a text field. *)
Definition get_or (d : string) (f : field) : option string :=
  match f with
  | Absent => Some d
  | Null => None
  | Text s => Some s
  end.

(** [normalize_for_search] of [ingredient_db.py] *)
Definition normalize_for_search (s : string) : string :=
  let s := str_lower s in
  let cs := drop_punctuation (chars s) in
  text (join (chars " ") (split_ws cs [])).

(** [similarity] of [ingredient_db.py] *)
Definition similarity (a b : string) : Q :=
  ratio (chars (normalize_for_search a)) (chars (normalize_for_search b)).

Record fuzzy_match := FuzzyMatch {
  m_type : string;
  m_slug : string;
  m_label : string;
  m_language : option string;
  m_similarity : Q;
}.

(** [{i["ingredient_id"]: i for i in ingredients}] *)
Fixpoint index_by_id (rows : list ingredient) (acc : gmap Z ingredient)
    : result (gmap Z ingredient) :=
  match rows with
  | [] => Ok acc
  | i :: rows' =>
      id ← subscript "ingredient_id" (ingredient_id i);
      index_by_id rows' (<[id := i]> acc)
  end.

(** The first loop of [find_similar_ingredients]. *)
Definition label_matches (query : string) (threshold : Q)
    (ings : list ingredient) : list fuzzy_match :=
  omap (λ ing,
          let sim := similarity query (i_label ing) in
          if Qltb threshold sim then
            Some (FuzzyMatch "ingredient" (i_slug ing) (i_label ing)
                    (get_or "unknown" (i_language ing)) sim)
          else None) ings.

(** The second loop. *)
Definition alias_label_matches (query : string) (threshold : Q)
    (ingredients_by_id : gmap Z ingredient) (als : list alias)
    : list fuzzy_match :=
  omap (λ a,
          let sim := similarity query (variant_label a) in
          if Qltb threshold sim then
            match ingredients_by_id !! a_ingredient_id a with
            | Some ing =>
                Some (FuzzyMatch "alias" (i_slug ing)
                        (i_label ing +:+ " (alias: " +:+ variant_label a
                         +:+ ")")
                        (get_or "unknown" (a_language a)) sim)
            | None => None
            end
          else None) als.

(** The last loop: the first match of each slug is kept. *)
Fixpoint unique_by_slug (seen_slugs : gset string) (ms : list fuzzy_match)
    : list fuzzy_match :=
  match ms with
  | [] => []
  | m :: ms' =>
      if decide (m_slug m ∈ seen_slugs) then unique_by_slug seen_slugs ms'
      else m :: unique_by_slug ({[m_slug m]} ∪ seen_slugs) ms'
  end.

(** [sorted(l, key=key, reverse=True)] with a score as key *)
Definition sorted_reverse {A} (key : A → Q) (l : list A) : list A :=
  py_sorted (λ x y, Qltb (key y) (key x)) l.

(** The matches collected by the two loops, in pool order. *)
Definition collect_matches (master : corpus) (query : string) (threshold : Q)
    : result (list fuzzy_match) :=
  ingredients_by_id ← index_by_id (ingredients master) ∅;
  Ok (label_matches query threshold (ingredients master)
      ++ alias_label_matches query threshold ingredients_by_id
           (aliases master)).

Definition find_similar_ingredients (master : corpus) (query : string)
    (threshold : Q) : result (list fuzzy_match) :=
  matches ← collect_matches master query threshold;
  Ok (unique_by_slug ∅ (sorted_reverse m_similarity matches)).

(** The default thresholds. *)
Definition search_threshold : Q := 4 # 10.
Definition link_threshold : Q := 6 # 10.

(** [normalize] of [link_ingredients.py] *)
Definition normalize (s : string) : string :=
  text (drop_punctuation (chars (str_strip (str_lower s)))).

Record link_match := LinkMatch {
  l_slug : string;
  l_label : string;
  l_similarity : Q;
}.

(** [find_similar] of [link_ingredients.py] *)
Definition find_similar (new_label : string)
    (existing_ingredients : list ingredient) (threshold : Q)
    : list link_match :=
  let new_norm := normalize new_label in
  let matches :=
    omap (λ existing,
            let existing_norm := normalize (i_label existing) in
            let similarity := ratio (chars new_norm) (chars existing_norm) in
            if Qltb threshold similarity then
              Some (LinkMatch (i_slug existing) (i_label existing)
                      similarity)
            else None) existing_ingredients in
  sorted_reverse l_similarity matches.

(** ** Equivalence clustering ([generate_equivalences.py]) *)

Record member := Member {
  mb_slug : string;
  mb_label : string;
  mb_language : option string;
}.

Record equivalence_group := EquivalenceGroup {
  canonical_name : string;
  confidence : string;
  eg_ingredients : list string;
  slugs : list string;
  languages : gset (option string);
  auto_generated : bool;
}.

(** [english_aliases[variant].append(m)] on a [defaultdict(list)]: the keys
    stay in the order in which they were first used. *)
Fixpoint dd_append (variant : string) (m : member)
    (dd : list (string * list member)) : list (string * list member) :=
  match dd with
  | [] => [(variant, [m])]
  | (k, ms) :: dd' =>
      if decide (k = variant) then (k, ms ++ [m]) :: dd'
      else (k, ms) :: dd_append variant m dd'
  end.

(** The loop over the aliases. *)
Definition add_english_alias (by_id : gmap Z ingredient)
    (dd : list (string * list member)) (a : alias)
    : list (string * list member) :=
  if decide (get (a_language a) = Some "en"%string) then
    let variant := str_strip (str_lower (variant_label a)) in
    match by_id !! a_ingredient_id a with
    | Some ingredient =>
        dd_append variant
          (Member (i_slug ingredient) (i_label ingredient)
             (get_or "unknown" (i_language ingredient))) dd
    | None => dd
    end
  else dd.

Definition well_known : list string :=
  ["myrrh"; "honey"; "juniper"; "cinnamon"]%string.

(** The loop over [english_aliases.items()]. *)
Definition group_of (english_name : string) (ingredient_list : list member)
    : option equivalence_group :=
  if (1 <? length ingredient_list)%nat then
    Some {| canonical_name := english_name;
            confidence :=
              if decide (english_name ∈ well_known) then "high" else "medium";
            eg_ingredients := map mb_label ingredient_list;
            slugs := map mb_slug ingredient_list;
            languages := list_to_set (map mb_language ingredient_list);
            auto_generated := true |}
  else None.

(** [generate_equivalences]: the value under ["equivalence_groups"]. *)
Definition generate_equivalences (master : corpus)
    : result (list equivalence_group) :=
  by_id ← index_by_id (ingredients master) ∅;
  let english_aliases := foldl (add_english_alias by_id) [] (aliases master) in
  let equivalence_groups :=
    omap (λ '(name, ms), group_of name ms) english_aliases in
  Ok (py_sorted
        (λ x y, (length (eg_ingredients y) <? length (eg_ingredients x))%nat)
        equivalence_groups).

(** ** Validation ([validate_diff.py])

    The validator reads the diff as parsed JSON.  A section may be missing,
    and it may hold any JSON value.  The items of a section that is an array
    are objects whose keys may be missing, and the values of their keys are
    strings or [null]. *)

(** An item of a section: [None] is [null]. *)
Definition item : Type := gmap string (option string).

(** The value of a section.  Of a value that is not an array the validator
    uses its type, its length and what a loop over it yields: the characters
    of a string, the keys of an object. *)
Inductive section_value :=
  | Items (items : list item)
  | SNull
  | SBool (b : bool)
  | SInt (n : Z)
  | SFloat (literal : string)
  | SString (s : string)
  | SObject (keys : list string).

(** The parsed diff: its four sections, missing or not, and its other
    top-level keys. *)
Record raw_diff := RawDiff {
  raw_recipes : option section_value;
  raw_ingredients : option section_value;
  raw_aliases : option section_value;
  raw_entries : option section_value;
  raw_other : list string;
}.

(** What a loop over a section yields: an item of an array, or a string. *)
Inductive element :=
  | AnItem (x : item)
  | AString (s : string).

(** [data/schema_diff.json], as far as the validator reads it:
    [schema["required"]] and, per section,
    [schema["properties"][section]["items"]["required"]]. *)
Record schema := Schema {
  top_required : list string;
  recipes_required : list string;
  ingredients_required : list string;
  aliases_required : list string;
  entries_required : list string;
}.

Inductive validation_error :=
  | MissingTopLevel (field : string)
  | NotAnArray (section : string)
  | MissingItemField (section : string) (index : nat) (field : string)
  | DuplicateRecipeSlugs (dupes : list (option string))
  | DuplicateIngredientSlugs (dupes : list (option string))
  | AliasesUnknownIngredients (refs : gset (option string))
  | EntriesUnknownRecipes (refs : gset (option string))
  | EntriesUnknownIngredients (refs : gset (option string)).

Inductive validation_warning :=
  | EmptyAmounts (count : nat)
  | ShortLabels (who : list (string * option string)).

Inductive validation_suggestion :=
  | AddLanguageTags (slugs : list (option string)).

Record report := Report {
  ok : bool;
  errors : list validation_error;
  warnings : list validation_warning;
  suggestions : list validation_suggestion;
}.

(** [x[key]] *)
Definition item_subscript (x : item) (key : string)
    : result (option string) :=
  subscript key (x !! key).

(** [x.get(key)] *)
Definition item_get (x : item) (key : string) : option string :=
  match x !! key with
  | Some v => v
  | None => None
  end.

(** [len(v)] on a value that is a string or [None]. *)
Definition value_len (v : option string) : result nat :=
  match v with
  | Some s => Ok (len s)
  | None => Raise (TypeError "object of type 'NoneType' has no len()")
  end.

(** [data.get(section, [])] *)
Definition get_section (v : option section_value) : section_value :=
  default (Items []) v.

(** [len(v)] on the value of a section. *)
Definition section_len (v : section_value) : result nat :=
  match v with
  | Items items => Ok (length items)
  | SString s => Ok (len s)
  | SObject keys => Ok (length keys)
  | SNull => Raise (TypeError "object of type 'NoneType' has no len()")
  | SBool _ => Raise (TypeError "object of type 'bool' has no len()")
  | SInt _ => Raise (TypeError "object of type 'int' has no len()")
  | SFloat _ => Raise (TypeError "object of type 'float' has no len()")
  end.

(** What [for x in v] iterates over. *)
Definition elements (v : section_value) : result (list element) :=
  match v with
  | Items items => Ok (map AnItem items)
  | SString s => Ok (map (λ c, AString (text [c])) (chars s))
  | SObject keys => Ok (map AString keys)
  | SNull => Raise (TypeError "'NoneType' object is not iterable")
  | SBool _ => Raise (TypeError "'bool' object is not iterable")
  | SInt _ => Raise (TypeError "'int' object is not iterable")
  | SFloat _ => Raise (TypeError "'float' object is not iterable")
  end.

(** [x[key]] on what a loop yields, with a string as key; the message is
    that of CPython 3.11 and later. *)
Definition element_subscript (x : element) (key : string)
    : result (option string) :=
  match x with
  | AnItem x => item_subscript x key
  | AString _ =>
      Raise (TypeError "string indices must be integers, not 'str'")
  end.

(** [x.get(key)] on what a loop yields. *)
Definition element_get (x : element) (key : string)
    : result (option string) :=
  match x with
  | AnItem x => Ok (item_get x key)
  | AString _ => Raise (AttributeError "'str' object has no attribute 'get'")
  end.

(** [[f(x) for x in xs]] when [f] may raise. *)
Fixpoint comprehension {X Y} (f : X → result Y) (xs : list X)
    : result (list Y) :=
  match xs with
  | [] => Ok []
  | x :: xs' =>
      y ← f x;
      ys ← comprehension f xs';
      Ok (y :: ys)
  end.

(** A loop over the value of a section that collects what its body
    returns. *)
Definition for_in {Y} (v : section_value) (f : element → result Y)
    : result (list Y) :=
  xs ← elements v;
  comprehension f xs.

Definition section_of (data : raw_diff) (section : string)
    : option section_value :=
  if decide (section = "recipes") then raw_recipes data
  else if decide (section = "ingredients") then raw_ingredients data
  else if decide (section = "aliases") then raw_aliases data
  else if decide (section = "entries") then raw_entries data
  else None.

(** [field in data] *)
Definition has_key (data : raw_diff) (field : string) : bool :=
  bool_decide (is_Some (section_of data field))
  || bool_decide (field ∈ raw_other data).

Definition required_of (s : schema) (section : string) : list string :=
  if decide (section = "recipes") then recipes_required s
  else if decide (section = "ingredients") then ingredients_required s
  else if decide (section = "aliases") then aliases_required s
  else entries_required s.

(** [validate_json_schema(data, schema)] *)
Definition validate_json_schema (data : raw_diff) (s : schema)
    : list validation_error :=
  map MissingTopLevel (filter (λ field, ¬ has_key data field) (top_required s))
  ++ flat_map
       (λ section,
          match section_of data section with
          | None => []
          | Some (Items items) =>
              let required_fields := required_of s section in
              flat_map
                (λ '(i, x),
                   map (MissingItemField section i)
                     (filter (λ req_field, (x : item) !! req_field = None)
                        required_fields))
                (imap (λ i x, (i, x)) items)
          | Some _ => [NotAnArray section]
          end)
       ["recipes"; "ingredients"; "aliases"; "entries"]%string.

(** The keys of [Counter(l)], in the order of their first occurrence. *)
Fixpoint counter_keys {K} `{EqDecision K} (l : list K) (seen : list K)
    : list K :=
  match l with
  | [] => []
  | x :: l' =>
      if decide (x ∈ seen) then counter_keys l' seen
      else x :: counter_keys l' (x :: seen)
  end.

(** [[k for k, count in Counter(l).items() if count > 1]] *)
Definition duplicates {K} `{EqDecision K} (l : list K) : list K :=
  filter (λ k, (1 < length (filter (λ x, x = k) l))%nat) (counter_keys l []).

(** [e.get("amount_raw") in [None, "", "—", "?"]]; the dash is not among
    the characters of the embedding. *)
Definition placeholder_amount (v : option string) : bool :=
  match v with
  | None => true
  | Some s => bool_decide (s = ""%string) || bool_decide (s = "?"%string)
  end.

(** The truth value of [x.get("language")]. *)
Definition truthy (v : option string) : bool :=
  match v with
  | None => false
  | Some s => negb (bool_decide (s = ""%string))
  end.

(** [any(ord(c) > 127 for c in label)] *)
Definition non_ascii (s : string) : bool :=
  existsb (λ c, (127 <? ord c)%nat) (chars s).

Definition when {E} (b : bool) (e : E) : list E := if b then [e] else [].

(** [validate_diff], once the file and the schema are loaded. *)
Definition validate_diff (s : schema) (data : raw_diff) : result report :=
  let schema_errors := validate_json_schema data s in
  let recipes := get_section (raw_recipes data) in
  let ingredients := get_section (raw_ingredients data) in
  let aliases := get_section (raw_aliases data) in
  let entries := get_section (raw_entries data) in
  _ ← section_len recipes;
  _ ← section_len ingredients;
  _ ← section_len aliases;
  _ ← section_len entries;
  recipe_slugs ← for_in recipes (λ r, element_subscript r "slug");
  let recipe_dupes := duplicates recipe_slugs in
  ingredient_slugs ← for_in ingredients (λ i, element_subscript i "slug");
  let ingredient_dupes := duplicates ingredient_slugs in
  let recipe_slug_set : gset (option string) := list_to_set recipe_slugs in
  let ingredient_slug_set : gset (option string) :=
    list_to_set ingredient_slugs in
  alias_refs ← for_in aliases (λ a, element_subscript a "ingredient_slug");
  let bad_alias_refs := filter (λ x, x ∉ ingredient_slug_set) alias_refs in
  entry_refs ←
    for_in entries
      (λ e, r ← element_subscript e "recipe_slug";
            i ← element_subscript e "ingredient_slug";
            Ok (r, i));
  let bad_entry_recipe_refs :=
    filter (λ x, x ∉ recipe_slug_set) (map fst entry_refs) in
  let bad_entry_ingredient_refs :=
    filter (λ x, x ∉ ingredient_slug_set) (map snd entry_refs) in
  let errors :=
    schema_errors
    ++ when (negb (bool_decide (recipe_dupes = [])))
         (DuplicateRecipeSlugs recipe_dupes)
    ++ when (negb (bool_decide (ingredient_dupes = [])))
         (DuplicateIngredientSlugs ingredient_dupes)
    ++ when (negb (bool_decide (bad_alias_refs = [])))
         (AliasesUnknownIngredients (list_to_set bad_alias_refs))
    ++ when (negb (bool_decide (bad_entry_recipe_refs = [])))
         (EntriesUnknownRecipes (list_to_set bad_entry_recipe_refs))
    ++ when (negb (bool_decide (bad_entry_ingredient_refs = [])))
         (EntriesUnknownIngredients (list_to_set bad_entry_ingredient_refs)) in
  placeholders ←
    for_in entries
      (λ e, amount ← element_get e "amount_raw";
            Ok (placeholder_amount amount));
  let empty_amounts := length (filter (λ b, b = true) placeholders) in
  short_recipes ←
    for_in recipes
      (λ r, label ← element_subscript r "label";
            n ← value_len label;
            if (n <? 3)%nat then
              slug ← element_subscript r "slug";
              Ok [("recipe"%string, slug)]
            else Ok []);
  short_ingredients ←
    for_in ingredients
      (λ i, label ← element_subscript i "label";
            n ← value_len label;
            if (n <? 2)%nat then
              slug ← element_subscript i "slug";
              Ok [("ingredient"%string, slug)]
            else Ok []);
  let short_labels := concat short_recipes ++ concat short_ingredients in
  non_ascii_without_lang ←
    for_in ingredients
      (λ i, label ← element_subscript i "label";
            if non_ascii (default ""%string label) then
              language ← element_get i "language";
              if negb (truthy language) then
                slug ← element_subscript i "slug"; Ok [slug]
              else Ok []
            else Ok []);
  let warnings :=
    when (0 <? empty_amounts)%nat (EmptyAmounts empty_amounts)
    ++ when (negb (bool_decide (short_labels = []))) (ShortLabels short_labels)
  in
  let suggestions :=
    when (negb (bool_decide (concat non_ascii_without_lang = [])))
      (AddLanguageTags (concat non_ascii_without_lang)) in
  Ok {| ok := bool_decide (errors = []);
             errors := errors;
             warnings := warnings;
             suggestions := suggestions |}.

(** A pool whose only label scores exactly 0.4 against the query ["ab"], and
    one whose only label scores exactly 0.6 against ["abc"]. *)
Definition sample_pool_04 : corpus :=
  Corpus [] [Ingredient (Some 1) "bcd" "bcd" Absent []] [] [].

Definition sample_pool_06 : list ingredient :=
  [Ingredient (Some 1) "abcdefg" "abcdefg" Absent []].

(** ** Vocabulary of the [difflib] properties *)

(** The lengths stored in a row of [j2len] fit in the region: a run of
    length [k] that ends at column [j] in the row before [row_end] starts at
    or after [alo] and [blo]. *)
Definition cells_fit (alo blo row_end : nat) (j2len : gmap nat nat) : Prop :=
  ∀ j k, j2len !! j = Some k →
    (alo + k ≤ row_end)%nat ∧ (blo + k ≤ j + 1)%nat.

(** A block lies in the region, above the row [row_end]. *)
Definition block_fits (alo blo bhi row_end : nat) (best : block) : Prop :=
  let '(besti, bestj, bestsize) := best in
  (alo ≤ besti)%nat ∧ (besti + bestsize ≤ row_end)%nat
  ∧ (blo ≤ bestj)%nat ∧ (bestj + bestsize ≤ bhi)%nat.

Definition region_ok (r : region) : Prop :=
  let '(alo, ahi, blo, bhi) := r in (alo ≤ ahi)%nat ∧ (blo ≤ bhi)%nat.

(** The number of elements that the blocks of a region can still match. *)
Definition region_weight (r : region) : nat :=
  let '(alo, ahi, blo, bhi) := r in ((ahi - alo) `min` (bhi - blo))%nat.

(** A bound on the number of iterations that a region can still cause. *)
Definition region_fuel (r : region) : nat :=
  let '(alo, ahi, blo, bhi) := r in (2 * (ahi - alo) + 1)%nat.

Definition block_size (x : block) : nat := x.2.

Definition total_size (blocks : list block) : nat :=
  sum_list_with block_size blocks.

(** The dictionary [b2j] lists, for each of its keys, the positions of the
    key in [a], in increasing order. *)
Definition lists_positions {A} `{Countable A} (a : list A)
    (b2j : gmap A (list nat)) : Prop :=
  ∀ elt js, b2j !! elt = Some js →
    StronglySorted Nat.lt js ∧ ∀ j, j ∈ js ↔ a !! j = Some elt.

(** The row of [j2len] computed before row [i], when [a] is matched against
    itself: its lengths are bounded by the diagonal runs, and its diagonal
    cell holds the diagonal run. *)
Definition row_before {A} `{Countable A} (a : list A)
    (b2j : gmap A (list nat)) (i : nat) (j2len : gmap nat nat) : Prop :=
  (∀ j k, j2len !! j = Some k →
     ∃ i', i = S i' ∧ (k ≤ diag_run a b2j j)%nat
           ∧ (k ≤ diag_run a b2j i')%nat)
  ∧ (∀ i', i = S i' → diag_run a b2j i' ≠ 0%nat →
       j2len !! i' = Some (diag_run a b2j i')).

(** The best block so far lies on the diagonal and is at least as long as
    every diagonal run before row [i]. *)
Definition best_on_diagonal {A} `{Countable A} (a : list A)
    (b2j : gmap A (list nat)) (i : nat) (best : block) : Prop :=
  let '(besti, bestj, bestsize) := best in
  besti = bestj ∧ ∀ x, (x < i)%nat → (diag_run a b2j x ≤ bestsize)%nat.

(** A pool of three ingredients and one alias. *)
Definition sample_pool : corpus :=
  Corpus []
    [Ingredient (Some 1) "x" "bcd" Absent [];
     Ingredient (Some 2) "y" "ab!" Absent [];
     Ingredient (Some 3) "z" "abz" Absent []]
    [Alias (Some 1) 1 "A B" Null Null] [].

(** ** Vocabulary of the ranking *)






(** Two ingredients with the English alias "juniper", up to case and
    surrounding white space. *)
Definition sample_two_junipers : corpus :=
  Corpus []
    [Ingredient (Some 1) "arkeuthos" "arkeuthos" (Text "grc") [];
     Ingredient (Some 2) "iuniperus" "iuniperus" (Text "la") []]
    [Alias (Some 1) 1 "Juniper" (Text "en") Null;
     Alias (Some 2) 2 "juniper " (Text "en") Null;
     Alias (Some 3) 2 "cedar" (Text "en") Null] [].

(** One ingredient with two English aliases that differ in case only. *)
Definition sample_one_myrrh : corpus :=
  Corpus []
    [Ingredient (Some 1) "smyrna" "smyrna" (Text "grc") []]
    [Alias (Some 1) 1 "Myrrh" (Text "en") Null;
     Alias (Some 2) 1 "myrrh" (Text "en") Null] [].

(** A schema that requires the four sections and the natural keys of their
    items. *)
Definition sample_schema : schema :=
  {| top_required := ["recipes"; "ingredients"; "aliases"; "entries"]%string;
     recipes_required := ["slug"; "label"]%string;
     ingredients_required := ["slug"; "label"]%string;
     aliases_required := ["ingredient_slug"; "variant_label"]%string;
     entries_required := ["recipe_slug"; "ingredient_slug"]%string |}.

(** A diff whose only recipe has a label and no slug. *)
Definition sample_diff_missing_slug : raw_diff :=
  {| raw_recipes := Some (Items [{[ "label"%string := Some "Kyphi"%string ]}]);
     raw_ingredients := Some (Items []);
     raw_aliases := Some (Items []);
     raw_entries := Some (Items []);
     raw_other := [] |}.

(** A diff with short labels and an entry without amount, and nothing
    else to report. *)
Definition sample_diff_quality_only : raw_diff :=
  {| raw_recipes :=
       Some (Items
               [list_to_map [("slug", Some "k"); ("label", Some "Ky")]%string]);
     raw_ingredients :=
       Some (Items
               [list_to_map
                  [("slug", Some "honey"); ("label", Some "h")]%string]);
     raw_aliases := Some (Items []);
     raw_entries :=
       Some (Items
               [list_to_map [("recipe_slug", Some "k");
                             ("ingredient_slug", Some "honey")]%string]);
     raw_other := [] |}.

(** A diff whose [recipes] section is an empty object. *)
Definition sample_diff_object_section : raw_diff :=
  {| raw_recipes := Some (SObject []);
     raw_ingredients := Some (Items []);
     raw_aliases := Some (Items []);
     raw_entries := Some (Items []);
     raw_other := [] |}.

(** ** Vocabulary of the validation properties *)

(** The items of a section that is an array. *)
Definition items_of (section : option section_value) : list item :=
  match section with
  | Some (Items items) => items
  | _ => []
  end.

Definition slugs_of (items : list item) : list (option string) :=
  map (λ x, item_get x "slug") items.

(** Two recipes, or two ingredients, of the diff have the same slug. *)
Definition duplicate_slug (data : raw_diff) : Prop :=
  ¬ NoDup (slugs_of (items_of (raw_recipes data)))
  ∨ ¬ NoDup (slugs_of (items_of (raw_ingredients data))).

(** An alias or an entry of the diff refers to a slug that no ingredient
    (recipe) of the diff carries. *)
Definition dangling_reference (data : raw_diff) : Prop :=
  (∃ a, a ∈ items_of (raw_aliases data)
        ∧ item_get a "ingredient_slug"
          ∉ slugs_of (items_of (raw_ingredients data)))
  ∨ (∃ e, e ∈ items_of (raw_entries data)
          ∧ item_get e "recipe_slug"
            ∉ slugs_of (items_of (raw_recipes data)))
  ∨ (∃ e, e ∈ items_of (raw_entries data)
          ∧ item_get e "ingredient_slug"
            ∉ slugs_of (items_of (raw_ingredients data))).

(** A required top-level field is missing, a section is not an array, or a
    required field of an item is missing. *)
Definition structural_error (s : schema) (data : raw_diff) : Prop :=
  (∃ field, field ∈ top_required s ∧ has_key data field = false)
  ∨ (∃ section v,
       section ∈ ["recipes"; "ingredients"; "aliases"; "entries"]%string
       ∧ section_of data section = Some v
       ∧ ∀ items, v ≠ Items items)
  ∨ (∃ section items x field,
       section ∈ ["recipes"; "ingredients"; "aliases"; "entries"]%string
       ∧ section_of data section = Some (Items items)
       ∧ x ∈ items
       ∧ field ∈ required_of s section
       ∧ (x : item) !! field = None).

(** ** Vocabulary of the clustering properties *)

(** The normalized text of an English alias. *)
Definition english_variant (a : alias) : option string :=
  if decide (get (a_language a) = Some "en"%string)
  then Some (str_strip (str_lower (variant_label a)))
  else None.

(** The ingredients of the alias rows, in order, whose English alias
    normalizes to [name]; an ingredient occurs once per such row. *)
Definition english_members (by_id : gmap Z ingredient) (name : string)
    (als : list alias) : list member :=
  omap (λ a,
          if decide (english_variant a = Some name) then
            match by_id !! a_ingredient_id a with
            | Some ingredient =>
                Some (Member (i_slug ingredient) (i_label ingredient)
                        (get_or "unknown" (i_language ingredient)))
            | None => None
            end
          else None) als.

(** ** Vocabulary of the merge invariants *)

(** The alias row that [merge] makes of a diff alias. *)
Definition alias_row (new_id iid : Z) (a : diff_alias) : alias :=
  {| alias_id := Some new_id;
     a_ingredient_id := iid;
     variant_label := da_variant_label a;
     a_language := stored (get (da_language a));
     a_source := stored (get (da_source a)) |}.

(** The entry row that [merge] makes of a diff entry. *)
Definition entry_row (new_id rid iid : Z) (timestamp by_whom : string)
    (e : diff_entry) : entry :=
  {| entry_id := Some new_id;
     e_recipe_id := rid;
     e_ingredient_id := iid;
     amount_raw := stored (get (de_amount_raw e));
     amount_value := de_amount_value e;
     amount_unit := stored (get (de_amount_unit e));
     preparation := stored (get (de_preparation e));
     notes := stored (get (de_notes e));
     source_citation := stored (get (de_source_citation e));
     source_span := stored (get (de_source_span e));
     added_at := Text timestamp;
     added_by := Text by_whom |}.

(** Every entry and every alias refers to identifiers that rows of the
    corpus carry. *)
Definition references_resolve (m : corpus) : Prop :=
  (∀ e, e ∈ entries m →
     Some (e_recipe_id e) ∈ map recipe_id (recipes m)
     ∧ Some (e_ingredient_id e) ∈ map ingredient_id (ingredients m))
  ∧ (∀ a, a ∈ aliases m →
       Some (a_ingredient_id a) ∈ map ingredient_id (ingredients m)).

(** A diff that brings a recipe, an ingredient with an alias, and two
    entries: one for the new ingredient, one for an ingredient of the sample
    corpus. *)
Definition sample_diff_new_recipe : diff :=
  {| d_recipes := [Recipe None "kyphi-16" "Kyphi of 16 ingredients" []];
     d_ingredients := [Ingredient None "smyrna" "smyrna" (Text "grc") []];
     d_aliases := [DiffAlias "smyrna" "myrrh" (Text "en") Absent];
     d_entries :=
       [DiffEntry "kyphi-16" "smyrna" (Text "1 mna") JNull Absent Absent
          Absent Absent Absent;
        DiffEntry "kyphi-16" "honey" (Text "3 hin") JNull Absent
          (Text "boiled") Absent Absent Absent] |}.

(** ** Vocabulary of the round trip *)

(** A corpus whose recipe and ingredient rows carry pairwise different
    identifiers, to which all its entries and aliases refer. *)
Definition well_formed (master : corpus) : Prop :=
  ids_present master
  ∧ references_resolve master
  ∧ NoDup (omap recipe_id (recipes master))
  ∧ NoDup (omap ingredient_id (ingredients master)).

(** A diff that brings new things only: recipes and ingredients without
    identifiers, under slugs that the corpus does not have; aliases for its
    ingredients; entries for its recipes. *)
Definition brings_new (master : corpus) (d : diff) : Prop :=
  (∀ r, r ∈ d_recipes d →
     recipe_id r = None ∧ r_slug r ∉ map r_slug (recipes master))
  ∧ (∀ i, i ∈ d_ingredients d →
       ingredient_id i = None ∧ i_slug i ∉ map i_slug (ingredients master))
  ∧ (∀ a, a ∈ d_aliases d →
       da_ingredient_slug a ∈ map i_slug (d_ingredients d))
  ∧ (∀ e, e ∈ d_entries d → de_recipe_slug e ∈ map r_slug (d_recipes d)).

(** A removal diff that names the alias of the sample corpus. *)
Definition sample_removal_alias : diff :=
  {| d_recipes := [];
     d_ingredients := [];
     d_aliases := [DiffAlias "honey" "meli" Absent Absent];
     d_entries := [] |}.

(** A removal diff that names every row of the sample corpus. *)
Definition sample_removal_all : diff :=
  {| d_recipes := [Recipe None "kyphi-28" "Kyphi of 28 ingredients" []];
     d_ingredients := [Ingredient None "honey" "Honey" Absent []];
     d_aliases := [DiffAlias "honey" "meli" Absent Absent];
     d_entries :=
       [DiffEntry "kyphi-28" "honey" (Text "2 hin") JNull Absent Absent
          Absent Absent Absent;
        DiffEntry "kyphi-28" "honey" (Text "2 hin") JNull Absent
          (Text "strained") Absent Absent Absent] |}.

(** A corpus whose only alias refers to an ingredient identifier that no
    row carries. *)
Definition sample_corpus_dangling : corpus :=
  {| recipes := recipes sample_corpus;
     ingredients := ingredients sample_corpus;
     aliases := [Alias (Some 2) 7 "meli" (Text "grc") Null];
     entries := [] |}.

(** A section over which the loops of [validate_diff] can run: it is
    missing, an array, or a string or an object with nothing in it. *)
Definition empty_or_array (section : option section_value) : Prop :=
  match section with
  | None | Some (Items _) => True
  | Some (SString s) => s = ""%string
  | Some (SObject keys) => keys = []
  | Some _ => False
  end.

Definition sections_iterable (data : raw_diff) : Prop :=
  empty_or_array (raw_recipes data)
  ∧ empty_or_array (raw_ingredients data)
  ∧ empty_or_array (raw_aliases data)
  ∧ empty_or_array (raw_entries data).

(** The keys that the content checks of [validate_diff] subscript, and the
    labels whose length they take. *)
Definition has_text (x : item) (key : string) : Prop :=
  ∃ s, x !! key = Some (Some s).

Definition keys_present (data : raw_diff) : Prop :=
  (∀ r, r ∈ items_of (raw_recipes data) →
     is_Some (r !! "slug"%string) ∧ has_text r "label")
  ∧ (∀ i, i ∈ items_of (raw_ingredients data) →
       is_Some (i !! "slug"%string) ∧ has_text i "label")
  ∧ (∀ a, a ∈ items_of (raw_aliases data) →
       is_Some (a !! "ingredient_slug"%string))
  ∧ (∀ e, e ∈ items_of (raw_entries data) →
       is_Some (e !! "recipe_slug"%string)
       ∧ is_Some (e !! "ingredient_slug"%string)).

(** ** Vocabulary of the text properties *)

(** A lower-case word character, and non-empty words of such characters. *)
Definition plain_char (c : ascii) : Prop :=
  is_word c = true ∧ lower_char c = c.

Definition plain_words (ws : list (list ascii)) : Prop :=
  Forall (λ w, w ≠ [] ∧ Forall plain_char w) ws.

(** ** Regular expressions, as far as [validate_completeness.py] uses them

    The three patterns are sequences of single characters of a class and of
    greedy runs [c+] of characters of a class, one of which is the group.
    [re] tries the longest run first and gives characters back one at a
    time. *)

Inductive re_item :=
  | One (cls : ascii → bool)
  | Many (cls : ascii → bool) (captured : bool).

(** [\d] on the characters of the embedding *)
Definition is_digit (c : ascii) : bool := between 48 57 (ord c).

Definition lit (c : ascii) : re_item := One (Ascii.eqb c).

Definition lits (s : string) : list re_item := map lit (chars s).

(** The number of characters of the class at the start of [s]. *)
Fixpoint run_length (cls : ascii → bool) (s : list ascii) : nat :=
  match s with
  | c :: s' => if cls c then S (run_length cls s') else 0
  | [] => 0
  end.

(** A run of at most [k] characters: the rest of the pattern is tried after
    [k] characters, then after [k - 1], down to one. *)
Fixpoint back_off {X} (continue : list ascii → option X) (s : list ascii)
    (k : nat) : option (nat * X) :=
  match k with
  | O => None
  | S k' =>
      match continue (drop k s) with
      | Some x => Some (k, x)
      | None => back_off continue s k'
      end
  end.

(** A match of the pattern at the start of [s]: the text of the group. *)
Fixpoint match_here (pattern : list re_item) (s : list ascii)
    : option (list ascii) :=
  match pattern with
  | [] => Some []
  | One cls :: pattern' =>
      match s with
      | c :: s' => if cls c then match_here pattern' s' else None
      | [] => None
      end
  | Many cls captured :: pattern' =>
      match back_off (match_here pattern') s (run_length cls s) with
      | Some (k, group) => Some (if captured then take k s else group)
      | None => None
      end
  end.

(** [re.search(pattern, s)]: the leftmost match; [group(1)] of it. *)
Fixpoint re_search (pattern : list re_item) (s : list ascii)
    : option (list ascii) :=
  match match_here pattern s with
  | Some group => Some group
  | None =>
      match s with
      | [] => None
      | _ :: s' => re_search pattern s'
      end
  end.

(** [int(digits)] *)
Definition int_of_digits (digits : list ascii) : Z :=
  foldl (λ n c, 10 * n + (Z.of_nat (ord c) - 48)) 0 digits.

(** ** Completeness check ([validate_completeness.py]) *)

Definition capital_or_small_i (c : ascii) : bool :=
  Ascii.eqb c "I" || Ascii.eqb c "i".

(** [r'(\d+)\s+[Ii]ngredients'] *)
Definition pattern_count : list re_item :=
  [Many is_digit true; Many isspace false; One capital_or_small_i]
  ++ lits "ngredients".

(** [r'\((\d+)\s+ingredients\)'] *)
Definition pattern_parenthesized : list re_item :=
  lits "(" ++ [Many is_digit true; Many isspace false] ++ lits "ingredients"
  ++ lits ")".

(** [r'of\s+(\d+)\s+[Ii]ngredients'] *)
Definition pattern_of : list re_item :=
  lits "of"
  ++ [Many isspace false; Many is_digit true; Many isspace false;
      One capital_or_small_i]
  ++ lits "ngredients".

Definition patterns : list (list re_item) :=
  [pattern_count; pattern_parenthesized; pattern_of].

(** The loop over the patterns. *)
Fixpoint first_match (patterns : list (list re_item)) (label : list ascii)
    : option Z :=
  match patterns with
  | [] => None
  | pattern :: patterns' =>
      match re_search pattern label with
      | Some group => Some (int_of_digits group)
      | None => first_match patterns' label
      end
  end.

(** [extract_ingredient_count_from_label] *)
Definition extract_ingredient_count_from_label (label : string) : option Z :=
  first_match patterns (chars label).

(** ** Long-format export ([export_long.py]) *)

(** A row of the exported table. *)
Record long_row := LongRow {
  lr_recipe : string;
  lr_ingredient : string;
  lr_amount : option string;
  lr_preparation : option string;
  lr_notes : option string;
  lr_aliases : string;
}.

(** What [export] does once the corpus is loaded: it leaves through
    [sys.exit], or it writes the rows to the output file and returns. *)
Inductive export_outcome :=
  | ExportExit (status : Z)
  | ExportRows (rows : list long_row).

(** What the operating system answers: the exception that making a
    directory of a given name raises, if any, and whether the output file of
    a given name can be written and its size read. *)
Record os_answers := OsAnswers {
  makedirs_error : string → option exn;
  write_succeeds : string → bool;
}.

(** [p[:p.rfind(sep) + 1]] *)
Fixpoint up_to_last (sep : ascii) (cs : list ascii) : list ascii :=
  match cs with
  | [] => []
  | c :: cs' =>
      match up_to_last sep cs' with
      | [] => if Ascii.eqb c sep then [c] else []
      | rest => c :: rest
      end
  end.

(** [s.rstrip(sep)] *)
Fixpoint rstrip_char (sep : ascii) (cs : list ascii) : list ascii :=
  match cs with
  | [] => []
  | c :: cs' =>
      match rstrip_char sep cs' with
      | [] => if Ascii.eqb c sep then [] else [c]
      | rest => c :: rest
      end
  end.

(** [os.path.dirname] of [posixpath]: the part before the last slash,
    without its trailing slashes unless it consists of slashes. *)
Definition dirname (p : string) : string :=
  let head := up_to_last "/" (chars p) in
  if forallb (Ascii.eqb "/") head then text head
  else text (rstrip_char "/" head).

(** [os.makedirs(name, exist_ok=True)]: no directory has the empty name. *)
Definition makedirs (os : os_answers) (name : string) : result () :=
  if decide (name = ""%string) then Raise (FileNotFoundError "")
  else
    match makedirs_error os name with
    | Some e => Raise e
    | None => Ok ()
    end.

(** [{r["recipe_id"]: r for r in m.get("recipes", [])}] *)
Fixpoint recipes_by_id (rows : list recipe) (acc : gmap Z recipe)
    : result (gmap Z recipe) :=
  match rows with
  | [] => Ok acc
  | r :: rows' =>
      id ← subscript "recipe_id" (recipe_id r);
      recipes_by_id rows' (<[id := r]> acc)
  end.

(** The body of the loop that collects the English variant labels of each
    ingredient. *)
Definition add_alias_label (ingredient_aliases : gmap Z (list string))
    (a : alias) : gmap Z (list string) :=
  let ingredient_id := a_ingredient_id a in
  let ingredient_aliases :=
    match ingredient_aliases !! ingredient_id with
    | None => <[ingredient_id := []]> ingredient_aliases
    | Some _ => ingredient_aliases
    end in
  if decide (get (a_language a) = Some "en"%string) then
    <[ingredient_id :=
        default [] (ingredient_aliases !! ingredient_id) ++ [variant_label a]]>
      ingredient_aliases
  else ingredient_aliases.

(** [d[k]] on a dictionary keyed by identifiers. *)
Definition lookup_id {V} (d : gmap Z V) (k : Z) : result V :=
  subscript (pretty k) (d !! k).

(** [", ".join(labels) if labels else ""] *)
Definition aliases_text (labels : list string) : string :=
  match labels with
  | [] => ""%string
  | _ => text (join (chars ", ") (map chars labels))
  end.

(** The body of the loop that builds the rows. *)
Definition long_row_of (recipes : gmap Z recipe)
    (ingredients : gmap Z ingredient)
    (ingredient_aliases : gmap Z (list string)) (e : entry)
    : result long_row :=
  recipe ← lookup_id recipes (e_recipe_id e);
  ingredient ← lookup_id ingredients (e_ingredient_id e);
  iid ← subscript "ingredient_id" (ingredient_id ingredient);
  let english_aliases := default [] (ingredient_aliases !! iid) in
  Ok {| lr_recipe := r_label recipe;
        lr_ingredient := i_label ingredient;
        lr_amount := get (amount_raw e);
        lr_preparation := get (preparation e);
        lr_notes := get (notes e);
        lr_aliases := aliases_text english_aliases |}.

(** [export], from the loaded corpus to the rows that are written. *)
Definition export (os : os_answers) (m : corpus) (out_path : string)
    : result export_outcome :=
  recipes ← recipes_by_id (recipes m) ∅;
  ingredients ← index_by_id (ingredients m) ∅;
  let entries := entries m in
  let alias_rows := aliases m in
  let ingredient_aliases := foldl add_alias_label ∅ alias_rows in
  let missing_recipes :=
    map e_recipe_id (filter (λ e, recipes !! e_recipe_id e = None) entries) in
  let missing_ingredients :=
    map e_ingredient_id
      (filter (λ e, ingredients !! e_ingredient_id e = None) entries) in
  if negb (bool_decide (missing_recipes = [])) then Ok (ExportExit 1)
  else if negb (bool_decide (missing_ingredients = [])) then
    Ok (ExportExit 1)
  else
    let alias_rows := aliases m in
    let ingredient_aliases := foldl add_alias_label ∅ alias_rows in
    rows ← comprehension (long_row_of recipes ingredients ingredient_aliases)
              entries;
    _ ← makedirs os (dirname out_path);
    if write_succeeds os out_path then Ok (ExportRows rows)
    else Ok (ExportExit 1).

(** An operating system that makes every directory and writes every
    file. *)
Definition sample_os : os_answers := OsAnswers (λ _, None) (λ _, true).

(** ** Vocabulary of the export properties *)

(** Every entry refers to identifiers that rows of the corpus carry. *)
Definition entries_resolve (m : corpus) : Prop :=
  ∀ e, e ∈ entries m →
    Some (e_recipe_id e) ∈ map recipe_id (recipes m)
    ∧ Some (e_ingredient_id e) ∈ map ingredient_id (ingredients m).

(** The variant labels of the English aliases of an ingredient, in the order
    of the aliases. *)
Definition english_labels (id : Z) (als : list alias) : list string :=
  map variant_label
    (filter (λ a, a_ingredient_id a = id
                  ∧ get (a_language a) = Some "en"%string) als).

(** [needle in s] on strings *)
Fixpoint starts_with (needle s : list ascii) : bool :=
  match needle, s with
  | [], _ => true
  | c :: needle', d :: s' => Ascii.eqb c d && starts_with needle' s'
  | _ :: _, [] => false
  end.

Fixpoint contains (needle s : list ascii) : bool :=
  starts_with needle s
  || match s with
     | [] => false
     | _ :: s' => contains needle s'
     end.

(** A [defaultdict(list)]: its items in the order in which the keys were
    first used. *)
Fixpoint dict_get {K V} `{EqDecision K} (k : K) (d : list (K * list V))
    : option (list V) :=
  match d with
  | [] => None
  | (k', vs) :: d' => if decide (k' = k) then Some vs else dict_get k d'
  end.

(** [d[k].append(v)] *)
Fixpoint dict_append {K V} `{EqDecision K} (k : K) (v : V)
    (d : list (K * list V)) : list (K * list V) :=
  match d with
  | [] => [(k, [v])]
  | (k', vs) :: d' =>
      if decide (k' = k) then (k', vs ++ [v]) :: d'
      else (k', vs) :: dict_append k v d'
  end.

(** Reading [d[k]] gives the key an empty list when it had none. *)
Definition dict_touch {K V} `{EqDecision K} (k : K) (d : list (K * list V))
    : list (K * list V) :=
  match dict_get k d with
  | Some _ => d
  | None => d ++ [(k, [])]
  end.

Record completeness_issue := Mismatch {
  ci_recipe_id : Z;
  ci_slug : string;
  ci_label : string;
  ci_expected : Z;
  ci_actual : Z;
  ci_difference : Z;
}.

Record completeness_warning := SuspiciouslyLow {
  cw_recipe_id : Z;
  cw_slug : string;
  cw_label : string;
  cw_actual : Z;
}.

(** The lines printed for a recipe with optional or alternative
    ingredients. *)
Record completeness_note := Note {
  cn_label : string;
  cn_optional : bool;
  cn_alternative : bool;
}.

Record completeness_report := CompletenessReport {
  cr_issues : list completeness_issue;
  cr_warnings : list completeness_warning;
  cr_notes : list completeness_note;
  cr_optional_count : nat;
  cr_alternative_count : nat;
}.

(** The body of the loop over [sorted(recipes.items())]. *)
Definition check_recipe (strict : bool)
    (st : list (Z * list entry) * list completeness_issue
          * list completeness_warning)
    (item : Z * recipe)
    : list (Z * list entry) * list completeness_issue
      * list completeness_warning :=
  let '(entries_by_recipe, issues, warnings) := st in
  let '(recipe_id, recipe) := item in
  let label := r_label recipe in
  let slug := r_slug recipe in
  let entries_by_recipe := dict_touch recipe_id entries_by_recipe in
  let entry_count :=
    Z.of_nat (length (default [] (dict_get recipe_id entries_by_recipe))) in
  match extract_ingredient_count_from_label label with
  | Some expected_count =>
      if decide (entry_count ≠ expected_count) then
        (entries_by_recipe,
         issues ++ [Mismatch recipe_id slug label expected_count entry_count
                      (entry_count - expected_count)],
         warnings)
      else (entries_by_recipe, issues, warnings)
  | None =>
      if (entry_count <? 5) && strict then
        (entries_by_recipe, issues,
         warnings ++ [SuspiciouslyLow recipe_id slug label entry_count])
      else (entries_by_recipe, issues, warnings)
  end.

(** The inner loop over the entries of a recipe. *)
Definition scan_entry (st : nat * nat * bool * bool) (e : entry)
    : nat * nat * bool * bool :=
  let '(optional_count, alternative_count, recipe_has_optional,
        recipe_has_alternative) := st in
  let notes := or_empty (get_or_empty (notes e)) in
  let '(optional_count, recipe_has_optional) :=
    if contains (chars "optional") (chars (str_lower notes))
    then (S optional_count, true)
    else (optional_count, recipe_has_optional) in
  let '(alternative_count, recipe_has_alternative) :=
    if contains (chars "alternative") (chars (str_lower notes))
    then (S alternative_count, true)
    else (alternative_count, recipe_has_alternative) in
  (optional_count, alternative_count, recipe_has_optional,
   recipe_has_alternative).

(** The body of the loop over [entries_by_recipe.items()]. *)
Definition check_notes (recipes : gmap Z recipe) (st : nat * nat)
    (item : Z * list entry)
    : result (nat * nat * list completeness_note) :=
  let '(optional_count, alternative_count) := st in
  let '(recipe_id, entries) := item in
  recipe ← lookup_id recipes recipe_id;
  let '(optional_count, alternative_count, recipe_has_optional,
        recipe_has_alternative) :=
    foldl scan_entry (optional_count, alternative_count, false, false)
      entries in
  Ok (optional_count, alternative_count,
      if recipe_has_optional || recipe_has_alternative
      then [Note (r_label recipe) recipe_has_optional recipe_has_alternative]
      else []).

(** [validate_completeness], from the loaded corpus to the value it returns
    and the summary it prints. *)
Definition validate_completeness (strict : bool) (data : corpus)
    : result (Z * completeness_report) :=
  recipes ← recipes_by_id (recipes data) ∅;
  ingredients ← index_by_id (ingredients data) ∅;
  let entries_by_recipe :=
    foldl (λ d entry, dict_append (e_recipe_id entry) entry d) []
      (entries data) in
  let '(entries_by_recipe, issues, warnings) :=
    foldl (check_recipe strict) (entries_by_recipe, [], [])
      (py_sorted (λ x y, x.1 <? y.1) (map_to_list recipes)) in
  '(optional_count, alternative_count, notes) ←
    for_each (check_notes recipes) entries_by_recipe (0%nat, 0%nat);
  let report := CompletenessReport issues warnings notes optional_count
                  alternative_count in
  Ok (if bool_decide (issues = []) then 0 else 1, report).

(** The [__main__] block: the exit status. *)
Definition validate_completeness_main (strict : bool) (data : corpus) : Z :=
  match validate_completeness strict data with
  | Ok (exit_code, _) => exit_code
  | Raise _ => 1
  end.

(** ** Vocabulary of the completeness properties *)



(** The recipe row that the dictionary of recipes holds for an
    identifier. *)
Definition recipe_of (data : corpus) (id : Z) : option recipe :=
  last (filter (λ r, recipe_id r = Some id) (recipes data)).

(** A recipe whose label states a count that differs from the number of its
    entries. *)
Definition count_mismatch (data : corpus) : Prop :=
  ∃ id r expected,
    recipe_of data id = Some r
    ∧ extract_ingredient_count_from_label (r_label r) = Some expected
    ∧ Z.of_nat (length (filter (λ e, e_recipe_id e = id) (entries data)))
      ≠ expected.

(** ** Slug suggestion and equivalence lookup ([assist_ingestion.py],
    [update_equivalences.py]) *)

(** [re.sub(r'[c]+', rep, s)] for a class [c] of characters: every maximal
    run of characters of the class becomes one [rep]; [in_run] tells that the
    run being read has been replaced already. *)
Fixpoint sub_runs (cls : ascii → bool) (rep : list ascii) (in_run : bool)
    (s : list ascii) : list ascii :=
  match s with
  | [] => []
  | c :: s' =>
      if cls c then
        if in_run then sub_runs cls rep true s'
        else rep ++ sub_runs cls rep true s'
      else c :: sub_runs cls rep false s'
  end.

Fixpoint lstrip_chars (cls : ascii → bool) (cs : list ascii) : list ascii :=
  match cs with
  | c :: cs' => if cls c then lstrip_chars cls cs' else cs
  | [] => []
  end.

(** [s.strip(chars)] *)
Definition strip_chars (cls : ascii → bool) (cs : list ascii) : list ascii :=
  reverse (lstrip_chars cls (reverse (lstrip_chars cls cs))).

(** [[a-z]], [[a-z0-9]] and [[.(){}\[\]]] *)
Definition is_small_letter (c : ascii) : bool := between 97 122 (ord c).

Definition slug_char (c : ascii) : bool := is_small_letter c || is_digit c.

Definition is_bracket_or_dot (c : ascii) : bool :=
  existsb (Ascii.eqb c) (chars ".(){}[]").

Definition is_hyphen (c : ascii) : bool := Ascii.eqb c "-".

Section suggest_slug.
(** [normalize_greek] decomposes its argument with [unicodedata] and drops
    the combining marks; it is a parameter here.  The table of [translate]
    has Greek letters as keys, none of which is a character of the
    embedding, so that [translate] changes nothing. *)
Variable normalize_greek : string → string.

(** [suggest_slug] *)
Definition suggest_slug (label language : string) : string :=
  if decide (language = "grc"%string) then
    let cleaned := normalize_greek label in
    let slug := str_lower cleaned in
    text (strip_chars is_hyphen
            (sub_runs (λ c, negb (is_small_letter c)) (chars "-") false
               (chars slug)))
  else if decide (language = "egy"%string) then
    let slug := chars (str_lower label) in
    let slug := filter (λ c, negb (is_bracket_or_dot c)) slug in
    let slug :=
      sub_runs (λ c, negb (slug_char c || is_hyphen c)) (chars "-") false
        slug in
    let slug := sub_runs is_hyphen (chars "-") false slug in
    text (strip_chars is_hyphen slug)
  else
    let slug := chars (str_lower label) in
    let slug := sub_runs (λ c, negb (slug_char c)) (chars "-") false slug in
    text (strip_chars is_hyphen slug).
End suggest_slug.

(** [normalize_text] of [update_equivalences.py]; [assist_ingestion.py]
    writes [term.lower().strip()] in place. *)
Definition normalize_text (s : string) : string := str_strip (str_lower s).

(** [find_equivalence_group]: [equivalences] is the object of
    [docs/equivalences.json], its groups in the order of the file. *)
Fixpoint find_equivalence_group (search_term : string)
    (equivalences : list (string * list string)) : option string :=
  let search_norm := normalize_text search_term in
  match equivalences with
  | [] => None
  | (group_name, terms) :: equivalences' =>
      if existsb (λ term, bool_decide (normalize_text term = search_norm))
           terms
      then Some group_name
      else find_equivalence_group search_term equivalences'
  end.

(** ** Vocabulary of the slug properties *)

(** Kebab case: small letters, digits and hyphens, no hyphen at either end
    and no two hyphens in a row. *)
Definition kebab (cs : list ascii) : Prop :=
  Forall (λ c, slug_char c = true ∨ c = "-"%char) cs
  ∧ head cs ≠ Some "-"%char
  ∧ last cs ≠ Some "-"%char
  ∧ ∀ l1 l2, cs ≠ l1 ++ "-"%char :: "-"%char :: l2.

(** A term of a group is the search term up to case and surrounding white
    space. *)
Definition names_term (search_term : string) (terms : list string) : Prop :=
  ∃ term, term ∈ terms ∧ normalize_text term = normalize_text search_term.

(** * Properties *)

(** ** Identifier allocation *)

Section next_id_facts.
Context {A : Type} (key : A → option Z).

Lemma py_max_ge_init x xs : x ≤ py_max x xs.
Proof.
  unfold py_max. revert x.
  induction xs as [|y ys IH]; intros x; simpl; [lia|].
  specialize (IH (Z.max x y)). lia.
Qed.

Lemma py_max_ge_elem x xs y : y ∈ xs → y ≤ py_max x xs.
Proof.
  revert x. induction xs as [|z zs IH]; intros x Hy.
  - by apply elem_of_nil in Hy.
  - change (py_max x (z :: zs)) with (py_max (Z.max x z) zs).
    apply elem_of_cons in Hy as [->|Hy].
    + pose proof (py_max_ge_init (Z.max x z) zs). lia.
    + by apply IH.
Qed.

Lemma max_default_cons d i rest :
  rest ≠ [] → max_default d (i :: rest) = Z.max i (max_default d rest).
Proof. by destruct rest. Qed.

Lemma py_max_max_default x xs : py_max x xs = max_default 0 (x :: xs).
Proof.
  revert x. induction xs as [|y ys IH]; intros x; [done|].
  change (py_max x (y :: ys)) with (py_max (Z.max x y) ys).
  rewrite IH, (max_default_cons 0 x (y :: ys)) by done.
  destruct ys as [|z zs]; [done|].
  rewrite !(max_default_cons 0 _ (z :: zs)) by done. lia.
Qed.

Lemma next_id_allocate (arr : list A) :
  next_id arr key = allocate_id (existing_ids arr key).
Proof.
  unfold next_id, allocate_id, existing_ids.
  destruct (map _ arr) as [|v vs]; [done|].
  by rewrite py_max_max_default.
Qed.

Lemma next_id_gt_default (arr : list A) x :
  x ∈ arr → default 0 (key x) < next_id arr key.
Proof.
  intros Hx. unfold next_id.
  assert (Hin : default 0 (key x) ∈ map (λ y, default 0 (key y)) arr)
    by (apply list_elem_of_fmap; eauto).
  destruct (map _ arr) as [|v vs]; [by apply elem_of_nil in Hin|].
  apply elem_of_cons in Hin as [->|Hin].
  - pose proof (py_max_ge_init v vs). lia.
  - pose proof (py_max_ge_elem v vs _ Hin). lia.
Qed.

Lemma next_id_gt (arr : list A) x i :
  x ∈ arr → key x = Some i → i < next_id arr key.
Proof.
  intros Hx Hk. pose proof (next_id_gt_default arr x Hx) as H.
  by rewrite Hk in H.
Qed.

End next_id_facts.

(** C6. For every entity set, the identifier allocated by [next_id] is the
    maximum of the existing identifiers (a row without the identifier key
    counting as 0, and 0 being the default for an empty set) plus one; it is
    strictly greater than every identifier present in the set, and it is 1
    for the empty set. *)
Theorem next_id_fresh {A} (arr : list A) (key : A → option Z) :
  next_id arr key = allocate_id (existing_ids arr key)
  ∧ (∀ x i, x ∈ arr → key x = Some i → i < next_id arr key)
  ∧ (∀ x, x ∈ arr → key x = None → 0 < next_id arr key)
  ∧ (arr = [] → next_id arr key = 1).
Proof.
  split_and!.
  - apply next_id_allocate.
  - apply next_id_gt.
  - intros x Hx Hk. pose proof (next_id_gt_default key arr x Hx) as H.
    by rewrite Hk in H.
  - by intros ->.
Qed.

(** ** The exception monad and loops *)

Lemma bind_Ok {A B} (m : result A) (f : A → result B) (b : B) :
  m ≫= f = Ok b → ∃ a, m = Ok a ∧ f a = Ok b.
Proof. destruct m as [a|e]; [by exists a|discriminate]. Qed.

Lemma subscript_Ok {A} (key : string) (v : option A) (a : A) :
  subscript key v = Ok a ↔ v = Some a.
Proof. destruct v; simpl; split; congruence. Qed.

Tactic Notation "inv_bind" hyp(H) "as" simple_intropattern(x) ident(Hx) :=
  apply bind_Ok in H as (x & Hx & H).

Ltac inv_ok :=
  repeat match goal with
  | H : Ok _ = Ok _ |- _ => injection H as H; subst
  | H : mret _ = Ok _ |- _ => injection H as H; subst
  | H : Raise _ = Ok _ |- _ => discriminate H
  | H : subscript _ _ = Ok _ |- _ => apply subscript_Ok in H
  end.

(** A loop that copies the rows it does not drop, printing one line per
    dropped row, computes a filter. *)
Lemma for_each_keep_spec {X E}
    (body : list X → X → result (list X * list E)) (drop : X → Prop) :
  (∀ kept x kept' out, body kept x = Ok (kept', out) →
     (drop x ∧ kept' = kept ∧ length out = 1%nat)
     ∨ (¬ drop x ∧ kept' = kept ++ [x] ∧ out = [])) →
  ∀ xs kept kept' out, for_each body xs kept = Ok (kept', out) →
  ∃ ys, kept' = kept ++ ys
        ∧ sublist ys xs
        ∧ (∀ x, x ∈ ys ↔ x ∈ xs ∧ ¬ drop x)
        ∧ (length out + length ys = length xs)%nat.
Proof.
  intros Hbody xs. induction xs as [|x xs IH]; intros kept kept' out Hrun.
  - simpl in Hrun. inv_ok. exists []. rewrite app_nil_r.
    split_and!; [done|done| |done].
    intros y. rewrite elem_of_nil. tauto.
  - simpl in Hrun. inv_bind Hrun as [st1 out1] Hx.
    inv_bind Hrun as [st2 out2] Hxs. inv_ok.
    destruct (Hbody _ _ _ _ Hx) as [(Hd & -> & Hlen)|(Hd & -> & ->)];
      destruct (IH _ _ _ Hxs) as (ys & -> & Hsub & Hmem & Hcount).
    + exists ys. split_and!; [done|by apply sublist_cons| |].
      * intros y. rewrite Hmem, elem_of_cons. split; [tauto|].
        intros [[->|Hy] Hnd]; [done|tauto].
      * rewrite length_app. simpl. lia.
    + exists (x :: ys). rewrite <- app_assoc.
      split_and!; [done|by apply sublist_skip| |simpl; lia].
      intros y. rewrite !elem_of_cons, Hmem. split; [|tauto].
      intros [->|[Hy Hnd]]; tauto.
Qed.

(** A loop whose body never raises on the rows it visits returns. *)
Lemma for_each_total {S X E} (body : S → X → result (S * list E))
    (xs : list X) :
  (∀ st x, x ∈ xs → ∃ res, body st x = Ok res) →
  ∀ st, ∃ res, for_each body xs st = Ok res.
Proof.
  induction xs as [|x xs IH]; intros Hbody st; simpl; [by eexists|].
  destruct (Hbody st x) as [[st1 out1] ->]; [by apply elem_of_cons; left|].
  destruct (IH (λ st y Hy, Hbody st y (list_elem_of_further _ _ _ Hy)) st1)
    as [[st2 out2] Hrest].
  simpl. rewrite Hrest. by eexists.
Qed.

(** ** Removal *)

Section removal_facts.
Context (master : corpus) (d : diff).

Lemma or_empty_get f : or_empty (get f) = coalesce f.
Proof. by destruct f. Qed.

Lemma coalesce_same_text f g : coalesce f = coalesce g ↔ same_text f g.
Proof.
  unfold same_text, blank. split.
  - destruct f as [| |s], g as [| |t]; simpl; intros H; subst;
      first [by left | right; naive_solver].
  - intros [->|[Hf Hg]]; [done|].
    destruct Hf as [->|[->| ->]], Hg as [->|[->| ->]]; done.
Qed.

Lemma find_by_id_Some {A} name (key : A → option Z) rows id x :
  find_by_id name key rows id = Ok (Some x) → x ∈ rows ∧ key x = Some id.
Proof.
  induction rows as [|y rows IH]; simpl; intros H; [by inv_ok|].
  inv_bind H as yid Hy. inv_ok.
  destruct (decide (yid = id)) as [->|]; inv_ok.
  - split; [by apply elem_of_cons; left|done].
  - destruct (IH H) as [? ?]. split; [by apply elem_of_cons; right|done].
Qed.

Lemma find_by_id_total {A} name (key : A → option Z) rows id :
  (∀ x, x ∈ rows → is_Some (key x)) →
  ∃ res, find_by_id name key rows id = Ok res.
Proof.
  induction rows as [|y rows IH]; intros Hids; simpl; [by eexists|].
  destruct (Hids y) as [yid ->]; [by apply elem_of_cons; left|]. simpl.
  destruct (decide (yid = id)); [by eexists|].
  apply IH. intros x Hx. apply Hids. by apply elem_of_cons; right.
Qed.

Lemma remove_entry_spec kept e kept' out :
  remove_entry master d kept e = Ok (kept', out) →
  (drops_entry master d e ∧ kept' = kept ∧ length out = 1%nat)
  ∨ (¬ drops_entry master d e ∧ kept' = kept ++ [e] ∧ out = []).
Proof.
  unfold remove_entry, drops_entry. intros H.
  inv_bind H as recipe Hr. inv_bind H as ingredient Hi.
  destruct recipe as [r|], ingredient as [i|];
    try (right; inv_ok; split_and!; [|done|done];
         intros (r' & i' & Hr' & Hi' & _); congruence).
  destruct (existsb _ _) eqn:Hex; inv_ok.
  - left. split_and!; [|done|done]. by exists r, i.
  - right. split_and!; [|done|done]. intros (r' & i' & Hr' & Hi' & Hm).
    congruence.
Qed.

Lemma remove_alias_spec kept a kept' out :
  remove_alias master d kept a = Ok (kept', out) →
  (drops_alias master d a ∧ kept' = kept ∧ length out = 1%nat)
  ∨ (¬ drops_alias master d a ∧ kept' = kept ++ [a] ∧ out = []).
Proof.
  unfold remove_alias, drops_alias. intros H.
  inv_bind H as ingredient Hi. destruct ingredient as [i|].
  - destruct (existsb _ _) eqn:Hex; inv_ok.
    + left. split_and!; [|done|done]. by exists i.
    + right. split_and!; [|done|done]. intros (i' & Hi' & Hm). congruence.
  - right. inv_ok. split_and!; [|done|done].
    intros (i' & Hi' & _). congruence.
Qed.

Lemma ingredient_should_remove_true in_use ing named :
  ingredient_should_remove in_use ing named = Ok true →
  ∃ id, ingredient_id ing = Some id ∧ (id ∉ in_use)
        ∧ (∃ di, di ∈ named ∧ i_slug ing = i_slug di).
Proof.
  induction named as [|di named IH]; simpl; intros H; [by inv_ok|].
  assert (Hrec : ingredient_should_remove in_use ing named = Ok true →
    ∃ id, ingredient_id ing = Some id ∧ (id ∉ in_use)
          ∧ (∃ di', di' ∈ di :: named ∧ i_slug ing = i_slug di')).
  { intros H'. destruct (IH H') as (id & ? & ? & di' & ? & ?). exists id.
    split_and!; [done|done|]. exists di'.
    split; [by apply elem_of_cons; right|done]. }
  destruct (decide (i_slug ing = i_slug di)) as [Hs|Hs]; [|by apply Hrec].
  inv_bind H as id Hid. inv_ok.
  destruct (decide (id ∉ in_use)) as [Hn|Hn]; [|by apply Hrec].
  exists id. split_and!; [done|done|].
  exists di. split; [by apply elem_of_cons; left|done].
Qed.

Lemma recipe_should_remove_true in_use r named :
  recipe_should_remove in_use r named = Ok true →
  ∃ id, recipe_id r = Some id ∧ (id ∉ in_use)
        ∧ (∃ dr, dr ∈ named ∧ r_slug r = r_slug dr).
Proof.
  induction named as [|dr named IH]; simpl; intros H; [by inv_ok|].
  assert (Hrec : recipe_should_remove in_use r named = Ok true →
    ∃ id, recipe_id r = Some id ∧ (id ∉ in_use)
          ∧ (∃ dr', dr' ∈ dr :: named ∧ r_slug r = r_slug dr')).
  { intros H'. destruct (IH H') as (id & ? & ? & dr' & ? & ?). exists id.
    split_and!; [done|done|]. exists dr'.
    split; [by apply elem_of_cons; right|done]. }
  destruct (decide (r_slug r = r_slug dr)) as [Hs|Hs]; [|by apply Hrec].
  inv_bind H as id Hid. inv_ok.
  destruct (decide (id ∉ in_use)) as [Hn|Hn]; [|by apply Hrec].
  exists id. split_and!; [done|done|].
  exists dr. split; [by apply elem_of_cons; left|done].
Qed.

Lemma ingredient_should_remove_total in_use ing named :
  is_Some (ingredient_id ing) →
  ∃ b, ingredient_should_remove in_use ing named = Ok b.
Proof.
  intros [id Hid]. induction named as [|di named IH]; simpl; [by eexists|].
  destruct (decide _); [|done]. rewrite Hid. simpl.
  destruct (decide _); [by eexists|done].
Qed.

Lemma recipe_should_remove_total in_use r named :
  is_Some (recipe_id r) →
  ∃ b, recipe_should_remove in_use r named = Ok b.
Proof.
  intros [id Hid]. induction named as [|dr named IH]; simpl; [by eexists|].
  destruct (decide _); [|done]. rewrite Hid. simpl.
  destruct (decide _); [by eexists|done].
Qed.

Lemma remove_ingredient_spec in_use kept ing kept' out :
  remove_ingredient in_use d kept ing = Ok (kept', out) →
  (ingredient_should_remove in_use ing (d_ingredients d) = Ok true
   ∧ kept' = kept ∧ length out = 1%nat)
  ∨ (¬ ingredient_should_remove in_use ing (d_ingredients d) = Ok true
     ∧ kept' = kept ++ [ing] ∧ out = []).
Proof.
  unfold remove_ingredient. intros H. inv_bind H as b Hb.
  destruct b; inv_ok; [by left|right]. by rewrite Hb.
Qed.

Lemma remove_recipe_spec in_use kept r kept' out :
  remove_recipe in_use d kept r = Ok (kept', out) →
  (recipe_should_remove in_use r (d_recipes d) = Ok true
   ∧ kept' = kept ∧ length out = 1%nat)
  ∨ (¬ recipe_should_remove in_use r (d_recipes d) = Ok true
     ∧ kept' = kept ++ [r] ∧ out = []).
Proof.
  unfold remove_recipe. intros H. inv_bind H as b Hb.
  destruct b; inv_ok; [by left|right]. by rewrite Hb.
Qed.

End removal_facts.

(** The four loops of the removal pass, in the order in which they run. *)
Lemma remove_diff_inv master d master' out :
  remove_diff master d = Ok (master', out) →
  ∃ out_e out_a out_i out_r,
    for_each (remove_entry master d) (entries master) []
      = Ok (entries master', out_e)
    ∧ for_each (remove_alias master d) (aliases master) []
        = Ok (aliases master', out_a)
    ∧ for_each
        (remove_ingredient
           (ingredient_ids_in_use (entries master') (aliases master')) d)
        (ingredients master) [] = Ok (ingredients master', out_i)
    ∧ for_each (remove_recipe (recipe_ids_in_use (entries master')) d)
        (recipes master) [] = Ok (recipes master', out_r)
    ∧ out = out_e ++ out_a ++ out_i ++ out_r.
Proof.
  unfold remove_diff. intros H.
  inv_bind H as [es out_e] He. inv_bind H as [als out_a] Ha.
  inv_bind H as [ings out_i] Hi. inv_bind H as [rs out_r] Hr.
  inv_ok. simpl. by exists out_e, out_a, out_i, out_r.
Qed.

(** What survives a removal pass. *)
Lemma remove_diff_spec master d master' out :
  remove_diff master d = Ok (master', out) →
  let ing_in_use :=
    ingredient_ids_in_use (entries master') (aliases master') in
  let rec_in_use := recipe_ids_in_use (entries master') in
  (sublist (entries master') (entries master)
   ∧ ∀ e, e ∈ entries master' ↔
          e ∈ entries master ∧ ¬ drops_entry master d e)
  ∧ (sublist (aliases master') (aliases master)
     ∧ ∀ a, a ∈ aliases master' ↔
            a ∈ aliases master ∧ ¬ drops_alias master d a)
  ∧ (sublist (ingredients master') (ingredients master)
     ∧ ∀ i, i ∈ ingredients master' ↔
            i ∈ ingredients master
            ∧ ¬ (ingredient_should_remove ing_in_use i (d_ingredients d)
                 = Ok true))
  ∧ (sublist (recipes master') (recipes master)
     ∧ ∀ r, r ∈ recipes master' ↔
            r ∈ recipes master
            ∧ ¬ (recipe_should_remove rec_in_use r (d_recipes d) = Ok true))
  ∧ (length out
     + (length (entries master') + length (aliases master')
        + length (ingredients master') + length (recipes master'))
     = length (entries master) + length (aliases master)
       + length (ingredients master) + length (recipes master))%nat.
Proof.
  intros H. apply remove_diff_inv in H
    as (out_e & out_a & out_i & out_r & He & Ha & Hi & Hr & ->).
  apply (for_each_keep_spec _ _ (remove_entry_spec master d)) in He
    as (es & Ees & Hes & Hme & Hce).
  apply (for_each_keep_spec _ _ (remove_alias_spec master d)) in Ha
    as (als & Eals & Hals & Hma & Hca).
  apply (for_each_keep_spec _ _ (remove_ingredient_spec d _)) in Hi
    as (ings & Eis & His & Hmi & Hci).
  apply (for_each_keep_spec _ _ (remove_recipe_spec d _)) in Hr
    as (rs & Ers & Hrs & Hmr & Hcr).
  simpl in Ees, Eals, Eis, Ers. subst es als ings rs.
  split_and!; try done.
  rewrite !length_app. lia.
Qed.

Lemma elem_of_ingredient_ids_in_use id es als :
  id ∈ ingredient_ids_in_use es als ↔
  (∃ e, e ∈ es ∧ e_ingredient_id e = id)
  ∨ (∃ a, a ∈ als ∧ a_ingredient_id a = id).
Proof.
  unfold ingredient_ids_in_use.
  rewrite elem_of_union, !elem_of_list_to_set, !list_elem_of_fmap.
  split; (intros [(x & ? & ?)|(x & ? & ?)]; [left|right]; by exists x).
Qed.

Lemma elem_of_recipe_ids_in_use id es :
  id ∈ recipe_ids_in_use es ↔ ∃ e, e ∈ es ∧ e_recipe_id e = id.
Proof.
  unfold recipe_ids_in_use.
  rewrite elem_of_list_to_set, list_elem_of_fmap.
  split; intros (x & ? & ?); by exists x.
Qed.

(** A row whose identifier is in use is kept by steps 3 and 4. *)
Lemma ingredient_in_use_kept master d master' out i id :
  remove_diff master d = Ok (master', out) →
  i ∈ ingredients master → ingredient_id i = Some id →
  id ∈ ingredient_ids_in_use (entries master') (aliases master') →
  i ∈ ingredients master'.
Proof.
  intros H Hi Hid Huse.
  destruct (remove_diff_spec _ _ _ _ H) as (_ & _ & [_ Hmem] & _).
  apply Hmem. split; [done|]. intros Hrm.
  apply ingredient_should_remove_true in Hrm as (id' & Hid' & Hn & _).
  congruence.
Qed.

Lemma recipe_in_use_kept master d master' out r id :
  remove_diff master d = Ok (master', out) →
  r ∈ recipes master → recipe_id r = Some id →
  id ∈ recipe_ids_in_use (entries master') →
  r ∈ recipes master'.
Proof.
  intros H Hr Hid Huse.
  destruct (remove_diff_spec _ _ _ _ H) as (_ & _ & _ & [_ Hmem] & _).
  apply Hmem. split; [done|]. intros Hrm.
  apply recipe_should_remove_true in Hrm as (id' & Hid' & Hn & _).
  congruence.
Qed.

(** The removal pass returns on a corpus whose rows carry their ids. *)
Lemma remove_diff_total master d :
  ids_present master → ∃ res, remove_diff master d = Ok res.
Proof.
  intros [Hr Hi]. unfold remove_diff.
  destruct (for_each_total (remove_entry master d) (entries master))
    with (st := @nil entry) as [[es out_e] ->].
  { intros kept e _. unfold remove_entry.
    destruct (find_by_id_total "recipe_id" recipe_id (recipes master)
                (e_recipe_id e) Hr) as [r ->].
    destruct (find_by_id_total "ingredient_id" ingredient_id
                (ingredients master) (e_ingredient_id e) Hi) as [i ->].
    simpl. destruct r, i; try by eexists.
    destruct (existsb _ _); by eexists. }
  destruct (for_each_total (remove_alias master d) (aliases master))
    with (st := @nil alias) as [[als out_a] ->].
  { intros kept a _. unfold remove_alias.
    destruct (find_by_id_total "ingredient_id" ingredient_id
                (ingredients master) (a_ingredient_id a) Hi) as [i ->].
    simpl. destruct i; try by eexists.
    destruct (existsb _ _); by eexists. }
  simpl.
  destruct (for_each_total
              (remove_ingredient (ingredient_ids_in_use es als) d)
              (ingredients master))
    with (st := @nil ingredient) as [[ings out_i] ->].
  { intros kept i Hin. unfold remove_ingredient.
    destruct (ingredient_should_remove_total
                (ingredient_ids_in_use es als) i (d_ingredients d)
                (Hi i Hin)) as [b ->].
    simpl. destruct b; by eexists. }
  simpl.
  destruct (for_each_total (remove_recipe (recipe_ids_in_use es) d)
              (recipes master))
    with (st := @nil recipe) as [[rs out_r] ->].
  { intros kept r Hin. unfold remove_recipe.
    destruct (recipe_should_remove_total (recipe_ids_in_use es) r
                (d_recipes d) (Hr r Hin)) as [b ->].
    simpl. destruct b; by eexists. }
  simpl. by eexists.
Qed.

(** C2. After a removal pass that completes, every recipe row referenced by
    a surviving entry and every ingredient row referenced by a surviving
    entry or a surviving alias is still in the corpus: a reference of a
    surviving entry that resolved before the pass still resolves. *)
Theorem remove_diff_integrity master d master' out :
  remove_diff master d = Ok (master', out) →
  (∀ e r, e ∈ entries master' → r ∈ recipes master →
          recipe_id r = Some (e_recipe_id e) → r ∈ recipes master')
  ∧ (∀ e i, e ∈ entries master' → i ∈ ingredients master →
            ingredient_id i = Some (e_ingredient_id e) →
            i ∈ ingredients master')
  ∧ (∀ a i, a ∈ aliases master' → i ∈ ingredients master →
            ingredient_id i = Some (a_ingredient_id a) →
            i ∈ ingredients master')
  ∧ sublist (entries master') (entries master)
  ∧ sublist (aliases master') (aliases master).
Proof.
  intros H. split_and!.
  - intros e r He Hr Hid. eapply recipe_in_use_kept; [done..|].
    apply elem_of_recipe_ids_in_use. by exists e.
  - intros e i He Hi Hid. eapply ingredient_in_use_kept; [done..|].
    apply elem_of_ingredient_ids_in_use. left. by exists e.
  - intros a i Ha Hi Hid. eapply ingredient_in_use_kept; [done..|].
    apply elem_of_ingredient_ids_in_use. right. by exists a.
  - by destruct (remove_diff_spec _ _ _ _ H) as ([? _] & _).
  - by destruct (remove_diff_spec _ _ _ _ H) as (_ & [? _] & _).
Qed.

(** C3. On a corpus whose rows carry their identifiers the removal pass
    returns without raising, and an ingredient whose identifier is referenced
    by an entry or alias that survived steps 1 and 2 (a recipe whose
    identifier is referenced by a surviving entry) is left in place, whether
    or not the diff names it; the rows that remain are rows of the original
    corpus in their original order, and the report has exactly one line per
    deleted row, so nothing is reported for a row that is kept. *)
Theorem remove_diff_in_use_no_op master d :
  ids_present master →
  ∃ master' out,
    remove_diff master d = Ok (master', out)
    ∧ (∀ i id, i ∈ ingredients master → ingredient_id i = Some id →
         (∃ e, e ∈ entries master' ∧ e_ingredient_id e = id)
         ∨ (∃ a, a ∈ aliases master' ∧ a_ingredient_id a = id) →
         i ∈ ingredients master')
    ∧ (∀ r id, r ∈ recipes master → recipe_id r = Some id →
         (∃ e, e ∈ entries master' ∧ e_recipe_id e = id) →
         r ∈ recipes master')
    ∧ sublist (ingredients master') (ingredients master)
    ∧ sublist (recipes master') (recipes master)
    ∧ (length out
       + (length (entries master') + length (aliases master')
          + length (ingredients master') + length (recipes master'))
       = length (entries master) + length (aliases master)
         + length (ingredients master) + length (recipes master))%nat.
Proof.
  intros Hids. destruct (remove_diff_total master d Hids) as [[m' out] H].
  exists m', out. split; [done|].
  destruct (remove_diff_spec _ _ _ _ H) as (_ & _ & [Hsi _] & [Hsr _] & Hn).
  split_and!; [| |done..].
  - intros i id Hi Hid Huse. eapply ingredient_in_use_kept; [done..|].
    by apply elem_of_ingredient_ids_in_use.
  - intros r id Hr Hid Huse. eapply recipe_in_use_kept; [done..|].
    by apply elem_of_recipe_ids_in_use.
Qed.

Lemma sample_removal_runs :
  remove_diff sample_corpus sample_removal
  = Ok (sample_after_removal, [RemovedEntry "kyphi-28" "honey"]).
Proof. vm_compute. reflexivity. Qed.

Lemma sample_corpus_ids_present : ids_present sample_corpus.
Proof.
  split; intros x Hx; apply list_elem_of_singleton in Hx; subst; by eexists.
Qed.

Lemma remove_diff_integrity_witness :
  Recipe (Some 1) "kyphi-28" "Kyphi of 28 ingredients" []
  ∈ recipes sample_after_removal.
Proof.
  eapply (proj1 (remove_diff_integrity sample_corpus sample_removal
                   sample_after_removal _ sample_removal_runs)).
  - apply list_elem_of_singleton. reflexivity.
  - apply list_elem_of_singleton. reflexivity.
  - reflexivity.
Defined.

Lemma remove_diff_in_use_no_op_witness :
  ∃ master' out,
    remove_diff sample_corpus sample_removal = Ok (master', out)
    ∧ sublist (ingredients master') (ingredients sample_corpus).
Proof.
  destruct (remove_diff_in_use_no_op sample_corpus sample_removal
              sample_corpus_ids_present)
    as (master' & out & Hrun & _ & _ & Hsub & _).
  by exists master', out.
Defined.

Lemma coalesce_empty f :
  coalesce f = ""%string ↔ f = Absent ∨ f = Null ∨ f = Text "".
Proof.
  destruct f as [| |s]; simpl.
  - split; [by left|done].
  - split; [by right; left|done].
  - split; [by intros ->; right; right|].
    intros [?|[?|?]]; congruence.
Qed.

Lemma existsb_entry_matches r i e des :
  existsb (entry_matches r i e) des = true ↔
  ∃ de, de ∈ des
        ∧ r_slug r = de_recipe_slug de
        ∧ i_slug i = de_ingredient_slug de
        ∧ same_text (amount_raw e) (de_amount_raw de)
        ∧ same_text (preparation e) (de_preparation de).
Proof.
  rewrite existsb_exists. unfold entry_matches.
  split; intros (de & Hin & H); exists de.
  - apply list_elem_of_In in Hin. split; [done|].
    rewrite !andb_true_iff, !bool_decide_eq_true, !or_empty_get in H.
    rewrite <- !coalesce_same_text. tauto.
  - apply list_elem_of_In in Hin. split; [done|].
    rewrite !andb_true_iff, !bool_decide_eq_true, !or_empty_get.
    rewrite <- !coalesce_same_text in H. tauto.
Qed.

(** C9. In the removal pass a stored entry whose recipe and ingredient
    resolve is deleted exactly when some diff entry has the same recipe slug
    and the same ingredient slug, compared strictly, and an [amount_raw] and a
    [preparation] that agree once a missing key, [null] and the empty string
    are identified with each other (and nothing else is identified). *)
Theorem remove_diff_entry_matching master d master' out e r i :
  remove_diff master d = Ok (master', out) →
  e ∈ entries master →
  find_by_id "recipe_id" recipe_id (recipes master) (e_recipe_id e)
    = Ok (Some r) →
  find_by_id "ingredient_id" ingredient_id (ingredients master)
    (e_ingredient_id e) = Ok (Some i) →
  (e ∉ entries master' ↔
     ∃ de, de ∈ d_entries d
           ∧ r_slug r = de_recipe_slug de
           ∧ i_slug i = de_ingredient_slug de
           ∧ same_text (amount_raw e) (de_amount_raw de)
           ∧ same_text (preparation e) (de_preparation de))
  ∧ (∀ f g, same_text f g ↔ coalesce f = coalesce g)
  ∧ (∀ f, same_text f Null ↔ f = Absent ∨ f = Null ∨ f = Text "")
  ∧ (∀ f, same_text f Absent ↔ f = Absent ∨ f = Null ∨ f = Text "").
Proof.
  intros H He Hr Hi. split_and!.
  - destruct (remove_diff_spec _ _ _ _ H) as ([_ Hmem] & _).
    rewrite <- existsb_entry_matches, Hmem. unfold drops_entry. split.
    + intros Hn. destruct (existsb _ _) eqn:Hex; [done|].
      exfalso. apply Hn. split; [done|].
      intros (r' & i' & Hr' & Hi' & Hm). congruence.
    + intros Hex [_ Hn]. apply Hn. by exists r, i.
  - intros f g. by rewrite coalesce_same_text.
  - intros f. rewrite <- coalesce_same_text. apply coalesce_empty.
  - intros f. rewrite <- coalesce_same_text. apply coalesce_empty.
Qed.

Lemma remove_diff_entry_matching_witness :
  ∃ de, de ∈ d_entries sample_removal
        ∧ "kyphi-28"%string = de_recipe_slug de
        ∧ "honey"%string = de_ingredient_slug de
        ∧ same_text (Text "2 hin") (de_amount_raw de)
        ∧ same_text Null (de_preparation de).
Proof.
  assert (Hrun := sample_removal_runs).
  assert (Hin : Entry (Some 1) 1 1 (Text "2 hin") JNull Null Null Null Null
                  Null (Text "2025-09-02T10:00:00") (Text "gpt")
                ∈ entries sample_corpus) by (apply elem_of_cons; by left).
  assert (Hr : find_by_id "recipe_id" recipe_id (recipes sample_corpus) 1
               = Ok (Some (Recipe (Some 1) "kyphi-28"
                             "Kyphi of 28 ingredients" [])))
    by (vm_compute; reflexivity).
  assert (Hi : find_by_id "ingredient_id" ingredient_id
                 (ingredients sample_corpus) 1
               = Ok (Some (Ingredient (Some 1) "honey" "Honey" (Text "en")
                             [])))
    by (vm_compute; reflexivity).
  apply (proj1 (proj1 (remove_diff_entry_matching _ _ _ _ _ _ _
                         Hrun Hin Hr Hi))).
  intros Hmem. apply list_elem_of_singleton in Hmem. discriminate Hmem.
Defined.

(** ** Merge *)

Lemma for_each_app {S X E} (body : S → X → result (S * list E)) xs ys st :
  for_each body (xs ++ ys) st
  = '(st1, out1) ← for_each body xs st;
    '(st2, out2) ← for_each body ys st1;
    Ok (st2, out1 ++ out2).
Proof.
  revert st. induction xs as [|x xs IH]; intros st; simpl.
  - destruct (for_each body ys st) as [[st2 out2]|]; done.
  - destruct (body st x) as [[st1 out1]|]; simpl; [|done].
    rewrite IH. destruct (for_each body xs st1) as [[st2 out2]|]; simpl;
      [|done].
    destruct (for_each body ys st2) as [[st3 out3]|]; simpl; [|done].
    by rewrite app_assoc.
Qed.

(** An invariant of the loop state, and a property that each visited item
    establishes and later iterations preserve. *)
Lemma for_each_inv {S X E} (body : S → X → result (S * list E))
    (Inv : S → Prop) (Post : X → S → Prop) :
  (∀ st x st' out, Inv st → body st x = Ok (st', out) →
     Inv st' ∧ Post x st' ∧ ∀ y, Post y st → Post y st') →
  ∀ xs st st' out, Inv st → for_each body xs st = Ok (st', out) →
    Inv st' ∧ (∀ x, x ∈ xs → Post x st') ∧ ∀ y, Post y st → Post y st'.
Proof.
  intros Hstep xs. induction xs as [|x xs IH]; intros st st' out HI Hrun.
  - simpl in Hrun. inv_ok. split_and!; [done| |done].
    intros x Hx. by apply elem_of_nil in Hx.
  - simpl in Hrun. inv_bind Hrun as [st1 out1] Hx.
    inv_bind Hrun as [st2 out2] Hxs. inv_ok.
    destruct (Hstep _ _ _ _ HI Hx) as (HI1 & HP1 & Hmono1).
    destruct (IH _ _ _ HI1 Hxs) as (HI2 & HP2 & Hmono2).
    split_and!; [done| |by auto].
    intros y Hy. apply elem_of_cons in Hy as [->|Hy]; auto.
Qed.

Section slug_index.
Context {R : Type} (slug : R → string).

Lemma foldl_insert_lookup (acc : gmap string R) arr s r :
  foldl (λ m x, <[slug x := x]> m) acc arr !! s = Some r →
  (r ∈ arr ∧ slug r = s) ∨ acc !! s = Some r.
Proof.
  revert acc. induction arr as [|x arr IH]; intros acc H; simpl in H.
  - by right.
  - apply IH in H as [[Hin Hs]|H].
    + left. split; [by apply elem_of_cons; right|done].
    + destruct (decide (slug x = s)) as [Hxs|Hxs].
      * rewrite <- Hxs, lookup_insert_eq in H. injection H as <-.
        left. split; [by apply elem_of_cons; left|done].
      * rewrite lookup_insert_ne in H by done. by right.
Qed.

Lemma foldl_insert_dom (acc : gmap string R) arr s :
  is_Some (foldl (λ m x, <[slug x := x]> m) acc arr !! s) ↔
  s ∈ map slug arr ∨ is_Some (acc !! s).
Proof.
  revert acc. induction arr as [|x arr IH]; intros acc; simpl.
  - rewrite elem_of_nil. tauto.
  - rewrite IH, elem_of_cons.
    destruct (decide (slug x = s)) as [Hxs|Hxs].
    + rewrite <- Hxs, lookup_insert_eq. split; [|by intros; right].
      intros _. left. by left.
    + rewrite lookup_insert_ne by done. split; [tauto|].
      intros [[Heq|Hin]|Hacc]; [congruence|tauto|tauto].
Qed.

Lemma idx_by_lookup arr s r :
  idx_by slug arr !! s = Some r → r ∈ arr ∧ slug r = s.
Proof.
  intros H. apply foldl_insert_lookup in H as [H|H]; [done|].
  by rewrite lookup_empty in H.
Qed.

Lemma idx_by_dom arr s : is_Some (idx_by slug arr !! s) ↔ s ∈ map slug arr.
Proof.
  unfold idx_by. rewrite foldl_insert_dom, lookup_empty.
  split; [|by left]. intros [H|[x Hx]]; [done|discriminate].
Qed.

(** Steps 1 and 2 of a merge: a loop that appends an item with an unseen
    slug and indexes it, and leaves the state alone otherwise, returns with an
    index of the slugs of the corpus and of the diff. *)
Lemma slug_loop_spec (id : R → option Z)
    (body : list R * gmap string R → R
            → result (list R * gmap string R * list merge_event)) :
  (∀ rows m x, index_ok slug id rows m →
     ∃ st' out, body (rows, m) x = Ok (st', out)
       ∧ ((m !! slug x = None
           ∧ ∃ new, st' = (rows ++ [new], <[slug x := new]> m)
                    ∧ slug new = slug x ∧ is_Some (id new))
          ∨ (is_Some (m !! slug x) ∧ st' = (rows, m)))) →
  ∀ xs rows m, index_ok slug id rows m →
    ∃ rows' m' out,
      for_each body xs (rows, m) = Ok (rows', m', out)
      ∧ index_ok slug id rows' m'
      ∧ (∀ s, is_Some (m' !! s) ↔ is_Some (m !! s) ∨ s ∈ map slug xs).
Proof.
  intros Hbody xs. induction xs as [|x xs IH]; intros rows m Hok; simpl.
  - exists rows, m, []. split_and!; [done|done|].
    intros s. rewrite elem_of_nil. tauto.
  - destruct (Hbody rows m x Hok) as ([rows1 m1] & out1 & -> & Hcase).
    simpl.
    assert (Hok1 : index_ok slug id rows1 m1).
    { destruct Hok as [Hids Hidx].
      destruct Hcase as [(Hnone & new & [= -> ->] & Hslug & Hid)|[_ [= -> ->]]];
        [|done].
      split.
      - intros r Hr. apply elem_of_app in Hr as [Hr|Hr]; [by apply Hids|].
        apply list_elem_of_singleton in Hr. by subst.
      - intros s r Hs. destruct (decide (slug x = s)) as [Hxs|Hxs].
        + rewrite <- Hxs, lookup_insert_eq in Hs. injection Hs as <-.
          split; [|congruence].
          apply elem_of_app. right. by apply list_elem_of_singleton.
        + rewrite lookup_insert_ne in Hs by done.
          destruct (Hidx s r Hs) as [? ?].
          split; [|done]. apply elem_of_app. by left. }
    destruct (IH rows1 m1 Hok1) as (rows' & m' & out & -> & Hok' & Hdom).
    simpl. exists rows', m', (out1 ++ out). split_and!; [done|done|].
    intros s. rewrite Hdom, elem_of_cons.
    destruct Hcase as [(Hnone & new & [= -> ->] & Hslug & Hid)|[Hsome [= -> ->]]].
    + destruct (decide (slug x = s)) as [Hxs|Hxs].
      * rewrite <- Hxs, lookup_insert_eq. split; [|by intros; left].
        intros _. right. by left.
      * rewrite lookup_insert_ne by done. split; [tauto|].
        intros [?|[?|?]]; [tauto|congruence|tauto].
    + split; [tauto|]. intros [?|[->|?]]; tauto.
Qed.

End slug_index.

Lemma merge_recipe_step rows m x :
  index_ok r_slug recipe_id rows m →
  ∃ st' out, merge_recipe (rows, m) x = Ok (st', out)
    ∧ ((m !! r_slug x = None
        ∧ ∃ new, st' = (rows ++ [new], <[r_slug x := new]> m)
                 ∧ r_slug new = r_slug x ∧ is_Some (recipe_id new))
       ∨ (is_Some (m !! r_slug x) ∧ st' = (rows, m))).
Proof.
  intros [Hids Hidx]. unfold merge_recipe.
  destruct (m !! r_slug x) as [existing|] eqn:Hlook.
  - destruct (Hidx _ _ Hlook) as [Hin _].
    destruct (Hids _ Hin) as [id ->]. simpl.
    eexists _, _. split; [done|]. right. by split.
  - eexists _, _. split; [done|]. left. split; [done|].
    exists (with_recipe_id (next_id rows recipe_id) x).
    unfold with_recipe_id. destruct (recipe_id x) eqn:Hx; simpl.
    + split_and!; [done|done|]. by rewrite Hx.
    + split_and!; [done|done|]. by eexists.
Qed.

Lemma merge_ingredient_step rows m x :
  index_ok i_slug ingredient_id rows m →
  ∃ st' out, merge_ingredient (rows, m) x = Ok (st', out)
    ∧ ((m !! i_slug x = None
        ∧ ∃ new, st' = (rows ++ [new], <[i_slug x := new]> m)
                 ∧ i_slug new = i_slug x ∧ is_Some (ingredient_id new))
       ∨ (is_Some (m !! i_slug x) ∧ st' = (rows, m))).
Proof.
  intros [Hids Hidx]. unfold merge_ingredient.
  destruct (m !! i_slug x) as [existing|] eqn:Hlook.
  - destruct (Hidx _ _ Hlook) as [Hin _].
    destruct (Hids _ Hin) as [id ->]. simpl.
    eexists _, _. split; [done|]. right. by split.
  - eexists _, _. split; [done|]. left. split; [done|].
    exists (with_ingredient_id (next_id rows ingredient_id) x).
    unfold with_ingredient_id. destruct (ingredient_id x) eqn:Hx; simpl.
    + split_and!; [done|done|]. by rewrite Hx.
    + split_and!; [done|done|]. by eexists.
Qed.

Lemma index_ok_idx_by {R} (slug : R → string) (id : R → option Z) rows :
  (∀ r, r ∈ rows → is_Some (id r)) →
  index_ok slug id rows (idx_by slug rows).
Proof. intros Hids. split; [done|]. apply idx_by_lookup. Qed.

(** Steps 1 and 2 return, and index exactly the known slugs. *)
Lemma merge_recipes_spec master d :
  ids_present master →
  ∃ rows rbs out,
    for_each merge_recipe (d_recipes d)
      (recipes master, idx_by r_slug (recipes master)) = Ok (rows, rbs, out)
    ∧ index_ok r_slug recipe_id rows rbs
    ∧ (∀ s, is_Some (rbs !! s) ↔ known_recipe_slug master d s).
Proof.
  intros [Hr _].
  destruct (slug_loop_spec r_slug recipe_id merge_recipe merge_recipe_step
              (d_recipes d) _ _ (index_ok_idx_by r_slug recipe_id _ Hr))
    as (rows & rbs & out & Hrun & Hok & Hdom).
  exists rows, rbs, out. split_and!; [done|done|].
  intros s. rewrite Hdom, idx_by_dom. done.
Qed.

Lemma merge_ingredients_spec master d :
  ids_present master →
  ∃ rows ibs out,
    for_each merge_ingredient (d_ingredients d)
      (ingredients master, idx_by i_slug (ingredients master))
      = Ok (rows, ibs, out)
    ∧ index_ok i_slug ingredient_id rows ibs
    ∧ (∀ s, is_Some (ibs !! s) ↔ known_ingredient_slug master d s).
Proof.
  intros [_ Hi].
  destruct (slug_loop_spec i_slug ingredient_id merge_ingredient
              merge_ingredient_step (d_ingredients d) _ _
              (index_ok_idx_by i_slug ingredient_id _ Hi))
    as (rows & ibs & out & Hrun & Hok & Hdom).
  exists rows, ibs, out. split_and!; [done|done|].
  intros s. rewrite Hdom, idx_by_dom. done.
Qed.

Lemma index_ok_lookup {R} (slug : R → string) (id : R → option Z) rows m s r :
  index_ok slug id rows m → m !! s = Some r →
  r ∈ rows ∧ slug r = s ∧ is_Some (id r).
Proof.
  intros [Hids Hidx] Hs. destruct (Hidx _ _ Hs) as [Hin Hslug].
  split_and!; [done|done|by apply Hids].
Qed.

(** Step 3 returns. *)
Lemma merge_aliases_total rows ibs xs st :
  index_ok i_slug ingredient_id rows ibs →
  ∃ res, for_each (merge_alias ibs) xs st = Ok res.
Proof.
  intros Hok. apply for_each_total. intros [als seen] a _.
  unfold merge_alias. destruct (ibs !! da_ingredient_slug a) as [ing|] eqn:Hl;
    [|by eexists].
  destruct (index_ok_lookup _ _ _ _ _ _ Hok Hl) as (_ & _ & [iid ->]). simpl.
  destruct (decide _); by eexists.
Qed.

Section merge_entries.
Context (utcnow : nat → string) (rbs : gmap string recipe)
  (ibs : gmap string ingredient) (by_whom : string)
  (rows_r : list recipe) (rows_i : list ingredient).
Hypothesis rbs_ok : index_ok r_slug recipe_id rows_r rbs.
Hypothesis ibs_ok : index_ok i_slug ingredient_id rows_i ibs.

(** Step 4 returns. *)
Lemma merge_entry_total st e :
  ∃ res, merge_entry utcnow rbs ibs by_whom st e = Ok res.
Proof.
  destruct st as [[rows seen] calls]. unfold merge_entry.
  destruct (rbs !! de_recipe_slug e) as [r|] eqn:Hr; [|by eexists].
  destruct (ibs !! de_ingredient_slug e) as [i|] eqn:Hi; [|by eexists].
  destruct (index_ok_lookup _ _ _ _ _ _ rbs_ok Hr) as (_ & _ & [rid ->]).
  destruct (index_ok_lookup _ _ _ _ _ _ ibs_ok Hi) as (_ & _ & [iid ->]).
  simpl. destruct (decide _); by eexists.
Qed.

Lemma merge_entries_total xs st :
  ∃ res, for_each (merge_entry utcnow rbs ibs by_whom) xs st = Ok res.
Proof. apply for_each_total. intros st' e _. apply merge_entry_total. Qed.

(** An entry whose recipe or ingredient slug is not indexed changes nothing
    and is reported. *)
Lemma merge_entry_unresolved st e :
  rbs !! de_recipe_slug e = None ∨ ibs !! de_ingredient_slug e = None →
  ∃ ev, merge_entry utcnow rbs ibs by_whom st e = Ok (st, [ev])
        ∧ ((rbs !! de_recipe_slug e = None
            ∧ ev = UnknownEntryRecipe (de_recipe_slug e))
           ∨ (is_Some (rbs !! de_recipe_slug e)
              ∧ ibs !! de_ingredient_slug e = None
              ∧ ev = UnknownEntryIngredient (de_ingredient_slug e))).
Proof.
  intros H. destruct st as [[rows seen] calls]. unfold merge_entry.
  destruct (rbs !! de_recipe_slug e) as [r|] eqn:Hr.
  - destruct H as [H|H]; [done|]. rewrite H.
    eexists. split; [done|]. right. by split_and!.
  - eexists. split; [done|]. left. by split.
Qed.

Lemma or_empty_get_or_empty f : or_empty (get_or_empty f) = coalesce f.
Proof. by destruct f. Qed.

Lemma or_empty_get_or_empty_stored f :
  or_empty (get_or_empty (stored (get f))) = coalesce f.
Proof. by destruct f. Qed.

Lemma merge_entry_stored st e st' out :
  seen_stored st →
  merge_entry utcnow rbs ibs by_whom st e = Ok (st', out) →
  seen_stored st' ∧ entry_stored rbs ibs e st'
  ∧ ∀ y, entry_stored rbs ibs y st → entry_stored rbs ibs y st'.
Proof.
  destruct st as [[rows seen] calls]. intros Hseen H.
  unfold merge_entry in H.
  destruct (rbs !! de_recipe_slug e) as [r|] eqn:Hr.
  2: { inv_ok. split_and!; [done| |done].
       intros r i rid iid Hr' _ _ _. congruence. }
  destruct (ibs !! de_ingredient_slug e) as [i|] eqn:Hi.
  2: { inv_ok. split_and!; [done| |done].
       intros r' i' rid iid _ Hi' _ _. congruence. }
  inv_bind H as rid Hrid. inv_bind H as iid Hiid. inv_ok.
  destruct (decide _) as [Hin|Hnin]; inv_ok.
  - split_and!; [done| |done].
    intros r' i' rid' iid' Hr' Hi' Hrid' Hiid'.
    assert (rid' = rid) as -> by congruence.
    assert (iid' = iid) as -> by congruence.
    destruct (Hseen _ Hin) as (row & Hrow & Hkey). exists row.
    split; [done|]. rewrite Hkey. simpl.
    by rewrite !or_empty_get_or_empty.
  - split_and!.
    + intros tup Htup. simpl in Htup.
      apply elem_of_union in Htup as [Htup|Htup].
      * apply elem_of_singleton in Htup as ->. eexists. simpl.
        split; [apply elem_of_app; right; by apply list_elem_of_singleton|].
        unfold seen_key. simpl.
        by rewrite !or_empty_get_or_empty_stored, !or_empty_get_or_empty.
      * destruct (Hseen _ Htup) as (row & Hrow & Hkey). exists row.
        split; [|done]. simpl. apply elem_of_app. by left.
    + intros r' i' rid' iid' Hr' Hi' Hrid' Hiid'.
      assert (rid' = rid) as -> by congruence.
      assert (iid' = iid) as -> by congruence.
      eexists. simpl.
      split; [apply elem_of_app; right; by apply list_elem_of_singleton|].
      unfold seen_key. simpl.
      by rewrite !or_empty_get_or_empty_stored.
    + intros y Hy r' i' rid' iid' Hr' Hi' Hrid' Hiid'.
      destruct (Hy r' i' rid' iid' Hr' Hi' Hrid' Hiid') as (row & Hrow & Hk).
      exists row. split; [|done]. simpl. apply elem_of_app. by left.
Qed.

Lemma merge_entries_stored xs rows0 st' out :
  for_each (merge_entry utcnow rbs ibs by_whom) xs
    (rows0, list_to_set (map seen_key rows0), 0%nat) = Ok (st', out) →
  ∀ e, e ∈ xs → entry_stored rbs ibs e st'.
Proof.
  intros Hrun.
  eapply (for_each_inv _ seen_stored (entry_stored rbs ibs)) in Hrun
    as (_ & H & _); [done| |].
  - intros st x st1 out1 HI Hx. by eapply merge_entry_stored.
  - intros tup Htup. simpl in Htup.
    apply elem_of_list_to_set, list_elem_of_fmap in Htup as (row & -> & Hrow).
    by exists row.
Qed.

End merge_entries.

Lemma with_entries_same d : with_entries d (d_entries d) = d.
Proof. by destruct d. Qed.

(** Steps 1 to 3 do not look at the entries of the diff; on a corpus whose
    rows carry their identifiers they return, and step 4 then runs with
    indexes of the known slugs. *)
Lemma merge_steps utcnow master d by_whom :
  ids_present master →
  ∃ rows_r rbs rows_i ibs rows_a out_ria,
    index_ok r_slug recipe_id rows_r rbs
    ∧ index_ok i_slug ingredient_id rows_i ibs
    ∧ (∀ s, is_Some (rbs !! s) ↔ known_recipe_slug master d s)
    ∧ (∀ s, is_Some (ibs !! s) ↔ known_ingredient_slug master d s)
    ∧ ∀ es,
        merge utcnow master (with_entries d es) by_whom
        = '(rows_e, _, _, out_e) ←
            for_each (merge_entry utcnow rbs ibs by_whom) es
              (entries master, list_to_set (map seen_key (entries master)),
               0%nat);
          Ok (Corpus rows_r rows_i rows_a rows_e, out_ria ++ out_e).
Proof.
  intros Hids.
  destruct (merge_recipes_spec master d Hids)
    as (rows_r & rbs & out_r & Hrun_r & Hok_r & Hdom_r).
  destruct (merge_ingredients_spec master d Hids)
    as (rows_i & ibs & out_i & Hrun_i & Hok_i & Hdom_i).
  destruct (merge_aliases_total rows_i ibs (d_aliases d)
              (aliases master, list_to_set (map alias_key (aliases master)))
              Hok_i) as [[[rows_a seen_a] out_a] Hrun_a].
  exists rows_r, rbs, rows_i, ibs, rows_a, (out_r ++ out_i ++ out_a).
  split_and!; [done..|].
  intros es. unfold merge. simpl.
  rewrite Hrun_r. simpl. rewrite Hrun_i. simpl. rewrite Hrun_a. simpl.
  destruct (for_each _ es _) as [[[[rows_e seen_e] calls] out_e]|]; simpl;
    [|done].
  by rewrite <- !app_assoc.
Qed.

Lemma not_is_Some_None {A} (o : option A) : ¬ is_Some o → o = None.
Proof. destruct o; [|done]. intros H. exfalso. apply H. by eexists. Qed.

(** C4. When a diff holds an entry whose recipe slug or ingredient slug is
    carried neither by the corpus nor by the diff, a merge into a corpus
    whose rows carry their identifiers returns without raising (exit status
    0); the report has a line for the unresolved reference of that entry;
    the merged corpus is the one obtained from the diff without that entry;
    and for every other entry of the diff whose references resolve the merged
    corpus holds an entry row linking its recipe and ingredient with its
    amount and preparation. *)
Theorem merge_drops_unresolved_entry utcnow master d by_whom pre e post :
  ids_present master →
  d_entries d = pre ++ e :: post →
  ¬ resolves master d e →
  ∃ master' before ev after,
    merge utcnow master d by_whom = Ok (master', before ++ ev :: after)
    ∧ merge_main utcnow master d by_whom = 0
    ∧ unresolved_report master d e ev
    ∧ merge utcnow master (with_entries d (pre ++ post)) by_whom
      = Ok (master', before ++ after)
    ∧ ∀ e', e' ∈ pre ++ post → resolves master d e' → committed master' e'.
Proof.
  intros Hids Hes Hun.
  destruct (merge_steps utcnow master d by_whom Hids)
    as (rows_r & rbs & rows_i & ibs & rows_a & out_ria
        & Hok_r & Hok_i & Hdom_r & Hdom_i & Hmerge).
  set (body := merge_entry utcnow rbs ibs by_whom) in *.
  set (st0 := (entries master, list_to_set (map seen_key (entries master)),
               0%nat) : list entry * gset entry_key * nat) in *.
  destruct (merge_entries_total utcnow rbs ibs by_whom rows_r rows_i
              Hok_r Hok_i pre st0) as [[st1 out1] Hpre].
  destruct (merge_entries_total utcnow rbs ibs by_whom rows_r rows_i
              Hok_r Hok_i post st1) as [[st2 out2] Hpost].
  assert (Hlook : rbs !! de_recipe_slug e = None
                  ∨ ibs !! de_ingredient_slug e = None).
  { destruct (rbs !! de_recipe_slug e) as [r|] eqn:Hr; [|by left].
    right. apply not_is_Some_None. intros Hi. apply Hun. split.
    - apply Hdom_r. rewrite Hr. by eexists.
    - by apply Hdom_i. }
  destruct (merge_entry_unresolved utcnow rbs ibs by_whom st1 e Hlook)
    as (ev & Hstep & Hev).
  assert (Hwith : for_each body (pre ++ e :: post) st0
                  = Ok (st2, out1 ++ ev :: out2)).
  { rewrite for_each_app. fold body in Hpre. rewrite Hpre. simpl.
    fold body in Hstep. rewrite Hstep. simpl.
    fold body in Hpost. by rewrite Hpost. }
  assert (Hwithout : for_each body (pre ++ post) st0
                     = Ok (st2, out1 ++ out2)).
  { rewrite for_each_app. fold body in Hpre. rewrite Hpre. simpl.
    fold body in Hpost. by rewrite Hpost. }
  destruct st2 as [[rows_e seen_e] calls_e].
  assert (Hrun : merge utcnow master d by_whom
                 = Ok (Corpus rows_r rows_i rows_a rows_e,
                       (out_ria ++ out1) ++ ev :: out2)).
  { rewrite <- (with_entries_same d), Hmerge, Hes, Hwith. simpl.
    by rewrite <- app_assoc. }
  exists (Corpus rows_r rows_i rows_a rows_e), (out_ria ++ out1), ev, out2.
  split_and!.
  - done.
  - unfold merge_main. by rewrite Hrun.
  - destruct Hev as [[Hr ->]|(Hr & Hi & ->)].
    + left. split; [|done]. rewrite <- Hdom_r, Hr. by intros [? ?].
    + right. split_and!; [by apply Hdom_r| |done].
      rewrite <- Hdom_i, Hi. by intros [? ?].
  - rewrite Hmerge, Hwithout. simpl. by rewrite <- app_assoc.
  - intros e' He' [Hkr Hki].
    apply Hdom_r in Hkr as [r Hr]. apply Hdom_i in Hki as [i Hi].
    destruct (index_ok_lookup _ _ _ _ _ _ Hok_r Hr) as (Hrin & Hrs & [rid Hrid]).
    destruct (index_ok_lookup _ _ _ _ _ _ Hok_i Hi) as (Hiin & His & [iid Hiid]).
    pose proof (merge_entries_stored utcnow rbs ibs by_whom (pre ++ post)
                  (entries master) _ _ Hwithout e' He' r i rid iid
                  Hr Hi Hrid Hiid) as (row & Hrow & Hkey).
    unfold seen_key, norm_key in Hkey. simpl in Hkey.
    injection Hkey as Hk1 Hk2 Hk3 Hk4.
    rewrite or_empty_get_or_empty in Hk3, Hk4.
    exists r, i, row. simpl. split_and!; try done; congruence.
Qed.

Lemma merge_drops_unresolved_entry_witness :
  ∃ master' before ev after,
    merge sample_clock sample_corpus sample_diff_unresolved "gpt"
    = Ok (master', before ++ ev :: after)
    ∧ merge_main sample_clock sample_corpus sample_diff_unresolved "gpt" = 0
    ∧ ev = UnknownEntryIngredient "unobtainium"
    ∧ length (entries master') = 3%nat.
Proof.
  destruct (merge_drops_unresolved_entry sample_clock sample_corpus
              sample_diff_unresolved "gpt"
              [DiffEntry "kyphi-28" "honey" (Text "1 hin") JNull Absent
                 (Text "boiled") Absent Absent Absent]
              (DiffEntry "kyphi-28" "unobtainium" (Text "1 part") JNull
                 Absent Absent Absent Absent Absent) [])
    as (master' & before & ev & after & Hrun & Hexit & Hev & Hsame & _).
  - exact sample_corpus_ids_present.
  - reflexivity.
  - intros [_ [H|H]]; simpl in H.
    + apply list_elem_of_singleton in H. discriminate H.
    + by apply elem_of_nil in H.
  - exists master', before, ev, after. split_and!; [done|done| |].
    + destruct Hev as [[Hn _]|(_ & _ & ->)]; [|done].
      exfalso. apply Hn. left. simpl. by apply list_elem_of_singleton.
    + assert (Hc : merge sample_clock sample_corpus
                     (with_entries sample_diff_unresolved
                        [DiffEntry "kyphi-28" "honey" (Text "1 hin") JNull
                           Absent (Text "boiled") Absent Absent Absent]) "gpt"
                   = Ok (master', before ++ after)) by exact Hsame.
      vm_compute in Hc. injection Hc as <- _. reflexivity.
Defined.

(** C1 fails on an entry without [amount_raw] key.  The first merge stores
    the entry with [amount_raw] null and remembers the tuple with the empty
    string; the second merge reads the stored null as [None], looks for the
    tuple with the empty string, does not find it, and adds the entry
    again. *)
Theorem merge_twice_adds_entry_again (utcnow : nat → string) :
  ∃ m1 out1 m2 out2,
    merge utcnow sample_corpus sample_diff_no_amount "gpt" = Ok (m1, out1)
    ∧ merge utcnow m1 sample_diff_no_amount "gpt" = Ok (m2, out2)
    ∧ out1 = [AddedEntry "kyphi-28" "honey" 3]
    ∧ out2 = [AddedEntry "kyphi-28" "honey" 4]
    ∧ length (entries m1) = 3%nat
    ∧ length (entries m2) = 4%nat
    ∧ map amount_raw (entries m2) = [Text "2 hin"; Text "2 hin"; Null; Null]
    ∧ map preparation (entries m2)
      = [Null; Text "strained"; Text "skimmed"; Text "skimmed"].
Proof.
  eexists _, _, _, _.
  split; [vm_compute; reflexivity|].
  split; [vm_compute; reflexivity|].
  split_and!; reflexivity.
Qed.

(** ** Merging a diff twice

    The defect shown above is confined to entries without [amount_raw]
    key: when every entry of the diff carries the key, the second merge
    leaves the corpus as the first merge made it. *)

Lemma for_each_noop {S X E} (body : S → X → result (S * list E)) xs st :
  (∀ x, x ∈ xs → ∃ out, body st x = Ok (st, out)) →
  ∃ outs, for_each body xs st = Ok (st, outs).
Proof.
  induction xs as [|x xs IH]; intros Hbody; simpl; [by eexists|].
  destruct (Hbody x) as [out ->]; [by apply elem_of_cons; left|]. simpl.
  destruct IH as [outs ->].
  { intros y Hy. apply Hbody. by apply elem_of_cons; right. }
  simpl. by eexists.
Qed.

Lemma for_each_inv_in {S X E} (body : S → X → result (S * list E))
    (Inv : S → Prop) (Post : X → S → Prop) xs :
  (∀ st x st' out, x ∈ xs → Inv st → body st x = Ok (st', out) →
     Inv st' ∧ Post x st' ∧ ∀ y, Post y st → Post y st') →
  ∀ st st' out, Inv st → for_each body xs st = Ok (st', out) →
    Inv st' ∧ (∀ x, x ∈ xs → Post x st') ∧ ∀ y, Post y st → Post y st'.
Proof.
  induction xs as [|x xs IH]; intros Hstep st st' out HI Hrun.
  - simpl in Hrun. inv_ok. split_and!; [done| |done].
    intros x Hx. by apply elem_of_nil in Hx.
  - simpl in Hrun. inv_bind Hrun as [st1 out1] Hx.
    inv_bind Hrun as [st2 out2] Hxs. inv_ok.
    destruct (Hstep _ _ _ _ (list_elem_of_here _ _) HI Hx)
      as (HI1 & HP1 & Hmono1).
    destruct (IH (λ st x st' out Hin, Hstep st x st' out
                    (list_elem_of_further _ _ _ Hin)) _ _ _ HI1 Hxs)
      as (HI2 & HP2 & Hmono2).
    split_and!; [done| |by auto].
    intros y Hy. apply elem_of_cons in Hy as [->|Hy]; auto.
Qed.

Lemma idx_by_snoc {R} (slug : R → string) rows new :
  idx_by slug (rows ++ [new]) = <[slug new := new]> (idx_by slug rows).
Proof. unfold idx_by. by rewrite foldl_app. Qed.

Lemma merge_recipes_index xs st st' out :
  st.2 = idx_by r_slug st.1 →
  for_each merge_recipe xs st = Ok (st', out) →
  st'.2 = idx_by r_slug st'.1.
Proof.
  intros HI Hrun.
  eapply (for_each_inv _ (λ st, st.2 = idx_by r_slug st.1) (λ _ _, True))
    in Hrun as (H & _); [done| |done].
  clear. intros [rows m] x st' out Hm Hx. simpl in Hm. subst m.
  split_and!; [|done|done]. unfold merge_recipe in Hx.
  destruct (idx_by r_slug rows !! r_slug x) as [existing|].
  - inv_bind Hx as id Hid. by inv_ok.
  - inv_ok. simpl. by rewrite idx_by_snoc.
Qed.

Lemma merge_ingredients_index xs st st' out :
  st.2 = idx_by i_slug st.1 →
  for_each merge_ingredient xs st = Ok (st', out) →
  st'.2 = idx_by i_slug st'.1.
Proof.
  intros HI Hrun.
  eapply (for_each_inv _ (λ st, st.2 = idx_by i_slug st.1) (λ _ _, True))
    in Hrun as (H & _); [done| |done].
  clear. intros [rows m] x st' out Hm Hx. simpl in Hm. subst m.
  split_and!; [|done|done]. unfold merge_ingredient in Hx.
  destruct (idx_by i_slug rows !! i_slug x) as [existing|].
  - inv_bind Hx as id Hid. by inv_ok.
  - inv_ok. simpl. by rewrite idx_by_snoc.
Qed.

(** After step 3 the alias of every diff item that resolves is seen, and
    the seen tuples are those of the alias rows. *)
Lemma merge_aliases_seen ibs xs rows0 rows seen out :
  for_each (merge_alias ibs) xs
    (rows0, list_to_set (map alias_key rows0)) = Ok (rows, seen, out) →
  seen = list_to_set (map alias_key rows)
  ∧ ∀ a ing iid, a ∈ xs →
      ibs !! da_ingredient_slug a = Some ing → ingredient_id ing = Some iid →
      (iid, da_variant_label a) ∈ seen.
Proof.
  intros Hrun.
  eapply (for_each_inv _
            (λ st, st.2 = list_to_set (map alias_key st.1))
            (λ a st, ∀ ing iid,
               ibs !! da_ingredient_slug a = Some ing →
               ingredient_id ing = Some iid →
               (iid, da_variant_label a) ∈ st.2))
    in Hrun as (HI & HP & _); [| |done].
  - split; [done|]. intros a ing iid Ha. by apply HP.
  - clear. intros [rows seen] a st' out HI Hx. simpl in HI.
    unfold merge_alias in Hx.
    destruct (ibs !! da_ingredient_slug a) as [ing|] eqn:Hing.
    2: { inv_ok. split_and!; [done| |done]. by intros ing iid [=]. }
    inv_bind Hx as iid Hiid. inv_ok.
    destruct (decide _) as [Hin|Hnin]; inv_ok; simpl.
    + split_and!; [done| |done]. intros ing' iid' [= <-] Hid'.
      by assert (iid' = iid) as -> by congruence.
    + split_and!.
      * rewrite map_app, list_to_set_app_L. simpl.
        rewrite union_empty_r_L. apply (comm_L (∪)).
      * intros ing' iid' [= <-] Hid'.
        assert (iid' = iid) as -> by congruence.
        apply elem_of_union. left. by apply elem_of_singleton.
      * intros y Hy ing' iid' Hl Hid'. specialize (Hy ing' iid' Hl Hid').
        apply elem_of_union. by right.
Qed.

(** The same for step 4, for entries that carry the [amount_raw] key. *)
Lemma merge_entries_seen utcnow rbs ibs by_whom xs rows0 rows seen calls out :
  (∀ e, e ∈ xs → de_amount_raw e ≠ Absent) →
  for_each (merge_entry utcnow rbs ibs by_whom) xs
    (rows0, list_to_set (map seen_key rows0), 0%nat)
  = Ok (rows, seen, calls, out) →
  seen = list_to_set (map seen_key rows)
  ∧ ∀ e r i rid iid, e ∈ xs →
      rbs !! de_recipe_slug e = Some r → ibs !! de_ingredient_slug e = Some i →
      recipe_id r = Some rid → ingredient_id i = Some iid →
      (rid, iid, get_or_empty (de_amount_raw e),
       or_empty (get_or_empty (de_preparation e))) ∈ seen.
Proof.
  intros Hamount Hrun.
  eapply (for_each_inv_in _
            (λ st, st.1.2 = list_to_set (map seen_key st.1.1))
            (λ e st, ∀ r i rid iid,
               rbs !! de_recipe_slug e = Some r →
               ibs !! de_ingredient_slug e = Some i →
               recipe_id r = Some rid → ingredient_id i = Some iid →
               (rid, iid, get_or_empty (de_amount_raw e),
                or_empty (get_or_empty (de_preparation e))) ∈ st.1.2))
    in Hrun as (HI & HP & _); [| |done].
  - split; [done|]. intros e r i rid iid He. by apply HP.
  - intros [[rows' seen'] calls'] e st' out' He HI Hx. simpl in HI.
    unfold merge_entry in Hx.
    destruct (rbs !! de_recipe_slug e) as [r|] eqn:Hr.
    2: { inv_ok. split_and!; [done| |done]. by intros r i rid iid [=]. }
    destruct (ibs !! de_ingredient_slug e) as [i|] eqn:Hi.
    2: { inv_ok. split_and!; [done| |done]. by intros r' i' rid iid _ [=]. }
    inv_bind Hx as rid Hrid. inv_bind Hx as iid Hiid. inv_ok.
    destruct (decide _) as [Hin|Hnin]; inv_ok; simpl.
    + split_and!; [done| |done]. intros r' i' rid' iid' [= <-] [= <-] ? ?.
      assert (rid' = rid) as -> by congruence.
      by assert (iid' = iid) as -> by congruence.
    + assert (Hkey : seen_key
                {| entry_id := Some (next_id rows' entry_id);
                   e_recipe_id := rid;
                   e_ingredient_id := iid;
                   amount_raw := stored (get (de_amount_raw e));
                   amount_value := de_amount_value e;
                   amount_unit := stored (get (de_amount_unit e));
                   preparation := stored (get (de_preparation e));
                   notes := stored (get (de_notes e));
                   source_citation := stored (get (de_source_citation e));
                   source_span := stored (get (de_source_span e));
                   added_at := Text (utcnow calls');
                   added_by := Text by_whom |}
                = (rid, iid, get_or_empty (de_amount_raw e),
                   or_empty (get_or_empty (de_preparation e)))).
      { unfold seen_key. simpl. specialize (Hamount e He).
        destruct (de_amount_raw e), (de_preparation e); done. }
      split_and!.
      * rewrite map_app, list_to_set_app_L. simpl. rewrite Hkey.
        rewrite union_empty_r_L. apply (comm_L (∪)).
      * intros r' i' rid' iid' [= <-] [= <-] ? ?.
        assert (rid' = rid) as -> by congruence.
        assert (iid' = iid) as -> by congruence.
        apply elem_of_union. left. by apply elem_of_singleton.
      * intros y Hy r' i' rid' iid' ? ? ? ?.
        apply elem_of_union. right. by apply (Hy r' i').
Qed.

(** X11. Merging a diff whose entries all carry the [amount_raw] key a
    second time, at any later time and under any name, changes nothing. *)
Lemma merge_idempotent_with_amounts utcnow utcnow' master d by_whom by_whom'
    m1 out1 :
  ids_present master →
  (∀ e, e ∈ d_entries d → de_amount_raw e ≠ Absent) →
  merge utcnow master d by_whom = Ok (m1, out1) →
  ∃ out2, merge utcnow' m1 d by_whom' = Ok (m1, out2).
Proof.
  intros Hids Hamount Hrun.
  destruct (merge_recipes_spec master d Hids)
    as (rows_r & rbs & out_r & Hrun_r & Hok_r & Hdom_r).
  destruct (merge_ingredients_spec master d Hids)
    as (rows_i & ibs & out_i & Hrun_i & Hok_i & Hdom_i).
  pose proof (merge_recipes_index (d_recipes d)
                (recipes master, idx_by r_slug (recipes master)) _ _
                eq_refl Hrun_r) as Hidx_r.
  pose proof (merge_ingredients_index (d_ingredients d)
                (ingredients master, idx_by i_slug (ingredients master)) _ _
                eq_refl Hrun_i) as Hidx_i.
  simpl in Hidx_r, Hidx_i.
  unfold merge in Hrun. rewrite Hrun_r in Hrun. simpl in Hrun.
  rewrite Hrun_i in Hrun. simpl in Hrun.
  inv_bind Hrun as [[rows_a seen_a] out_a] Ha.
  inv_bind Hrun as [[[rows_e seen_e] calls] out_e] He.
  injection Hrun as <- <-. subst rbs ibs.
  set (rbs := idx_by r_slug rows_r) in *.
  set (ibs := idx_by i_slug rows_i) in *.
  apply merge_aliases_seen in Ha as [Hseen_a Hin_a].
  apply merge_entries_seen in He as [Hseen_e Hin_e]; [|done].
  unfold merge. simpl. fold rbs ibs.
  destruct (for_each_noop merge_recipe (d_recipes d) (rows_r, rbs))
    as [o_r ->].
  { intros x Hx. unfold merge_recipe.
    destruct (proj2 (Hdom_r (r_slug x))) as [existing Hl].
    { right. apply list_elem_of_fmap. by exists x. }
    rewrite Hl.
    destruct (index_ok_lookup _ _ _ _ _ _ Hok_r Hl) as (_ & _ & [id ->]).
    simpl. by eexists. }
  simpl.
  destruct (for_each_noop merge_ingredient (d_ingredients d) (rows_i, ibs))
    as [o_i ->].
  { intros x Hx. unfold merge_ingredient.
    destruct (proj2 (Hdom_i (i_slug x))) as [existing Hl].
    { right. apply list_elem_of_fmap. by exists x. }
    rewrite Hl.
    destruct (index_ok_lookup _ _ _ _ _ _ Hok_i Hl) as (_ & _ & [id ->]).
    simpl. by eexists. }
  simpl. rewrite <- Hseen_a.
  destruct (for_each_noop (merge_alias ibs) (d_aliases d) (rows_a, seen_a))
    as [o_a ->].
  { intros a Ha. unfold merge_alias.
    destruct (ibs !! da_ingredient_slug a) as [ing|] eqn:Hl; [|by eexists].
    destruct (index_ok_lookup _ _ _ _ _ _ Hok_i Hl) as (_ & _ & [iid Hiid]).
    rewrite Hiid. simpl.
    rewrite decide_True by (by eapply Hin_a). by eexists. }
  simpl. rewrite <- Hseen_e.
  destruct (for_each_noop (merge_entry utcnow' rbs ibs by_whom')
              (d_entries d) (rows_e, seen_e, 0%nat)) as [o_e ->].
  { intros e He. unfold merge_entry.
    destruct (rbs !! de_recipe_slug e) as [r|] eqn:Hr; [|by eexists].
    destruct (ibs !! de_ingredient_slug e) as [i|] eqn:Hi; [|by eexists].
    destruct (index_ok_lookup _ _ _ _ _ _ Hok_r Hr) as (_ & _ & [rid Hrid]).
    destruct (index_ok_lookup _ _ _ _ _ _ Hok_i Hi) as (_ & _ & [iid Hiid]).
    rewrite Hrid, Hiid. simpl.
    rewrite decide_True by (by eapply Hin_e). by eexists. }
  simpl. by eexists.
Qed.

(** ** Sorting *)

Lemma Qltb_lt (x y : Q) : Qltb x y = true ↔ (x < y)%Q.
Proof.
  unfold Qltb. rewrite negb_true_iff. split.
  - intros Hle. apply Qnot_le_lt. intros Hyx.
    apply Qle_bool_iff in Hyx. congruence.
  - intros Hlt. destruct (Qle_bool y x) eqn:Hle; [|done].
    apply Qle_bool_iff in Hle. exfalso. by apply (Qlt_not_le x y).
Qed.

Lemma Qltb_ge (x y : Q) : Qltb x y = false ↔ (y <= x)%Q.
Proof.
  unfold Qltb. rewrite negb_false_iff. apply Qle_bool_iff.
Qed.

Section py_sorted_facts.
Context {A : Type} (lt : A → A → bool).

Lemma insert_sorted_perm x l : insert_sorted lt x l ≡ₚ x :: l.
Proof.
  induction l as [|y l IH]; simpl; [done|].
  destruct (lt y x); [|done]. rewrite IH. apply Permutation_swap.
Qed.

Lemma py_sorted_perm l : py_sorted lt l ≡ₚ l.
Proof.
  induction l as [|x l IH]; simpl; [done|].
  rewrite insert_sorted_perm. by rewrite IH.
Qed.

Lemma elem_of_py_sorted x l : x ∈ py_sorted lt l ↔ x ∈ l.
Proof. by rewrite py_sorted_perm. Qed.

End py_sorted_facts.

(** Sorting by a score with [reverse=True]. *)
Section sorted_by_key.
Context {A : Type} (key : A → Q).

Lemma insert_sorted_desc x l :
  StronglySorted (λ u v, (key v <= key u)%Q) l →
  StronglySorted (λ u v, (key v <= key u)%Q)
    (insert_sorted (λ x y, Qltb (key y) (key x)) x l).
Proof.
  induction 1 as [|y l Hl IH Hy]; simpl.
  - repeat constructor.
  - destruct (Qltb (key x) (key y)) eqn:Hcmp.
    + constructor; [done|].
      apply Forall_forall. intros z Hz.
      apply elem_of_Permutation_proper with (y := x :: l) in Hz;
        [|apply insert_sorted_perm].
      apply elem_of_cons in Hz as [->|Hz].
      * apply Qltb_lt in Hcmp. by apply Qlt_le_weak.
      * by apply (proj1 (Forall_forall _ _) Hy).
    + apply Qltb_ge in Hcmp. constructor; [by constructor|].
      constructor; [done|].
      eapply Forall_impl; [exact Hy|]. intros z Hz. simpl in Hz.
      by apply Qle_trans with (key y).
Qed.

Lemma sorted_reverse_desc l :
  StronglySorted (λ u v, (key v <= key u)%Q) (sorted_reverse key l).
Proof.
  unfold sorted_reverse. induction l as [|x l IH]; simpl; [constructor|].
  by apply insert_sorted_desc.
Qed.

Lemma sorted_reverse_perm l : sorted_reverse key l ≡ₚ l.
Proof. apply py_sorted_perm. Qed.



End sorted_by_key.

(** ** Fuzzy matching *)

Lemma elem_of_label_matches m query threshold ings :
  m ∈ label_matches query threshold ings →
  (threshold < m_similarity m)%Q
  ∧ ∃ ing, ing ∈ ings ∧ m_slug m = i_slug ing
           ∧ m_similarity m = similarity query (i_label ing).
Proof.
  unfold label_matches. rewrite list_elem_of_omap.
  intros (ing & Hin & Hm).
  destruct (Qltb threshold _) eqn:Hcmp; [|done].
  injection Hm as <-. simpl. split; [by apply Qltb_lt|]. by exists ing.
Qed.

Lemma elem_of_alias_label_matches m query threshold by_id als :
  m ∈ alias_label_matches query threshold by_id als →
  (threshold < m_similarity m)%Q
  ∧ ∃ a ing, a ∈ als ∧ by_id !! a_ingredient_id a = Some ing
             ∧ m_slug m = i_slug ing
             ∧ m_similarity m = similarity query (variant_label a).
Proof.
  unfold alias_label_matches. rewrite list_elem_of_omap.
  intros (a & Hin & Hm).
  destruct (Qltb threshold _) eqn:Hcmp; [|done].
  destruct (by_id !! a_ingredient_id a) as [ing|] eqn:Hing; [|done].
  injection Hm as <-. simpl. split; [by apply Qltb_lt|]. by exists a, ing.
Qed.

Lemma unique_by_slug_sublist seen ms : sublist (unique_by_slug seen ms) ms.
Proof.
  revert seen. induction ms as [|m ms IH]; intros seen; simpl; [done|].
  destruct (decide _); [by apply sublist_cons|by apply sublist_skip].
Qed.

Lemma collect_matches_above m master query threshold matches :
  collect_matches master query threshold = Ok matches →
  m ∈ matches → (threshold < m_similarity m)%Q.
Proof.
  unfold collect_matches. intros H Hm. inv_bind H as by_id Hid. inv_ok.
  apply elem_of_app in Hm as [Hm|Hm].
  - by apply elem_of_label_matches in Hm as [? _].
  - by apply elem_of_alias_label_matches in Hm as [? _].
Qed.

Lemma find_similar_ingredients_inv master query threshold res :
  find_similar_ingredients master query threshold = Ok res →
  ∃ matches,
    collect_matches master query threshold = Ok matches
    ∧ res = unique_by_slug ∅ (sorted_reverse m_similarity matches).
Proof.
  unfold find_similar_ingredients. intros H. inv_bind H as matches Hm.
  inv_ok. by exists matches.
Qed.

Lemma find_similar_ingredients_above m master query threshold res :
  find_similar_ingredients master query threshold = Ok res →
  m ∈ res → (threshold < m_similarity m)%Q.
Proof.
  intros H Hm. apply find_similar_ingredients_inv in H as (ms & Hms & ->).
  eapply collect_matches_above; [done|].
  eapply elem_of_sublist in Hm; [|apply unique_by_slug_sublist].
  by rewrite sorted_reverse_perm in Hm.
Qed.

Lemma find_similar_above m new_label existing threshold :
  m ∈ find_similar new_label existing threshold →
  (threshold < l_similarity m)%Q.
Proof.
  unfold find_similar. rewrite sorted_reverse_perm, list_elem_of_omap.
  intros (ing & Hin & Hm).
  destruct (Qltb threshold _) eqn:Hcmp; [|done].
  injection Hm as <-. simpl. by apply Qltb_lt.
Qed.

(** C10. The threshold is exclusive: every result of the ingredient search
    and of the ingestion linking has a score strictly greater than the
    threshold, so a result whose score is at most the threshold does not
    occur; a label that scores exactly 0.4 in the search, or exactly 0.6 in
    the linking, with the default thresholds, gives no result. *)
Theorem threshold_is_exclusive master query threshold res new_label existing :
  find_similar_ingredients master query threshold = Ok res →
  (∀ m, m ∈ res → (threshold < m_similarity m)%Q)
  ∧ (∀ m, (m_similarity m <= threshold)%Q → m ∉ res)
  ∧ (∀ m, m ∈ find_similar new_label existing threshold →
          (threshold < l_similarity m)%Q)
  ∧ (∀ m, (l_similarity m <= threshold)%Q →
          m ∉ find_similar new_label existing threshold)
  ∧ (similarity "ab" "bcd" == 4 # 10)%Q
  ∧ find_similar_ingredients sample_pool_04 "ab" (4 # 10) = Ok []
  ∧ (ratio (chars (normalize "abc")) (chars (normalize "abcdefg")) == 6 # 10)%Q
  ∧ find_similar "abc" sample_pool_06 (6 # 10) = [].
Proof.
  intros H. split_and!.
  - intros m Hm. by eapply find_similar_ingredients_above.
  - intros m Hle Hm. eapply Qlt_not_le; [|exact Hle].
    by eapply find_similar_ingredients_above.
  - intros m Hm. by eapply find_similar_above.
  - intros m Hle Hm. eapply Qlt_not_le; [|exact Hle].
    by eapply find_similar_above.
  - vm_compute. reflexivity.
  - vm_compute. reflexivity.
  - vm_compute. reflexivity.
  - vm_compute. reflexivity.
Qed.

Lemma threshold_is_exclusive_witness :
  (similarity "ab" "bcd" == 4 # 10)%Q
  ∧ find_similar_ingredients sample_pool_04 "ab" (4 # 10) = Ok [].
Proof.
  assert (Hrun : find_similar_ingredients sample_pool_04 "ab" search_threshold
                 = Ok []) by (vm_compute; reflexivity).
  destruct (threshold_is_exclusive sample_pool_04 "ab" search_threshold []
              "abc" sample_pool_06 Hrun)
    as (_ & _ & _ & _ & Hsim & Hnone & _).
  by split.
Defined.

(** ** [difflib]: the blocks lie in their regions *)

Section flm_bounds.
Context {A : Type} `{Countable A}.
Context (a b : list A) (b2j : gmap A (list nat)).
Context (alo ahi blo bhi : nat).

Lemma j2lenget_pred_fits row_end j2len j :
  cells_fit alo blo row_end j2len →
  (alo + j2lenget_pred j2len j ≤ row_end ∨ j2lenget_pred j2len j = 0)%nat
  ∧ (blo + j2lenget_pred j2len j ≤ j ∨ j2lenget_pred j2len j = 0)%nat.
Proof.
  intros Hfit. destruct j as [|j']; simpl; [by split; right|].
  destruct (j2len !! j') as [k|] eqn:Hk; simpl; [|by split; right].
  destruct (Hfit _ _ Hk) as [? ?]. split; left; lia.
Qed.

Lemma inner_loop_fits i j2len js new best new' best' :
  (alo ≤ i)%nat →
  cells_fit alo blo i j2len →
  cells_fit alo blo (S i) new →
  block_fits alo blo bhi (S i) best →
  inner_loop blo bhi i j2len js new best = (new', best') →
  cells_fit alo blo (S i) new' ∧ block_fits alo blo bhi (S i) best'.
Proof.
  intros Hi Hprev. revert new best.
  induction js as [|j js IH]; intros new best Hnew Hbest Hrun; simpl in Hrun.
  - by injection Hrun as <- <-.
  - destruct (j <? blo)%nat eqn:Hlo; [by eapply IH|].
    destruct (bhi <=? j)%nat eqn:Hhi; [by injection Hrun as <- <-|].
    apply Nat.ltb_ge in Hlo. apply Nat.leb_gt in Hhi.
    destruct best as [[besti bestj] bestsize].
    destruct (j2lenget_pred_fits i j2len j Hprev) as [Hka Hkb].
    eapply IH; [| |exact Hrun].
    + intros j' k'. destruct (decide (j = j')) as [<-|Hne].
      * rewrite lookup_insert_eq. intros [= <-]. lia.
      * rewrite lookup_insert_ne by done. apply Hnew.
    + destruct (bestsize <? _)%nat; [|done]. simpl. lia.
Qed.

Lemma outer_loop_fits cnt i j2len best :
  (alo ≤ i)%nat →
  cells_fit alo blo i j2len →
  block_fits alo blo bhi i best →
  block_fits alo blo bhi (i + cnt)
    (outer_loop a b2j blo bhi (seq i cnt) j2len best).
Proof.
  revert i j2len best. induction cnt as [|cnt IH];
    intros i j2len best Hi Hcells Hbest; simpl.
  - by rewrite Nat.add_0_r.
  - destruct (inner_loop _ _ _ _ _ _ _) as [new' best'] eqn:Hrun.
    eapply inner_loop_fits in Hrun as [Hnew' Hbest']; [|done|done| |].
    + replace (i + S cnt)%nat with (S i + cnt)%nat by lia.
      apply IH; [lia|done|done].
    + intros j k Hk. by rewrite lookup_empty in Hk.
    + destruct best as [[bi bj] bk]. simpl in *. lia.
Qed.

Lemma extend_back_fits row_end besti bestj bestsize :
  block_fits alo blo bhi row_end (besti, bestj, bestsize) →
  block_fits alo blo bhi row_end
    (extend_back a b alo blo besti bestj bestsize).
Proof.
  revert bestj bestsize. induction besti as [|i' IH];
    intros bestj bestsize Hfit; simpl; [done|].
  destruct bestj as [|j']; [done|].
  destruct (_ && _) eqn:Hguard; [|done].
  apply andb_prop in Hguard as [Hguard _].
  apply andb_prop in Hguard as [Ha Hb].
  apply Nat.ltb_lt in Ha, Hb. apply IH. simpl in *. lia.
Qed.

Lemma extend_forward_fits n besti bestj bestsize :
  (besti + bestsize ≤ ahi)%nat → (bestj + bestsize ≤ bhi)%nat →
  let size' := extend_forward a b n ahi bhi besti bestj bestsize in
  (bestsize ≤ size')%nat ∧ (besti + size' ≤ ahi)%nat
  ∧ (bestj + size' ≤ bhi)%nat.
Proof.
  revert bestsize. induction n as [|n IH]; intros bestsize Ha Hb; simpl;
    [lia|].
  destruct (_ && _) eqn:Hguard; [|lia].
  apply andb_prop in Hguard as [Hguard _].
  apply andb_prop in Hguard as [Hga Hgb].
  apply Nat.ltb_lt in Hga, Hgb.
  destruct (IH (S bestsize)) as (? & ? & ?); lia.
Qed.

(** The block returned by [find_longest_match] lies in its region. *)
Lemma find_longest_match_fits i j k :
  (alo ≤ ahi)%nat → (blo ≤ bhi)%nat →
  find_longest_match a b b2j alo ahi blo bhi = (i, j, k) →
  (alo ≤ i)%nat ∧ (i + k ≤ ahi)%nat ∧ (blo ≤ j)%nat ∧ (j + k ≤ bhi)%nat.
Proof.
  intros Ha Hb. unfold find_longest_match.
  pose proof (outer_loop_fits (ahi - alo) alo ∅ (alo, blo, 0%nat)) as Hdp.
  destruct (outer_loop _ _ _ _ _ _ _) as [[bi bj] bk].
  replace (alo + (ahi - alo))%nat with ahi in Hdp by lia.
  assert (Hfit : block_fits alo blo bhi ahi (bi, bj, bk)).
  { apply Hdp; [lia| |simpl; lia].
    intros j' k' Hk. by rewrite lookup_empty in Hk. }
  apply extend_back_fits in Hfit.
  destruct (extend_back _ _ _ _ _ _ _) as [[bi' bj'] bk'].
  simpl in Hfit. intros [= <- <- <-].
  destruct (extend_forward_fits (ahi - (bi' + bk')) bi' bj' bk')
    as (? & ? & ?); lia.
Qed.

End flm_bounds.

(** ** [difflib]: the queue loop *)

Section blocks_loop_facts.
Context {A : Type} `{Countable A}.
Context (a b : list A) (b2j : gmap A (list nat)).

(** One iteration on a region that yields a block: what is appended to the
    queue is in order, weighs less and needs less fuel. *)
Lemma queue_step alo ahi blo bhi i j k queue :
  region_ok (alo, ahi, blo, bhi) →
  Forall region_ok queue →
  find_longest_match a b b2j alo ahi blo bhi = (i, j, k) →
  k ≠ 0%nat →
  let queue1 :=
    if (alo <? i)%nat && (blo <? j)%nat
    then (alo, i, blo, j) :: queue else queue in
  let queue2 :=
    if (i + k <? ahi)%nat && (j + k <? bhi)%nat
    then (i + k, ahi, j + k, bhi)%nat :: queue1 else queue1 in
  Forall region_ok queue2
  ∧ (k + sum_list_with region_weight queue2
     ≤ region_weight (alo, ahi, blo, bhi)
       + sum_list_with region_weight queue)%nat
  ∧ (S (sum_list_with region_fuel queue2)
     ≤ region_fuel (alo, ahi, blo, bhi) + sum_list_with region_fuel queue)%nat.
Proof.
  intros [Ha Hb] Hq Hflm Hk.
  destruct (find_longest_match_fits a b b2j alo ahi blo bhi i j k Ha Hb Hflm)
    as (Hi1 & Hi2 & Hj1 & Hj2).
  simpl.
  destruct ((alo <? i)%nat && (blo <? j)%nat) eqn:H1;
    destruct ((i + k <? ahi)%nat && (j + k <? bhi)%nat) eqn:H2;
    rewrite ?andb_true_iff, ?Nat.ltb_lt in H1, H2; simpl;
    (split_and!; [repeat (constructor; [simpl; lia|]); done|lia|lia]).
Qed.

(** The blocks found have at most as many elements as the regions of the
    queue can hold. *)
Lemma blocks_loop_total_size fuel queue acc blocks :
  Forall region_ok queue →
  blocks_loop a b b2j fuel queue acc = Some blocks →
  (total_size blocks
   ≤ total_size acc + sum_list_with region_weight queue)%nat.
Proof.
  revert queue acc. induction fuel as [|fuel IH]; intros queue acc Hq Hrun.
  - destruct queue as [|[[[alo ahi] blo] bhi] queue]; [|done].
    simpl in Hrun. injection Hrun as <-. simpl. lia.
  - destruct queue as [|[[[alo ahi] blo] bhi] queue].
    { simpl in Hrun. injection Hrun as <-. simpl. lia. }
    simpl in Hrun.
    destruct (find_longest_match a b b2j alo ahi blo bhi) as [[i j] k] eqn:Hf.
    apply Forall_cons in Hq as [Hr Hq].
    destruct (k =? 0)%nat eqn:Hk.
    + apply IH in Hrun; [|done]. simpl. lia.
    + apply Nat.eqb_neq in Hk.
      destruct (queue_step alo ahi blo bhi i j k queue Hr Hq Hf Hk)
        as (Hq2 & Hw & _).
      simpl in Hq2, Hw. remember (if (i + k <? ahi)%nat && _ then _ else _)
        as queue2 eqn:Hqueue2 in Hrun, Hq2, Hw.
      apply IH in Hrun; [|done].
      unfold total_size in *. rewrite sum_list_with_app in Hrun.
      change (sum_list_with block_size [(i, j, k)]) with (k + 0)%nat in Hrun.
      change (sum_list_with region_weight ((alo, ahi, blo, bhi) :: queue))
        with ((ahi - alo) `min` (bhi - blo)
              + sum_list_with region_weight queue)%nat.
      lia.
Qed.

(** The loop ends before the fuel of its queue runs out. *)
Lemma blocks_loop_fuel fuel queue acc :
  Forall region_ok queue →
  (sum_list_with region_fuel queue ≤ fuel)%nat →
  is_Some (blocks_loop a b b2j fuel queue acc).
Proof.
  revert queue acc. induction fuel as [|fuel IH]; intros queue acc Hq Hfuel.
  - destruct queue as [|[[[alo ahi] blo] bhi] queue]; [by eexists|].
    simpl in Hfuel. lia.
  - destruct queue as [|[[[alo ahi] blo] bhi] queue]; [by eexists|].
    simpl.
    destruct (find_longest_match a b b2j alo ahi blo bhi) as [[i j] k] eqn:Hf.
    apply Forall_cons in Hq as [Hr Hq].
    destruct (k =? 0)%nat eqn:Hk.
    + apply IH; [done|]. simpl in Hfuel. lia.
    + apply Nat.eqb_neq in Hk.
      destruct (queue_step alo ahi blo bhi i j k queue Hr Hq Hf Hk)
        as (Hq2 & _ & Hfl).
      simpl in Hq2, Hfl. apply IH; [done|].
      change (sum_list_with region_fuel ((alo, ahi, blo, bhi) :: queue))
        with (2 * (ahi - alo) + 1 + sum_list_with region_fuel queue)%nat
        in Hfuel.
      simpl in Hfuel. lia.
Qed.

End blocks_loop_facts.

Section matching_blocks_facts.
Context {A : Type} `{Countable A}.

Lemma collapse_total_size i1 j1 k1 blocks :
  total_size (collapse i1 j1 k1 blocks) = (k1 + total_size blocks)%nat.
Proof.
  unfold total_size. revert i1 j1 k1.
  induction blocks as [|[[i2 j2] k2] blocks IH]; intros i1 j1 k1; simpl.
  - destruct (k1 =? 0)%nat eqn:Hk; simpl.
    + apply Nat.eqb_eq in Hk. lia.
    + unfold block_size. simpl. lia.
  - destruct (_ && _).
    + rewrite IH. lia.
    + rewrite sum_list_with_app, IH.
      destruct (k1 =? 0)%nat eqn:Hk; simpl.
      * apply Nat.eqb_eq in Hk. lia.
      * change (block_size (i1, j1, k1)) with k1. lia.
Qed.

(** The queue loop of [get_matching_blocks] ends within its fuel. *)
Lemma get_matching_blocks_loop_ends (a b : list A) :
  is_Some (blocks_loop a b (chain_b b) (2 * length a + 1)
             [(0, length a, 0, length b)%nat] []).
Proof.
  apply blocks_loop_fuel.
  - repeat constructor; simpl; lia.
  - simpl. lia.
Qed.

(** The matching blocks hold at most [len(a)] and at most [len(b)]
    elements. *)
Lemma get_matching_blocks_total_size (a b : list A) :
  (total_size (get_matching_blocks a b) ≤ length a `min` length b)%nat.
Proof.
  unfold get_matching_blocks.
  destruct (get_matching_blocks_loop_ends a b) as [blocks Hrun].
  rewrite Hrun. simpl.
  apply blocks_loop_total_size in Hrun; [|repeat constructor; simpl; lia].
  unfold total_size in *. rewrite sum_list_with_app.
  pose proof (collapse_total_size 0 0 0 (py_sorted block_lt blocks)) as Hc.
  unfold total_size in Hc. rewrite Hc.
  rewrite (sum_list_with_Permutation_proper block_size _ _
             (py_sorted_perm block_lt blocks)).
  change (sum_list_with block_size [(length a, length b, 0%nat)])
    with (0 + 0)%nat.
  change (sum_list_with region_weight [(0, length a, 0, length b)%nat])
    with ((length a - 0) `min` (length b - 0) + 0)%nat in Hrun.
  simpl in Hrun. lia.
Qed.

Lemma sum_list_fmap {X} (f : X → nat) (l : list X) :
  sum_list (map f l) = sum_list_with f l.
Proof. induction l as [|x l IH]; simpl; [done|]. by rewrite IH. Qed.

Lemma calculate_ratio_bounds matches length :
  (2 * matches ≤ length)%nat →
  (0 <= calculate_ratio matches length)%Q
  ∧ (calculate_ratio matches length <= 1)%Q.
Proof.
  intros Hm. unfold calculate_ratio. destruct length as [|n]; [done|].
  unfold Qle. simpl. rewrite <- Pos.of_nat_succ, Zpos_P_of_succ_nat. lia.
Qed.

(** A ratio lies between 0 and 1. *)
Lemma ratio_bounds (a b : list A) :
  (0 <= ratio a b)%Q ∧ (ratio a b <= 1)%Q.
Proof.
  unfold ratio. apply calculate_ratio_bounds.
  pose proof (get_matching_blocks_total_size a b) as Hm.
  unfold total_size in Hm. rewrite sum_list_fmap.
  change (λ triple : block, triple.2) with block_size. lia.
Qed.

End matching_blocks_facts.

(** ** [difflib]: a sequence matched against itself *)

Section chain_b_facts.
Context {A : Type} `{Countable A}.

Lemma chain_b_loop_lookup i0 (b : list A) (m : gmap A (list nat)) elt js :
  chain_b_loop i0 b m !! elt = Some js →
  ∃ new, js = default [] (m !! elt) ++ new
         ∧ StronglySorted Nat.lt new
         ∧ ∀ j, j ∈ new ↔ (i0 ≤ j)%nat ∧ b !! (j - i0)%nat = Some elt.
Proof.
  revert i0 m. induction b as [|x b IH]; intros i0 m Hjs; simpl in Hjs.
  - exists []. rewrite Hjs, app_nil_r. split_and!; [done|constructor|].
    intros j. rewrite elem_of_nil. simpl. by intros; split; [|intros [_ ?]].
  - apply IH in Hjs as (new & -> & Hsorted & Hmem).
    destruct (decide (x = elt)) as [->|Hne].
    + rewrite lookup_insert_eq. simpl. exists (i0 :: new).
      rewrite <- app_assoc. split_and!; [done| |].
      * constructor; [done|]. apply Forall_forall. intros j Hj.
        apply Hmem in Hj as [Hj _]. unfold Nat.lt. lia.
      * intros j. rewrite elem_of_cons, Hmem. split.
        -- intros [->|[Hj Hb]].
           ++ split; [lia|]. by rewrite Nat.sub_diag.
           ++ split; [lia|]. replace (j - i0)%nat with (S (j - S i0)) by lia.
              done.
        -- intros [Hj Hb]. destruct (decide (j = i0)) as [->|Hji]; [by left|].
           right. split; [lia|].
           replace (j - i0)%nat with (S (j - S i0)) in Hb by lia. done.
    + rewrite lookup_insert_ne by done. exists new.
      split_and!; [done|done|]. intros j. rewrite Hmem. split.
      * intros [Hj Hb]. split; [lia|].
        replace (j - i0)%nat with (S (j - S i0)) by lia. done.
      * intros [Hj Hb]. destruct (decide (j = i0)) as [->|Hji].
        -- rewrite Nat.sub_diag in Hb. simpl in Hb. congruence.
        -- split; [lia|].
           replace (j - i0)%nat with (S (j - S i0)) in Hb by lia. done.
Qed.

(** What [__chain_b] leaves in [b2j]. *)
Lemma chain_b_lists_positions (b : list A) : lists_positions b (chain_b b).
Proof.
  intros elt js Hjs.
  assert (Hraw : chain_b_loop 0 b ∅ !! elt = Some js).
  { unfold chain_b in Hjs. destruct (200 <=? length b)%nat; [|done].
    by apply map_lookup_filter_Some in Hjs as [? _]. }
  apply chain_b_loop_lookup in Hraw as (new & -> & Hsorted & Hmem).
  rewrite lookup_empty. simpl. split; [done|].
  intros j. rewrite Hmem, Nat.sub_0_r. split; [by intros [_ ?]|].
  intros ?. split; [lia|done].
Qed.

End chain_b_facts.

Section self_match.
Context {A : Type} `{Countable A}.
Context (a : list A) (b2j : gmap A (list nat)).
Hypothesis Hb2j : lists_positions a b2j.
#[local] Open Scope nat_scope.

Lemma diag_run_key x elt :
  a !! x = Some elt → is_Some (b2j !! elt) →
  diag_run a b2j x
  = match x with O => 1 | S x' => S (diag_run a b2j x') end.
Proof.
  intros Hx Hk. destruct x as [|x']; simpl; rewrite Hx;
    by rewrite bool_decide_eq_true_2.
Qed.

Lemma diag_run_no_key x elt :
  a !! x = Some elt → b2j !! elt = None → diag_run a b2j x = 0.
Proof.
  intros Hx Hk.
  assert (Hn : ¬ is_Some (b2j !! elt)) by (rewrite Hk; by intros [? ?]).
  destruct x as [|x']; simpl; rewrite Hx; by rewrite bool_decide_eq_false_2.
Qed.

(** The length computed for the cell [(i, j)]. *)
Lemma cell_length i j elt j2len :
  a !! i = Some elt → a !! j = Some elt → is_Some (b2j !! elt) →
  row_before a b2j i j2len →
  j2lenget_pred j2len j + 1 ≤ diag_run a b2j j
  ∧ j2lenget_pred j2len j + 1 ≤ diag_run a b2j i
  ∧ (j = i → j2lenget_pred j2len j + 1 = diag_run a b2j i).
Proof.
  intros Hi Hj Hk [Hcells Hdiag].
  rewrite (diag_run_key i elt Hi Hk), (diag_run_key j elt Hj Hk).
  destruct j as [|j']; simpl.
  - split_and!; [lia|destruct i; lia|by intros <-].
  - destruct (j2len !! j') as [k'|] eqn:Hk'; simpl.
    + destruct (Hcells _ _ Hk') as (i' & -> & Hkj & Hki).
      split_and!; [lia|lia|]. intros [= ->].
      destruct (decide (diag_run a b2j i' = 0)) as [Hz|Hnz]; [lia|].
      rewrite (Hdiag i' eq_refl Hnz) in Hk'. injection Hk' as <-. lia.
    + split_and!; [lia|destruct i; lia|]. intros <-.
      destruct (decide (diag_run a b2j j' = 0)) as [Hz|Hnz]; [lia|].
      rewrite (Hdiag j' eq_refl Hnz) in Hk'. done.
Qed.

Lemma inner_loop_diag i elt js_all :
  a !! i = Some elt → b2j !! elt = Some js_all →
  ∀ js done j2len new best new' best',
    js_all = done ++ js →
    row_before a b2j i j2len →
    (∀ j k, new !! j = Some k →
       k ≤ diag_run a b2j j ∧ k ≤ diag_run a b2j i) →
    (i ∈ done → new !! i = Some (diag_run a b2j i)) →
    best_on_diagonal a b2j i best →
    (i ∈ done → diag_run a b2j i ≤ best.2) →
    inner_loop 0 (length a) i j2len js new best = (new', best') →
    (∀ j k, new' !! j = Some k →
       k ≤ diag_run a b2j j ∧ k ≤ diag_run a b2j i)
    ∧ new' !! i = Some (diag_run a b2j i)
    ∧ best_on_diagonal a b2j (S i) best'.
Proof.
  intros Hi Hjs_all. destruct (Hb2j _ _ Hjs_all) as [Hsorted Hmem].
  assert (Hkey : is_Some (b2j !! elt)) by (by eexists).
  induction js as [|j js IH];
    intros done j2len new best new' best' Hsplit Hprev Hnew Hnewi Hbest Hbesti
      Hrun; simpl in Hrun.
  - injection Hrun as <- <-. rewrite app_nil_r in Hsplit. subst done.
    assert (Hin : i ∈ js_all) by (by apply Hmem).
    split_and!; [done|by apply Hnewi|].
    destruct best as [[bi bj] bk]. destruct Hbest as [Hdiag Hmax].
    split; [done|]. intros x Hx.
    destruct (decide (x = i)) as [->|Hne]; [by apply Hbesti|].
    apply Hmax. lia.
  - assert (Hj : a !! j = Some elt).
    { apply Hmem. rewrite Hsplit. apply elem_of_app. right.
      by apply elem_of_cons; left. }
    assert (Hjn : j < length a) by (by eapply lookup_lt_Some).
    replace (length a <=? j) with false in Hrun
      by (symmetry; by apply Nat.leb_gt).
    destruct best as [[bi bj] bk]. destruct Hbest as [Hdiag Hmax].
    destruct (cell_length i j elt j2len Hi Hj Hkey Hprev) as (Hkj & Hki & Hkd).
    set (k := j2lenget_pred j2len j + 1) in *.
    assert (Hupd : bk < k → j = i).
    { intros Hlt. destruct (Nat.lt_trichotomy j i) as [Hji|[Heq|Hij]];
        [|done|].
      - specialize (Hmax j Hji). lia.
      - assert (Hdone : i ∈ done).
        { assert (Hin : i ∈ js_all) by (by apply Hmem).
          rewrite Hsplit in Hin. apply elem_of_app in Hin as [Hin|Hin];
            [done|].
          rewrite Hsplit in Hsorted.
          apply StronglySorted_app_1_r in Hsorted.
          apply StronglySorted_inv in Hsorted as [_ Hall].
          apply elem_of_cons in Hin as [->|Hin]; [lia|].
          pose proof (proj1 (Forall_forall _ _) Hall i Hin) as Hlt'.
          unfold Nat.lt in Hlt'. lia. }
        specialize (Hbesti Hdone). simpl in Hbesti. lia. }
    eapply (IH (done ++ [j])); [| | | | | |exact Hrun].
    + by rewrite <- app_assoc.
    + done.
    + intros j' k'. destruct (decide (j = j')) as [<-|Hne].
      * rewrite lookup_insert_eq. by intros [= <-].
      * rewrite lookup_insert_ne by done. apply Hnew.
    + intros Hin. destruct (decide (j = i)) as [Heq|Hne].
      * subst j. rewrite lookup_insert_eq. f_equal. by apply Hkd.
      * rewrite lookup_insert_ne by done. apply Hnewi.
        apply elem_of_app in Hin as [Hin|Hin]; [done|].
        apply list_elem_of_singleton in Hin. congruence.
    + destruct (bk <? k) eqn:Hcmp.
      * apply Nat.ltb_lt in Hcmp. rewrite (Hupd Hcmp).
        split; [done|]. intros x Hx. specialize (Hmax x Hx). lia.
      * by split.
    + intros Hin. destruct (bk <? k) eqn:Hcmp; simpl.
      * apply Nat.ltb_lt in Hcmp. specialize (Hkd (Hupd Hcmp)). lia.
      * apply Nat.ltb_ge in Hcmp.
        apply elem_of_app in Hin as [Hin|Hin]; [by apply Hbesti|].
        apply list_elem_of_singleton in Hin. specialize (Hkd (eq_sym Hin)).
        lia.
Qed.

Lemma outer_loop_diag cnt i j2len best :
  i + cnt = length a →
  row_before a b2j i j2len → best_on_diagonal a b2j i best →
  ∃ p K, outer_loop a b2j 0 (length a) (seq i cnt) j2len best = (p, p, K).
Proof.
  revert i j2len best. induction cnt as [|cnt IH];
    intros i j2len best Hlen Hprev Hbest; simpl.
  - destruct best as [[bi bj] bk]. destruct Hbest as [-> _]. by eexists _, _.
  - destruct (lookup_lt_is_Some_2 a i) as [elt Hi]; [lia|]. rewrite Hi.
    destruct (b2j !! elt) as [js_all|] eqn:Hjs; simpl.
    + destruct (inner_loop 0 (length a) i j2len js_all ∅ best)
        as [new' best'] eqn:Hrun.
      eapply (inner_loop_diag i elt js_all Hi Hjs js_all []) in Hrun
        as (Hnew' & Hnewi & Hbest'); [|done|done| | |done|].
      * apply IH; [lia| |done]. split.
        -- intros j k Hk. exists i. destruct (Hnew' _ _ Hk). done.
        -- by intros i' [= <-] _.
      * intros j k Hk. by rewrite lookup_empty in Hk.
      * intros Hin. by apply elem_of_nil in Hin.
      * intros Hin. by apply elem_of_nil in Hin.
    + apply IH; [lia| |].
      * split.
        -- intros j k Hk. by rewrite lookup_empty in Hk.
        -- intros i' [= <-] Hnz. by rewrite (diag_run_no_key i elt) in Hnz.
      * destruct best as [[bi bj] bk]. destruct Hbest as [Hd Hmax].
        split; [done|]. intros x Hx.
        destruct (decide (x = i)) as [->|Hne].
        -- rewrite (diag_run_no_key i elt) by done. lia.
        -- apply Hmax. lia.
Qed.

Lemma extend_back_diag p K : extend_back a a 0 0 p p K = (0, 0, K + p).
Proof.
  revert K. induction p as [|p IH]; intros K; simpl.
  - f_equal. lia.
  - rewrite bool_decide_eq_true_2 by done. simpl. rewrite IH. f_equal. lia.
Qed.

Lemma extend_forward_diag m s :
  s + m = length a →
  extend_forward a a m (length a) (length a) 0 0 s = length a.
Proof.
  revert s. induction m as [|m IH]; intros s Hs; simpl; [lia|].
  replace (s <? length a) with true by (symmetry; apply Nat.ltb_lt; lia).
  rewrite bool_decide_eq_true_2 by done. simpl. apply IH. lia.
Qed.

(** The longest match of a sequence with itself is the whole sequence. *)
Lemma find_longest_match_self :
  find_longest_match a a b2j 0 (length a) 0 (length a) = (0, 0, length a).
Proof.
  unfold find_longest_match. rewrite Nat.sub_0_r.
  pose proof (outer_loop_fits a b2j 0 0 (length a) (length a) 0 ∅ (0, 0, 0))
    as Hfit.
  destruct (outer_loop_diag (length a) 0 ∅ (0, 0, 0)) as (p & K & Hdp).
  - done.
  - split.
    + intros j k Hk. by rewrite lookup_empty in Hk.
    + by intros i' [=].
  - split; [done|]. intros x Hx. lia.
  - rewrite Hdp in Hfit |- *.
    destruct Hfit as (_ & HpK & _); [lia| |simpl; lia|].
    { intros j k Hk. by rewrite lookup_empty in Hk. }
    rewrite extend_back_diag. rewrite extend_forward_diag; [done|]. lia.
Qed.

End self_match.

Section ratio_self.
Context {A : Type} `{Countable A}.

(** The matching blocks of a sequence with itself hold all its elements. *)
Lemma get_matching_blocks_self (a : list A) :
  total_size (get_matching_blocks a a) = length a.
Proof.
  unfold get_matching_blocks.
  replace (2 * length a + 1)%nat with (S (2 * length a)) by lia.
  simpl blocks_loop.
  rewrite (find_longest_match_self a (chain_b a) (chain_b_lists_positions a)).
  unfold total_size. rewrite sum_list_with_app.
  change (sum_list_with block_size [(length a, length a, 0%nat)])
    with (0 + 0)%nat.
  assert (Hloop : ∀ fuel acc,
            blocks_loop a a (chain_b a) fuel [] acc = Some acc)
    by (by intros [|fuel] acc).
  destruct (length a =? 0)%nat eqn:Hn.
  - apply Nat.eqb_eq in Hn. rewrite Hloop. simpl. lia.
  - rewrite Nat.ltb_irrefl. simpl andb. cbv iota.
    replace (0 + length a <? length a)%nat with false
      by (symmetry; apply Nat.ltb_ge; lia).
    simpl andb. cbv iota. rewrite Hloop. simpl default.
    pose proof (collapse_total_size 0 0 0
                  (py_sorted block_lt [(0, 0, length a)%nat])) as Hc.
    unfold total_size in Hc. rewrite Hc.
    rewrite (sum_list_with_Permutation_proper block_size _ _
               (py_sorted_perm block_lt _)).
    change (sum_list_with block_size [(0, 0, length a)%nat])
      with (length a + 0)%nat.
    lia.
Qed.

(** [SequenceMatcher(None, x, x).ratio()] is 1. *)
Lemma ratio_self (a : list A) : (ratio a a == 1)%Q.
Proof.
  unfold ratio. rewrite sum_list_fmap.
  change (λ triple : block, triple.2) with block_size.
  pose proof (get_matching_blocks_self a) as Hm. unfold total_size in Hm.
  rewrite Hm. unfold calculate_ratio.
  destruct (length a + length a)%nat as [|m] eqn:Hlen; [done|].
  unfold Qeq. simpl Qnum. simpl Qden.
  rewrite <- Pos.of_nat_succ, Zpos_P_of_succ_nat. lia.
Qed.

End ratio_self.


Lemma similarity_bounds (x y : string) :
  (0 <= similarity x y)%Q ∧ (similarity x y <= 1)%Q.
Proof. apply ratio_bounds. Qed.

(** ** The ranked, deduplicated result *)





(** In a list sorted by decreasing score, the match kept for a slug is one
    of highest score. *)
Lemma unique_by_slug_highest seen ms m :
  StronglySorted (λ x y, (m_similarity y <= m_similarity x)%Q) ms →
  m ∈ ms → m_slug m ∉ seen →
  ∃ r, r ∈ unique_by_slug seen ms ∧ m_slug r = m_slug m
       ∧ (m_similarity m <= m_similarity r)%Q.
Proof.
  intros Hsorted. revert seen.
  induction Hsorted as [|x ms Hs IH Hall]; intros seen Hm Hfresh.
  - by apply elem_of_nil in Hm.
  - simpl. destruct (decide (m_slug x ∈ seen)) as [Hin|Hnin].
    + apply elem_of_cons in Hm as [->|Hm]; [done|]. by apply IH.
    + apply elem_of_cons in Hm as [->|Hm].
      * exists x. split_and!; [by apply elem_of_cons; left|done|].
        apply Qle_refl.
      * destruct (decide (m_slug m = m_slug x)) as [Heq|Hne].
        -- exists x. split_and!; [by apply elem_of_cons; left|done|].
           by apply (proj1 (Forall_forall _ _) Hall).
        -- destruct (IH ({[m_slug x]} ∪ seen) Hm) as (r & Hr & Hrs & Hle).
           { intros Hu. apply elem_of_union in Hu as [Hu|Hu]; [|done].
             apply elem_of_singleton in Hu. done. }
           exists r. split_and!; [by apply elem_of_cons; right|done|done].
Qed.

Lemma index_by_id_total rows acc :
  (∀ i, i ∈ rows → is_Some (ingredient_id i)) →
  ∃ by_id, index_by_id rows acc = Ok by_id.
Proof.
  revert acc. induction rows as [|i rows IH]; intros acc Hids; simpl;
    [by eexists|].
  destruct (Hids i) as [id ->]; [by apply elem_of_cons; left|]. simpl.
  apply IH. intros j Hj. apply Hids. by apply elem_of_cons; right.
Qed.

Lemma index_by_id_spec rows acc by_id :
  index_by_id rows acc = Ok by_id →
  (∀ i, i ∈ rows → is_Some (ingredient_id i))
  ∧ ∀ id, by_id !! id
          = match last (filter (λ i, ingredient_id i = Some id) rows) with
            | Some i => Some i
            | None => acc !! id
            end.
Proof.
  revert acc. induction rows as [|r rows IH]; intros acc H; simpl in H.
  - inv_ok. split; [|done]. intros r Hr. by apply elem_of_nil in Hr.
  - inv_bind H as rid Hrid. apply subscript_Ok in Hrid.
    destruct (IH _ H) as [Hids Hlook]. split.
    + intros x Hx. apply elem_of_cons in Hx as [->|Hx]; [by eexists|auto].
    + intros id. rewrite Hlook, filter_cons.
      destruct (decide (ingredient_id r = Some id)) as [Heq|Hne].
      * rewrite last_cons. destruct (last _); [done|].
        assert (rid = id) as -> by congruence. by rewrite lookup_insert_eq.
      * destruct (last _); [done|].
        rewrite lookup_insert_ne; [done|]. congruence.
Qed.




Lemma collect_matches_scores master query threshold matches m :
  collect_matches master query threshold = Ok matches → m ∈ matches →
  ∃ label, m_similarity m = similarity query label.
Proof.
  unfold collect_matches. intros H Hm. inv_bind H as by_id Hid. inv_ok.
  apply elem_of_app in Hm as [Hm|Hm].
  - apply elem_of_label_matches in Hm as (_ & ing & _ & _ & ->). by eexists.
  - apply elem_of_alias_label_matches in Hm as (_ & a & ing & _ & _ & _ & ->).
    by eexists.
Qed.



(** ** Equivalence clustering *)

(** Scenario D: two ingredients that share the English alias "juniper" form
    one group, of high confidence, with both slugs. *)
Lemma generate_equivalences_two_junipers :
  ∃ g, generate_equivalences sample_two_junipers = Ok [g]
       ∧ canonical_name g = "juniper"%string
       ∧ confidence g = "high"%string
       ∧ slugs g = ["arkeuthos"; "iuniperus"]%string.
Proof. eexists. split; [vm_compute; reflexivity|]. by split_and!. Qed.

(** C8 fails on an ingredient with two English aliases that normalize to
    the same string: the group is made when the list built for the alias has
    more than one item, whether or not the items are distinct ingredients, so
    an alias of one ingredient only yields a group that lists its slug
    twice. *)
Theorem generate_equivalences_groups_one_ingredient :
  ∃ g, generate_equivalences sample_one_myrrh = Ok [g]
       ∧ canonical_name g = "myrrh"%string
       ∧ confidence g = "high"%string
       ∧ slugs g = ["smyrna"; "smyrna"]%string
       ∧ eg_ingredients g = ["smyrna"; "smyrna"]%string
       ∧ length (ingredients sample_one_myrrh) = 1%nat.
Proof. eexists. split; [vm_compute; reflexivity|]. by split_and!. Qed.

(** *** The groups that are generated *)

Lemma dd_append_spec variant m dd :
  NoDup (map fst dd) →
  NoDup (map fst (dd_append variant m dd))
  ∧ (∀ k, k ∈ map fst (dd_append variant m dd) ↔
          k = variant ∨ k ∈ map fst dd)
  ∧ ∀ k ms, (k, ms) ∈ dd_append variant m dd ↔
      (k ≠ variant ∧ (k, ms) ∈ dd)
      ∨ (k = variant
         ∧ ∃ old, ms = old ++ [m]
                  ∧ ((variant, old) ∈ dd
                     ∨ (old = [] ∧ variant ∉ map fst dd))).
Proof.
  induction dd as [|[k0 ms0] dd IH]; intros Hnd; simpl.
  - split_and!.
    + repeat constructor. by intros ?%elem_of_nil.
    + intros k. rewrite list_elem_of_singleton, elem_of_nil. tauto.
    + intros k ms. rewrite list_elem_of_singleton. split.
      * intros [= -> ->]. right. split; [done|]. exists [].
        split; [done|]. right. split; [done|]. by intros ?%elem_of_nil.
      * intros [[_ H]|(-> & old & -> & [H|[-> _]])];
          [by apply elem_of_nil in H|by apply elem_of_nil in H|done].
  - apply NoDup_cons in Hnd as [Hk0 Hnd]. simpl in Hk0.
    destruct (decide (k0 = variant)) as [->|Hne]; simpl.
    + split_and!.
      * by apply NoDup_cons.
      * intros k. rewrite !elem_of_cons. tauto.
      * intros k ms. rewrite !elem_of_cons. split.
        -- intros [[= -> ->]|Hin].
           ++ right. split; [done|]. exists ms0. split; [done|].
              left. by left.
           ++ left. split; [|by right]. intros ->. apply Hk0.
              apply list_elem_of_fmap. by exists (variant, ms).
        -- intros [[Hk [[= -> ->]|Hin]]|(-> & old & -> & [Hold|[_ Hn]])].
           ++ done.
           ++ by right.
           ++ apply elem_of_cons in Hold as [[= ->]|Hold]; [by left|].
              exfalso. apply Hk0. apply list_elem_of_fmap.
              by exists (variant, old).
           ++ exfalso. apply Hn. by left.
    + destruct (IH Hnd) as (IHnd & IHdom & IHmem). split_and!.
      * apply NoDup_cons. split; [|done]. rewrite IHdom.
        intros [?|?]; done.
      * intros k. rewrite !elem_of_cons, IHdom. tauto.
      * intros k ms. rewrite !elem_of_cons, IHmem. split.
        -- intros [[= -> ->]|[[Hk Hin]|(-> & old & -> & [Hold|[-> Hn]])]].
           ++ left. split; [done|by left].
           ++ left. split; [done|by right].
           ++ right. split; [done|]. exists old. split; [done|].
              left. by right.
           ++ right. split; [done|]. exists []. split; [done|].
              right. split; [done|]. rewrite elem_of_cons. intros [?|?]; done.
        -- intros [[Hk [[= -> ->]|Hin]]|(-> & old & -> & [Hold|[-> Hn]])].
           ++ by left.
           ++ right. left. by split.
           ++ apply elem_of_cons in Hold as [[= -> ->]|Hold]; [done|].
              right. right. split; [done|]. exists old. split; [done|].
              by left.
           ++ right. right. split; [done|]. exists []. split; [done|].
              right. split; [done|]. intros Hin. apply Hn. by right.
Qed.

Lemma english_members_snoc by_id name als a :
  english_members by_id name (als ++ [a])
  = english_members by_id name als ++ english_members by_id name [a].
Proof. unfold english_members. by rewrite omap_app. Qed.

(** The dictionary built by the loop over the aliases. *)
Lemma english_aliases_spec by_id als :
  let dd := foldl (add_english_alias by_id) [] als in
  NoDup (map fst dd)
  ∧ ∀ name ms, (name, ms) ∈ dd ↔
      ms = english_members by_id name als ∧ ms ≠ [].
Proof.
  induction als as [|a als IH] using rev_ind; simpl.
  - split; [constructor|]. intros name ms. rewrite elem_of_nil.
    split; [done|]. by intros [-> ?].
  - rewrite foldl_app. simpl.
    set (dd := foldl (add_english_alias by_id) [] als) in *.
    destruct IH as [Hnd Hmem].
    assert (Hdom : ∀ name, name ∈ map fst dd ↔
                     english_members by_id name als ≠ []).
    { intros name. rewrite list_elem_of_fmap. split.
      - intros ([k ms] & -> & Hin). simpl. by apply Hmem in Hin as [<- ?].
      - intros Hne. exists (name, english_members by_id name als).
        split; [done|]. by apply Hmem. }
    assert (Hsame : ∀ name,
              english_members by_id name [a] = [] →
              ∀ ms, (name, ms) ∈ dd ↔
                ms = english_members by_id name (als ++ [a]) ∧ ms ≠ []).
    { intros name Hnil ms.
      by rewrite english_members_snoc, Hnil, app_nil_r. }
    unfold add_english_alias.
    destruct (decide (get (a_language a) = Some "en"%string)) as [Hen|Hen].
    2: { split; [done|]. intros name ms. apply Hsame.
         unfold english_members, english_variant. simpl.
         destruct (decide (get (a_language a) = Some "en"%string)); [done|].
         by destruct (decide (None = Some name)). }
    destruct (by_id !! a_ingredient_id a) as [ing|] eqn:Hing.
    2: { split; [done|]. intros name ms. apply Hsame.
         unfold english_members. simpl. rewrite Hing.
         by destruct (decide _). }
    set (variant := str_strip (str_lower (variant_label a))).
    set (m := Member (i_slug ing) (i_label ing)
                (get_or "unknown" (i_language ing))).
    assert (Hone : english_members by_id variant [a] = [m]).
    { unfold english_members, english_variant. simpl.
      destruct (decide (get (a_language a) = Some "en"%string)); [|done].
      fold variant. destruct (decide (Some variant = Some variant)); [|done].
      by rewrite Hing. }
    assert (Hother : ∀ name, name ≠ variant →
                       english_members by_id name [a] = []).
    { intros name Hne. unfold english_members, english_variant. simpl.
      destruct (decide (get (a_language a) = Some "en"%string)); [|done].
      fold variant.
      destruct (decide (Some variant = Some name)) as [[= ?]|]; [|done].
      by destruct Hne. }
    destruct (dd_append_spec variant m dd Hnd) as (Hnd' & _ & Hmem').
    split; [done|]. intros name ms. rewrite Hmem'. split.
    + intros [[Hne Hin]|(-> & old & -> & [Hold|[-> Hn]])].
      * by apply (Hsame name (Hother name Hne)).
      * rewrite english_members_snoc, Hone. apply Hmem in Hold as [<- _].
        split; [done|]. by destruct old.
      * rewrite english_members_snoc, Hone.
        rewrite Hdom in Hn.
        destruct (english_members by_id variant als); [done|].
        exfalso. by apply Hn.
    + intros [-> Hne]. destruct (decide (name = variant)) as [->|Hnv].
      * right. split; [done|]. rewrite english_members_snoc, Hone.
        exists (english_members by_id variant als). split; [done|].
        destruct (english_members by_id variant als) as [|m0 ms0] eqn:Hms.
        -- right. split; [done|]. rewrite Hdom, Hms. by intros ?.
        -- left. apply Hmem. by rewrite Hms.
      * left. split; [done|]. by apply (Hsame name (Hother name Hnv)).
Qed.

Lemma group_of_name name ms g :
  group_of name ms = Some g →
  (1 < length ms)%nat
  ∧ canonical_name g = name
  ∧ slugs g = map mb_slug ms
  ∧ eg_ingredients g = map mb_label ms
  ∧ (confidence g = "high"%string ↔ name ∈ well_known)
  ∧ (confidence g = "medium"%string ↔ name ∉ well_known).
Proof.
  unfold group_of. destruct (1 <? length ms)%nat eqn:Hlen; [|done].
  intros [= <-]. simpl. apply Nat.ltb_lt in Hlen.
  split_and!; [done|done|done|done| |];
    destruct (decide (name ∈ well_known)); split; done.
Qed.

Lemma groups_NoDup (dd : list (string * list member)) :
  NoDup (map fst dd) →
  NoDup (map canonical_name (omap (λ '(name, ms), group_of name ms) dd)).
Proof.
  induction dd as [|[name ms] dd IH]; intros Hnd; simpl; [constructor|].
  apply NoDup_cons in Hnd as [Hname Hnd]. simpl in Hname.
  destruct (group_of name ms) as [g|] eqn:Hg; [|by apply IH].
  simpl. apply NoDup_cons. split; [|by apply IH].
  intros Hin. apply list_elem_of_fmap in Hin as (g' & Heq & Hg').
  apply list_elem_of_omap in Hg' as ([name' ms'] & Hin' & Hg'').
  apply group_of_name in Hg as (_ & Hc & _).
  apply group_of_name in Hg'' as (_ & Hc' & _).
  apply Hname. apply list_elem_of_fmap. exists (name', ms').
  split; [|done]. simpl. congruence.
Qed.

(** X13. The groups that [generate_equivalences] returns: one group for
    each normalized English alias text that more than one alias row carries,
    with the slugs of the ingredients of these rows, and no other group. *)
Lemma generate_equivalences_spec master groups :
  generate_equivalences master = Ok groups →
  ∃ by_id,
    index_by_id (ingredients master) ∅ = Ok by_id
    ∧ NoDup (map canonical_name groups)
    ∧ ∀ g, g ∈ groups ↔
        ∃ name,
          (1 < length (english_members by_id name (aliases master)))%nat
          ∧ group_of name (english_members by_id name (aliases master))
            = Some g.
Proof.
  unfold generate_equivalences. intros Hrun. inv_bind Hrun as by_id Hid.
  injection Hrun as <-. exists by_id. split; [done|].
  destruct (english_aliases_spec by_id (aliases master)) as [Hnd Hmem].
  split.
  - rewrite py_sorted_perm. by apply groups_NoDup.
  - intros g. rewrite py_sorted_perm, list_elem_of_omap. split.
    + intros ([name ms] & Hin & Hg). apply Hmem in Hin as [-> _].
      exists name. split; [|done]. by apply group_of_name in Hg as [? _].
    + intros (name & Hlen & Hg).
      exists (name, english_members by_id name (aliases master)).
      split; [|done]. apply Hmem. split; [done|].
      intros Hnil. rewrite Hnil in Hlen. simpl in Hlen. lia.
Qed.

(** ** Validation *)

(** A diff with quality findings only validates. *)
Lemma validate_diff_quality_only :
  ∃ r, validate_diff sample_schema sample_diff_quality_only = Ok r
       ∧ ok r = true ∧ errors r = []
       ∧ warnings r
         = [EmptyAmounts 1;
            ShortLabels [("recipe", Some "k"); ("ingredient", Some "honey")]
           ]%string.
Proof. eexists. split; [vm_compute; reflexivity|]. by split_and!. Qed.

(** C5 fails on an item without [slug] key: the schema check records the
    missing field, and the check for duplicates that follows subscripts the
    item with ["slug"] and raises [KeyError]; [validate_diff] does not
    return. *)
Theorem validate_diff_missing_slug_raises :
  validate_json_schema sample_diff_missing_slug sample_schema
  = [MissingItemField "recipes" 0 "slug"]
  ∧ validate_diff sample_schema sample_diff_missing_slug
    = Raise (KeyError "slug").
Proof. split; vm_compute; reflexivity. Qed.

(** *** What the validator returns when it returns *)

Lemma filter_nil_iff {X} (P : X → Prop) `{∀ x, Decision (P x)} (l : list X) :
  filter P l = [] ↔ ∀ x, x ∈ l → ¬ P x.
Proof.
  induction l as [|y l IH]; simpl.
  - split; [|done]. intros _ x Hx. by apply elem_of_nil in Hx.
  - rewrite filter_cons. destruct (decide (P y)) as [Hy|Hy].
    + split; [done|]. intros Hall. exfalso.
      apply (Hall y); [by apply elem_of_cons; left|done].
    + rewrite IH. split.
      * intros Hall x Hx. apply elem_of_cons in Hx as [->|Hx]; auto.
      * intros Hall x Hx. apply Hall. by apply elem_of_cons; right.
Qed.

Lemma flat_map_nil_iff {X Y} (f : X → list Y) (l : list X) :
  flat_map f l = [] ↔ ∀ x, x ∈ l → f x = [].
Proof.
  induction l as [|y l IH]; simpl.
  - split; [|done]. intros _ x Hx. by apply elem_of_nil in Hx.
  - rewrite app_nil, IH. split.
    + intros [Hy Hall] x Hx. apply elem_of_cons in Hx as [->|Hx]; auto.
    + intros Hall. split; [apply Hall; by apply elem_of_cons; left|].
      intros x Hx. apply Hall. by apply elem_of_cons; right.
Qed.

Lemma map_nil_iff {X Y} (f : X → Y) (l : list X) : map f l = [] ↔ l = [].
Proof. by destruct l. Qed.

Section duplicates_facts.
Context {K : Type} `{EqDecision K}.

Lemma elem_of_counter_keys (x : K) l seen :
  x ∈ counter_keys l seen ↔ x ∈ l ∧ x ∉ seen.
Proof.
  revert seen. induction l as [|y l IH]; intros seen; simpl.
  - rewrite elem_of_nil. tauto.
  - destruct (decide (y ∈ seen)) as [Hin|Hnin].
    + rewrite IH, elem_of_cons. split; [tauto|].
      intros [[->|Hx] Hn]; [done|tauto].
    + rewrite !elem_of_cons, IH, elem_of_cons. split.
      * intros [->|[Hx Hn]]; [tauto|]. tauto.
      * intros [[->|Hx] Hn]; [tauto|].
        destruct (decide (x = y)) as [->|Hne]; [tauto|]. right. tauto.
Qed.

Lemma count_not_elem_of (x : K) l :
  x ∉ l → length (filter (λ y, y = x) l) = 0%nat.
Proof.
  intros Hx. replace (filter (λ y, y = x) l) with (@nil K); [done|].
  symmetry. apply filter_nil_iff. intros y Hy ->. done.
Qed.

Lemma count_elem_of (x : K) l :
  x ∈ l → (1 ≤ length (filter (λ y, y = x) l))%nat.
Proof.
  induction l as [|z l IH]; intros Hx; [by apply elem_of_nil in Hx|].
  rewrite filter_cons. destruct (decide (z = x)) as [->|Hne]; simpl; [lia|].
  apply IH. apply elem_of_cons in Hx as [->|Hx]; done.
Qed.

Lemma NoDup_count (l : list K) :
  NoDup l ↔ ∀ x, x ∈ l → ¬ (1 < length (filter (λ y, y = x) l))%nat.
Proof.
  induction l as [|z l IH].
  - split; [|constructor]. intros _ x Hx. by apply elem_of_nil in Hx.
  - rewrite NoDup_cons, IH. split.
    + intros [Hz Hall] x Hx. rewrite filter_cons.
      destruct (decide (z = x)) as [->|Hne]; simpl.
      * rewrite count_not_elem_of by done. lia.
      * apply Hall. apply elem_of_cons in Hx as [->|Hx]; done.
    + intros Hall. split.
      * intros Hz. apply (Hall z); [by apply elem_of_cons; left|].
        rewrite filter_cons, decide_True by done. simpl.
        pose proof (count_elem_of z l Hz). lia.
      * intros x Hx Hcount. apply (Hall x); [by apply elem_of_cons; right|].
        rewrite filter_cons. destruct (decide (z = x)); simpl; lia.
Qed.

(** The diff has no duplicate exactly when its slugs are distinct. *)
Lemma duplicates_nil (l : list K) : duplicates l = [] ↔ NoDup l.
Proof.
  unfold duplicates. rewrite filter_nil_iff, NoDup_count.
  split; intros Hall x Hx; apply Hall.
  - apply elem_of_counter_keys. split; [done|]. apply not_elem_of_nil.
  - by apply elem_of_counter_keys in Hx as [? _].
Qed.

End duplicates_facts.

Lemma comprehension_subscript key xs ys :
  comprehension (λ x, item_subscript x key) xs = Ok ys →
  ys = map (λ x, item_get x key) xs.
Proof.
  revert ys. induction xs as [|x xs IH]; intros ys Hrun; simpl in Hrun.
  - by inv_ok.
  - inv_bind Hrun as y Hy. inv_bind Hrun as ys' Hys. inv_ok. simpl.
    rewrite <- (IH _ Hys). f_equal.
    apply subscript_Ok in Hy. unfold item_get. by rewrite Hy.
Qed.

Lemma comprehension_entry_refs xs ys :
  comprehension
    (λ e, r ← item_subscript e "recipe_slug";
          i ← item_subscript e "ingredient_slug";
          Ok (r, i)) xs = Ok ys →
  map fst ys = map (λ e, item_get e "recipe_slug") xs
  ∧ map snd ys = map (λ e, item_get e "ingredient_slug") xs.
Proof.
  revert ys. induction xs as [|x xs IH]; intros ys Hrun; simpl in Hrun.
  - by inv_ok.
  - inv_bind Hrun as y Hy. inv_bind Hrun as ys' Hys. inv_ok.
    inv_bind Hy as r Hr. inv_bind Hy as i Hi. inv_ok. simpl.
    destruct (IH _ Hys) as [-> ->].
    apply subscript_Ok in Hr, Hi. unfold item_get. by rewrite Hr, Hi.
Qed.

Lemma validate_json_schema_nil s data :
  validate_json_schema data s = [] ↔ ¬ structural_error s data.
Proof.
  unfold validate_json_schema, structural_error.
  rewrite app_nil, map_nil_iff, filter_nil_iff, flat_map_nil_iff. split.
  - intros [Htop Hitems] [(field & Hf & Hk)
                         |[(sec & v & Hs & Hsec & Hv)
                          |(sec & items & x & field & Hs & Hsec & Hx & Hf
                            & Hnone)]].
    + apply (Htop field Hf). rewrite Hk. by intros [].
    + specialize (Hitems sec Hs). rewrite Hsec in Hitems.
      destruct v; try done. by apply (Hv items).
    + specialize (Hitems sec Hs). rewrite Hsec in Hitems.
      rewrite flat_map_nil_iff in Hitems.
      apply list_elem_of_lookup in Hx as [i Hi].
      specialize (Hitems (i, x)
                    (elem_of_lookup_imap_2 (λ i x, (i, x)) _ _ _ Hi)).
      simpl in Hitems. apply map_nil_iff in Hitems.
      rewrite filter_nil_iff in Hitems. by apply (Hitems field).
  - intros Hno. split.
    + intros field Hf Hk. apply Hno. left. exists field.
      split; [done|]. destruct (has_key data field); [|done].
      exfalso. by apply Hk.
    + intros sec Hs. destruct (section_of data sec) as [v|] eqn:Hsec;
        [|done].
      destruct v as [items| | | | | |];
        try (exfalso; apply Hno; right; left; eexists sec, _;
             by split_and!).
      apply flat_map_nil_iff. intros [i x] Hix.
      apply elem_of_lookup_imap_1 in Hix as (i' & x' & [= -> ->] & Hi).
      apply map_nil_iff, filter_nil_iff. intros field Hf Hnone.
      apply Hno. right. right. exists sec, items, x', field.
      split_and!; [done|done|by eapply list_elem_of_lookup_2|done|done].
Qed.

Lemma validate_json_schema_cons s data :
  validate_json_schema data s ≠ [] ↔ structural_error s data.
Proof.
  split; [|intros Hs Hnil; by apply validate_json_schema_nil in Hnil].
  destruct (validate_json_schema data s) as [|e es] eqn:Hv; [done|].
  intros _.
  assert (He : e ∈ validate_json_schema data s)
    by (rewrite Hv; by apply elem_of_cons; left).
  clear Hv. unfold validate_json_schema in He.
  apply elem_of_app in He as [He|He].
  - left. apply list_elem_of_fmap in He as (field & _ & Hf).
    apply list_elem_of_filter in Hf as [Hk Hf]. exists field.
    split; [done|]. destruct (has_key data field); [|done].
    exfalso. by apply Hk.
  - right. apply list_elem_of_In, in_flat_map in He as (sec & Hs & He).
    destruct (section_of data sec) as [v|] eqn:Hsec; [|done].
    destruct v as [items| | | | | |];
      try (left; eexists sec, _;
           by split_and!; [apply list_elem_of_In|done|]).
    right. exists sec.
    apply in_flat_map in He as ([i x] & Hix & He).
    apply list_elem_of_In, elem_of_lookup_imap_1 in Hix
      as (i' & x' & [= -> ->] & Hi).
    apply list_elem_of_In, list_elem_of_fmap in He as (field & _ & Hf).
    apply list_elem_of_filter in Hf as [Hnone Hf].
    exists items, x', field.
    split_and!; [by apply list_elem_of_In|done
                |by eapply list_elem_of_lookup_2|done|done].
Qed.

Lemma when_nil {E} (b : bool) (e : E) : when b e = [] ↔ b = false.
Proof. by destruct b. Qed.

Lemma comprehension_fmap {X X' Y} (h : X → X') (f : X' → result Y) xs :
  comprehension f (map h xs) = comprehension (λ x, f (h x)) xs.
Proof.
  induction xs as [|x xs IH]; [done|]. simpl. by rewrite IH.
Qed.

(** A loop whose body fails on strings returns only when it runs over an
    array, or over nothing. *)
Lemma for_in_Ok {Y} (sec : option section_value) (f : element → result Y)
    ys :
  (∀ s y, f (AString s) ≠ Ok y) →
  for_in (get_section sec) f = Ok ys →
  empty_or_array sec
  ∧ comprehension (λ x, f (AnItem x)) (items_of sec) = Ok ys.
Proof.
  intros Hf H. unfold for_in in H. inv_bind H as xs Hxs.
  destruct sec as [[items| | | | |s|keys]|]; simpl in Hxs;
    try discriminate Hxs; injection Hxs as <-.
  - split; [done|]. by rewrite comprehension_fmap in H.
  - destruct s as [|c s]; [by split|]. simpl in H.
    inv_bind H as y Hy. by destruct (Hf _ _ Hy).
  - destruct keys as [|k keys]; [by split|]. simpl in H.
    inv_bind H as y Hy. by destruct (Hf _ _ Hy).
  - by split.
Qed.

Lemma for_in_items {Y} (sec : option section_value)
    (f : element → result Y) :
  empty_or_array sec →
  for_in (get_section sec) f
  = comprehension (λ x, f (AnItem x)) (items_of sec).
Proof.
  unfold for_in. destruct sec as [[items| | | | |s|keys]|]; simpl;
    try done.
  - intros _. apply comprehension_fmap.
  - by intros ->.
  - by intros ->.
Qed.

(** X12. When [validate_diff] returns, it returns [ok = false] exactly when
    a required field is missing, a section is not an array, two recipes or
    two ingredients of the diff share a slug, or a reference does not resolve
    within the diff; the warnings and suggestions play no part. *)
Lemma validate_diff_verdict s data r :
  validate_diff s data = Ok r →
  ok r = bool_decide (errors r = [])
  ∧ (ok r = false ↔
       structural_error s data ∨ duplicate_slug data
       ∨ dangling_reference data).
Proof.
  unfold validate_diff. intros Hrun.
  inv_bind Hrun as n_r Hn_r. inv_bind Hrun as n_i Hn_i.
  inv_bind Hrun as n_a Hn_a. inv_bind Hrun as n_e Hn_e.
  inv_bind Hrun as recipe_slugs Hrs. inv_bind Hrun as ingredient_slugs His.
  inv_bind Hrun as alias_refs Har. inv_bind Hrun as entry_refs Her.
  inv_bind Hrun as placeholders Hpl.
  inv_bind Hrun as short_recipes Hsr. inv_bind Hrun as short_ings Hsi.
  inv_bind Hrun as non_ascii_ings Hna. injection Hrun as <-. simpl.
  split; [done|].
  apply for_in_Ok in Hrs as [_ Hrs]; [|done].
  apply for_in_Ok in His as [_ His]; [|done].
  apply for_in_Ok in Har as [_ Har]; [|done].
  apply for_in_Ok in Her as [_ Her]; [|done].
  apply comprehension_subscript in Hrs, His, Har.
  apply comprehension_entry_refs in Her as [Her1 Her2].
  rewrite bool_decide_eq_false, !app_nil, !when_nil, !negb_false_iff,
    !bool_decide_eq_true, !duplicates_nil, !filter_nil_iff,
    <- validate_json_schema_cons.
  rewrite Her1, Her2. subst recipe_slugs ingredient_slugs alias_refs.
  fold (slugs_of (items_of (raw_recipes data)))
    (slugs_of (items_of (raw_ingredients data))).
  unfold duplicate_slug, dangling_reference.
  split.
  - intros Hnot.
    destruct (validate_json_schema data s) as [|err errs] eqn:Hs;
      [|by left].
    destruct (decide (NoDup (slugs_of (items_of (raw_recipes data)))))
      as [Hdr|]; [|by right; left; left].
    destruct (decide (NoDup (slugs_of (items_of (raw_ingredients data)))))
      as [Hdi|]; [|by right; left; right].
    right. right.
    destruct (decide (Forall (λ a, item_get a "ingredient_slug"
                ∈ slugs_of (items_of (raw_ingredients data)))
                (items_of (raw_aliases data)))) as [Ha|Ha].
    2: { left. apply not_Forall_Exists in Ha; [|apply _].
         apply Exists_exists in Ha as (a & Hain & Hna').
         exists a. split; [done|exact Hna']. }
    destruct (decide (Forall (λ e, item_get e "recipe_slug"
                ∈ slugs_of (items_of (raw_recipes data)))
                (items_of (raw_entries data)))) as [He1|He1].
    2: { right. left. apply not_Forall_Exists in He1; [|apply _].
         apply Exists_exists in He1 as (e & Hein & Hne).
         exists e. split; [done|exact Hne]. }
    destruct (decide (Forall (λ e, item_get e "ingredient_slug"
                ∈ slugs_of (items_of (raw_ingredients data)))
                (items_of (raw_entries data)))) as [He2|He2].
    2: { right. right. apply not_Forall_Exists in He2; [|apply _].
         apply Exists_exists in He2 as (e & Hein & Hne).
         exists e. split; [done|exact Hne]. }
    exfalso. apply Hnot. split_and!; try done.
    + intros x Hx Hbad. apply list_elem_of_fmap in Hx as (a & -> & Hain).
      apply Hbad. apply elem_of_list_to_set.
      by apply (proj1 (Forall_forall _ _) Ha).
    + intros x Hx Hbad. apply list_elem_of_fmap in Hx as (e & -> & Hein).
      apply Hbad. apply elem_of_list_to_set.
      by apply (proj1 (Forall_forall _ _) He1).
    + intros x Hx Hbad. apply list_elem_of_fmap in Hx as (e & -> & Hein).
      apply Hbad. apply elem_of_list_to_set.
      by apply (proj1 (Forall_forall _ _) He2).
  - intros Hcase (Hs & Hdr & Hdi & Ha & He1 & He2).
    destruct Hcase as [?|[[?|?]|[(a & Hain & Hbad)|[(e & Hein & Hbad)
                                                   |(e & Hein & Hbad)]]]];
      try done.
    + apply (Ha (item_get a "ingredient_slug")).
      * apply list_elem_of_fmap. by exists a.
      * by rewrite elem_of_list_to_set.
    + apply (He1 (item_get e "recipe_slug")).
      * apply list_elem_of_fmap. by exists e.
      * by rewrite elem_of_list_to_set.
    + apply (He2 (item_get e "ingredient_slug")).
      * apply list_elem_of_fmap. by exists e.
      * by rewrite elem_of_list_to_set.
Qed.

(** ** What a merge keeps *)

(** A loop that leaves the rows alone or appends one row at a time: the rows
    it returns are the rows it was given followed by the appended ones, and
    each appended row satisfies, with respect to the rows before it, what the
    step that appended it establishes. *)
Lemma for_each_grows {S X E R} (body : S → X → result (S * list E))
    (rows : S → list R) (Inv : S → Prop) (Q : list R → R → Prop) xs :
  (∀ st x st' out, x ∈ xs → Inv st → body st x = Ok (st', out) →
     Inv st'
     ∧ (rows st' = rows st
        ∨ ∃ new, rows st' = rows st ++ [new] ∧ Q (rows st) new)) →
  ∀ st st' out, Inv st → for_each body xs st = Ok (st', out) →
    Inv st'
    ∧ ∃ added, rows st' = rows st ++ added
        ∧ ∀ pre new post, added = pre ++ new :: post →
            Q (rows st ++ pre) new.
Proof.
  induction xs as [|x xs IH]; intros Hstep st st' out HI Hrun.
  - simpl in Hrun. inv_ok. split; [done|]. exists [].
    rewrite app_nil_r. split; [done|]. intros pre new post H.
    by destruct pre.
  - simpl in Hrun. inv_bind Hrun as [st1 out1] Hx.
    inv_bind Hrun as [st2 out2] Hxs. inv_ok.
    destruct (Hstep _ _ _ _ (list_elem_of_here _ _) HI Hx) as [HI1 Hrows].
    destruct (IH (λ st x st' out Hin, Hstep st x st' out
                    (list_elem_of_further _ _ _ Hin)) _ _ _ HI1 Hxs)
      as (HI2 & added & Hadd & HQ).
    split; [done|].
    destruct Hrows as [Heq|(new & Heq & Hnew)].
    + exists added. rewrite <- Heq. by split.
    + exists (new :: added). rewrite Hadd, Heq, <- app_assoc.
      split; [done|]. intros pre new' post H.
      destruct pre as [|p pre]; simpl in H.
      * injection H as <- <-. by rewrite app_nil_r.
      * injection H as <- ->. specialize (HQ pre new' post eq_refl).
        by rewrite Heq, <- app_assoc in HQ.
Qed.

(** The rows appended by each step of a merge. *)
Lemma merge_recipe_grows xs rows0 rows' m' out :
  for_each merge_recipe xs (rows0, idx_by r_slug rows0) = Ok (rows', m', out) →
  m' = idx_by r_slug rows'
  ∧ ∃ added, rows' = rows0 ++ added
      ∧ ∀ pre new post, added = pre ++ new :: post →
          ∃ x, x ∈ xs ∧ (r_slug x ∉ map r_slug (rows0 ++ pre))
               ∧ new = with_recipe_id (next_id (rows0 ++ pre) recipe_id) x.
Proof.
  intros Hrun.
  apply (for_each_grows merge_recipe fst (λ st, st.2 = idx_by r_slug st.1)
           (λ rows new, ∃ x, x ∈ xs ∧ (r_slug x ∉ map r_slug rows)
              ∧ new = with_recipe_id (next_id rows recipe_id) x)) in Hrun;
    [done| |done].
  intros [rows m] x st' out' Hx HI Hstep. simpl in HI. subst m.
  unfold merge_recipe in Hstep.
  destruct (idx_by r_slug rows !! r_slug x) as [existing|] eqn:Hl.
  - inv_bind Hstep as id Hid. inv_ok. split; [done|]. by left.
  - inv_ok. simpl. split.
    + rewrite idx_by_snoc. done.
    + right. eexists. split; [done|]. exists x. split_and!; [done| |done].
      intros Hin. apply idx_by_dom in Hin. rewrite Hl in Hin.
      by destruct Hin.
Qed.

Lemma merge_ingredient_grows xs rows0 rows' m' out :
  for_each merge_ingredient xs (rows0, idx_by i_slug rows0)
  = Ok (rows', m', out) →
  m' = idx_by i_slug rows'
  ∧ ∃ added, rows' = rows0 ++ added
      ∧ ∀ pre new post, added = pre ++ new :: post →
          ∃ x, x ∈ xs ∧ (i_slug x ∉ map i_slug (rows0 ++ pre))
               ∧ new
                 = with_ingredient_id (next_id (rows0 ++ pre) ingredient_id) x.
Proof.
  intros Hrun.
  apply (for_each_grows merge_ingredient fst
           (λ st, st.2 = idx_by i_slug st.1)
           (λ rows new, ∃ x, x ∈ xs ∧ (i_slug x ∉ map i_slug rows)
              ∧ new = with_ingredient_id (next_id rows ingredient_id) x))
    in Hrun; [done| |done].
  intros [rows m] x st' out' Hx HI Hstep. simpl in HI. subst m.
  unfold merge_ingredient in Hstep.
  destruct (idx_by i_slug rows !! i_slug x) as [existing|] eqn:Hl.
  - inv_bind Hstep as id Hid. inv_ok. split; [done|]. by left.
  - inv_ok. simpl. split.
    + rewrite idx_by_snoc. done.
    + right. eexists. split; [done|]. exists x. split_and!; [done| |done].
      intros Hin. apply idx_by_dom in Hin. rewrite Hl in Hin.
      by destruct Hin.
Qed.

Lemma merge_alias_grows ibs xs rows0 rows' seen' out :
  for_each (merge_alias ibs) xs (rows0, list_to_set (map alias_key rows0))
  = Ok (rows', seen', out) →
  ∃ added, rows' = rows0 ++ added
    ∧ ∀ pre new post, added = pre ++ new :: post →
        ∃ a ing, a ∈ xs ∧ ibs !! da_ingredient_slug a = Some ing
          ∧ ingredient_id ing = Some (a_ingredient_id new)
          ∧ variant_label new = da_variant_label a
          ∧ alias_id new = Some (next_id (rows0 ++ pre) alias_id)
          ∧ alias_key new ∉ map alias_key (rows0 ++ pre).
Proof.
  intros Hrun.
  apply (for_each_grows (merge_alias ibs) fst
           (λ st, st.2 = list_to_set (map alias_key st.1))
           (λ rows new, ∃ a ing, a ∈ xs
              ∧ ibs !! da_ingredient_slug a = Some ing
              ∧ ingredient_id ing = Some (a_ingredient_id new)
              ∧ variant_label new = da_variant_label a
              ∧ alias_id new = Some (next_id rows alias_id)
              ∧ alias_key new ∉ map alias_key rows)) in Hrun;
    [by destruct Hrun| |done].
  intros [rows seen] a st' out' Ha HI Hstep. simpl in HI. subst seen.
  unfold merge_alias in Hstep.
  destruct (ibs !! da_ingredient_slug a) as [ing|] eqn:Hing.
  2: { inv_ok. split; [done|]. by left. }
  inv_bind Hstep as iid Hiid. inv_ok.
  destruct (decide _) as [Hin|Hnin]; inv_ok; simpl.
  - split; [done|]. by left.
  - split.
    + rewrite map_app, list_to_set_app_L. simpl.
      rewrite union_empty_r_L. apply (comm_L (∪)).
    + right. eexists. split; [done|]. exists a, ing. simpl.
      split_and!; [done..|].
      intros Hk. apply Hnin. by apply elem_of_list_to_set.
Qed.

Lemma merge_entry_grows utcnow rbs ibs by_whom xs st st' out :
  for_each (merge_entry utcnow rbs ibs by_whom) xs st = Ok (st', out) →
  ∃ added, st'.1.1 = st.1.1 ++ added
    ∧ ∀ pre new post, added = pre ++ new :: post →
        ∃ e r i, e ∈ xs
          ∧ rbs !! de_recipe_slug e = Some r
          ∧ ibs !! de_ingredient_slug e = Some i
          ∧ recipe_id r = Some (e_recipe_id new)
          ∧ ingredient_id i = Some (e_ingredient_id new)
          ∧ entry_id new = Some (next_id (st.1.1 ++ pre) entry_id)
          ∧ added_by new = Text by_whom
          ∧ coalesce (amount_raw new) = coalesce (de_amount_raw e)
          ∧ coalesce (preparation new) = coalesce (de_preparation e).
Proof.
  intros Hrun.
  apply (for_each_grows (merge_entry utcnow rbs ibs by_whom)
           (λ st, st.1.1) (λ _, True)
           (λ rows new, ∃ e r i, e ∈ xs
              ∧ rbs !! de_recipe_slug e = Some r
              ∧ ibs !! de_ingredient_slug e = Some i
              ∧ recipe_id r = Some (e_recipe_id new)
              ∧ ingredient_id i = Some (e_ingredient_id new)
              ∧ entry_id new = Some (next_id rows entry_id)
              ∧ added_by new = Text by_whom
              ∧ coalesce (amount_raw new) = coalesce (de_amount_raw e)
              ∧ coalesce (preparation new) = coalesce (de_preparation e)))
    in Hrun;
    [by destruct Hrun| |done].
  intros [[rows seen] calls] e st1 out' He _ Hstep.
  unfold merge_entry in Hstep.
  destruct (rbs !! de_recipe_slug e) as [r|] eqn:Hr.
  2: { inv_ok. split; [done|]. by left. }
  destruct (ibs !! de_ingredient_slug e) as [i|] eqn:Hi.
  2: { inv_ok. split; [done|]. by left. }
  inv_bind Hstep as rid Hrid. inv_bind Hstep as iid Hiid. inv_ok.
  destruct (decide _) as [Hin|Hnin]; inv_ok; simpl.
  - split; [done|]. by left.
  - split; [done|]. right. eexists. split; [done|]. exists e, r, i. simpl.
    split_and!; try done.
    + by destruct (de_amount_raw e).
    + by destruct (de_preparation e).
Qed.

(** The four loops of a merge, with the slug indexes that steps 3 and 4
    use. *)
Lemma merge_inv utcnow master d by_whom m' out :
  merge utcnow master d by_whom = Ok (m', out) →
  ∃ out_r out_i seen_a out_a st_e out_e,
    for_each merge_recipe (d_recipes d)
      (recipes master, idx_by r_slug (recipes master))
    = Ok (recipes m', idx_by r_slug (recipes m'), out_r)
    ∧ for_each merge_ingredient (d_ingredients d)
        (ingredients master, idx_by i_slug (ingredients master))
      = Ok (ingredients m', idx_by i_slug (ingredients m'), out_i)
    ∧ for_each (merge_alias (idx_by i_slug (ingredients m'))) (d_aliases d)
        (aliases master, list_to_set (map alias_key (aliases master)))
      = Ok (aliases m', seen_a, out_a)
    ∧ for_each
        (merge_entry utcnow (idx_by r_slug (recipes m'))
           (idx_by i_slug (ingredients m')) by_whom)
        (d_entries d)
        (entries master, list_to_set (map seen_key (entries master)), 0%nat)
      = Ok (st_e, out_e)
    ∧ st_e.1.1 = entries m'
    ∧ out = out_r ++ out_i ++ out_a ++ out_e.
Proof.
  unfold merge. intros H.
  inv_bind H as [[rows_r rbs] out_r] Hr.
  inv_bind H as [[rows_i ibs] out_i] Hi.
  inv_bind H as [[rows_a seen_a] out_a] Ha.
  inv_bind H as [[[rows_e seen_e] calls] out_e] He.
  injection H as <- <-. simpl.
  destruct (merge_recipe_grows _ _ _ _ _ Hr) as [-> _].
  destruct (merge_ingredient_grows _ _ _ _ _ Hi) as [-> _].
  by exists out_r, out_i, seen_a, out_a, (rows_e, seen_e, calls), out_e.
Qed.

(** The alias and entry rows that a merge appends, field by field. *)
Lemma merge_alias_rows ibs xs st st' out :
  for_each (merge_alias ibs) xs st = Ok (st', out) →
  ∃ added, st'.1 = st.1 ++ added
    ∧ ∀ pre new post, added = pre ++ new :: post →
        ∃ a ing iid, a ∈ xs
          ∧ ibs !! da_ingredient_slug a = Some ing
          ∧ ingredient_id ing = Some iid
          ∧ new = alias_row (next_id (st.1 ++ pre) alias_id) iid a.
Proof.
  intros Hrun.
  apply (for_each_grows (merge_alias ibs) fst (λ _, True)
           (λ rows new, ∃ a ing iid, a ∈ xs
              ∧ ibs !! da_ingredient_slug a = Some ing
              ∧ ingredient_id ing = Some iid
              ∧ new = alias_row (next_id rows alias_id) iid a)) in Hrun;
    [by destruct Hrun| |done].
  intros [rows seen] a st1 out' Ha _ Hstep.
  unfold merge_alias in Hstep.
  destruct (ibs !! da_ingredient_slug a) as [ing|] eqn:Hing.
  2: { inv_ok. split; [done|]. by left. }
  inv_bind Hstep as iid Hiid. apply subscript_Ok in Hiid.
  destruct (decide _) as [Hin|Hnin]; inv_ok; simpl.
  - split; [done|]. by left.
  - split; [done|]. right. eexists. split; [done|]. by exists a, ing, iid.
Qed.

Lemma merge_entry_rows utcnow rbs ibs by_whom xs rows0 seen st' out :
  for_each (merge_entry utcnow rbs ibs by_whom) xs (rows0, seen, 0%nat)
  = Ok (st', out) →
  ∃ added, st'.1.1 = rows0 ++ added
    ∧ ∀ pre new post, added = pre ++ new :: post →
        ∃ e r i rid iid, e ∈ xs
          ∧ rbs !! de_recipe_slug e = Some r
          ∧ recipe_id r = Some rid
          ∧ ibs !! de_ingredient_slug e = Some i
          ∧ ingredient_id i = Some iid
          ∧ new = entry_row (next_id (rows0 ++ pre) entry_id) rid iid
                    (utcnow (length pre)) by_whom e.
Proof.
  intros Hrun.
  apply (for_each_grows (merge_entry utcnow rbs ibs by_whom)
           (λ st, st.1.1)
           (λ st, (st.2 + length rows0 = length st.1.1)%nat)
           (λ rows new, ∃ e r i rid iid, e ∈ xs
              ∧ rbs !! de_recipe_slug e = Some r
              ∧ recipe_id r = Some rid
              ∧ ibs !! de_ingredient_slug e = Some i
              ∧ ingredient_id i = Some iid
              ∧ new = entry_row (next_id rows entry_id) rid iid
                        (utcnow (length rows - length rows0)%nat) by_whom e))
    in Hrun; [| |done].
  - destruct Hrun as (_ & added & Hadd & Hnew). exists added.
    split; [done|]. intros pre new post Heq.
    destruct (Hnew _ _ _ Heq) as (e & r & i & rid & iid & H).
    exists e, r, i, rid, iid. simpl in H.
    rewrite length_app in H.
    by replace (length rows0 + length pre - length rows0)%nat
      with (length pre) in H by lia.
  - intros [[rows seen1] calls] e st1 out' He HI Hstep. simpl in HI.
    unfold merge_entry in Hstep.
    destruct (rbs !! de_recipe_slug e) as [r|] eqn:Hr.
    2: { inv_ok. split; [done|]. by left. }
    destruct (ibs !! de_ingredient_slug e) as [i|] eqn:Hi.
    2: { inv_ok. split; [done|]. by left. }
    inv_bind Hstep as rid Hrid. inv_bind Hstep as iid Hiid.
    apply subscript_Ok in Hrid, Hiid.
    destruct (decide _) as [Hin|Hnin]; inv_ok; simpl.
    + split; [done|]. by left.
    + split; [rewrite length_app; simpl; lia|]. right. eexists.
      split; [done|]. exists e, r, i, rid, iid.
      replace (length rows - length rows0)%nat with calls by lia.
      by split_and!.
Qed.

(** X1. A merge that completes only appends, and what it appends is taken
    from the diff.  In each of the four sections the rows of the corpus come
    first, unchanged and in their order.  Every recipe (ingredient) that
    follows is a recipe (ingredient) of the diff whose slug no earlier row
    has, with the next identifier unless it brings its own.  Every alias
    that follows is made of an alias of the diff, for the row of the merged
    corpus that carries its ingredient slug, and every entry that follows is
    made of an entry of the diff, for the rows that carry its recipe and
    ingredient slugs; they have the next identifier, the fields of the diff
    item with missing keys stored as [null] and, for entries, the name of
    the merger and the time of the clock at its next call. *)
Theorem merge_appends_only utcnow master d by_whom m' out :
  merge utcnow master d by_whom = Ok (m', out) →
  ∃ added_r added_i added_a added_e,
    recipes m' = recipes master ++ added_r
    ∧ ingredients m' = ingredients master ++ added_i
    ∧ aliases m' = aliases master ++ added_a
    ∧ entries m' = entries master ++ added_e
    ∧ (∀ pre new post, added_r = pre ++ new :: post →
         ∃ x, x ∈ d_recipes d
           ∧ (r_slug x ∉ map r_slug (recipes master ++ pre))
           ∧ new = with_recipe_id
                     (next_id (recipes master ++ pre) recipe_id) x)
    ∧ (∀ pre new post, added_i = pre ++ new :: post →
         ∃ x, x ∈ d_ingredients d
           ∧ (i_slug x ∉ map i_slug (ingredients master ++ pre))
           ∧ new = with_ingredient_id
                     (next_id (ingredients master ++ pre) ingredient_id) x)
    ∧ (∀ pre new post, added_a = pre ++ new :: post →
         ∃ a ing iid, a ∈ d_aliases d
           ∧ ing ∈ ingredients m'
           ∧ i_slug ing = da_ingredient_slug a
           ∧ ingredient_id ing = Some iid
           ∧ new = alias_row (next_id (aliases master ++ pre) alias_id)
                     iid a)
    ∧ (∀ pre new post, added_e = pre ++ new :: post →
         ∃ e r i rid iid, e ∈ d_entries d
           ∧ r ∈ recipes m'
           ∧ r_slug r = de_recipe_slug e
           ∧ recipe_id r = Some rid
           ∧ i ∈ ingredients m'
           ∧ i_slug i = de_ingredient_slug e
           ∧ ingredient_id i = Some iid
           ∧ new = entry_row (next_id (entries master ++ pre) entry_id)
                     rid iid (utcnow (length pre)) by_whom e).
Proof.
  intros H. apply merge_inv in H
    as (out_r & out_i & seen_a & out_a & st_e & out_e
        & Hr & Hi & Ha & He & Hst & _).
  apply merge_recipe_grows in Hr as (_ & added_r & Hr & Hnew_r).
  apply merge_ingredient_grows in Hi as (_ & added_i & Hi & Hnew_i).
  apply merge_alias_rows in Ha as (added_a & Ha & Hnew_a).
  apply merge_entry_rows in He as (added_e & He & Hnew_e).
  rewrite Hst in He. simpl in Ha, Hnew_a.
  exists added_r, added_i, added_a, added_e.
  split_and!; [done|done|done|done|done|done| |].
  - intros pre new post Hadd.
    destruct (Hnew_a _ _ _ Hadd) as (a & ing & iid & Hin & Hl & Hid & Hnew).
    apply idx_by_lookup in Hl as [Hing Hslug].
    by exists a, ing, iid.
  - intros pre new post Hadd.
    destruct (Hnew_e _ _ _ Hadd)
      as (e & r & i & rid & iid & Hin & Hlr & Hrid & Hli & Hiid & Hnew).
    apply idx_by_lookup in Hlr as [Hr_in Hr_slug].
    apply idx_by_lookup in Hli as [Hi_in Hi_slug].
    by exists e, r, i, rid, iid.
Qed.

Lemma merge_appends_only_witness :
  ∃ m' out added_e,
    merge sample_clock sample_corpus sample_diff_new_recipe "gpt"
    = Ok (m', out)
    ∧ entries m' = entries sample_corpus ++ added_e.
Proof.
  destruct (merge sample_clock sample_corpus sample_diff_new_recipe "gpt")
    as [[m' out]|] eqn:Hrun; [|by vm_compute in Hrun].
  destruct (merge_appends_only _ _ _ _ _ _ Hrun)
    as (added_r & added_i & added_a & added_e & _ & _ & _ & He & _).
  exists m', out, added_e. exact (conj eq_refl He).
Defined.

Lemma grows_NoDup {R K} (f : R → K) rows added :
  (∀ pre new post, added = pre ++ new :: post →
     f new ∉ map f (rows ++ pre)) →
  NoDup (map f rows) → NoDup (map f (rows ++ added)).
Proof.
  induction added as [|x added IH] using rev_ind; intros HQ Hnd.
  - by rewrite app_nil_r.
  - rewrite app_assoc, map_app. apply NoDup_app. split_and!.
    + apply IH; [|done]. intros pre new post ->.
      apply (HQ pre new (post ++ [x])). by rewrite <- app_assoc.
    + intros y Hy Hx. simpl in Hx. apply list_elem_of_singleton in Hx as ->.
      by apply (HQ added x [] eq_refl).
    + simpl. apply NoDup_singleton.
Qed.

Lemma grows_fresh_ids {R} (key : R → option Z) rows added :
  (∀ pre new post, added = pre ++ new :: post →
     key new = Some (next_id (rows ++ pre) key)) →
  NoDup (omap key rows) → NoDup (omap key (rows ++ added)).
Proof.
  induction added as [|x added IH] using rev_ind; intros HQ Hnd.
  - by rewrite app_nil_r.
  - rewrite app_assoc, omap_app. simpl.
    rewrite (HQ added x [] eq_refl). simpl. apply NoDup_app. split_and!.
    + apply IH; [|done]. intros pre new post ->.
      apply (HQ pre new (post ++ [x])). by rewrite <- app_assoc.
    + intros y Hy Hx. apply list_elem_of_singleton in Hx as ->.
      apply list_elem_of_omap in Hy as (r & Hr & Hk).
      pose proof (next_id_gt key _ r _ Hr Hk). lia.
    + apply NoDup_singleton.
Qed.

Lemma with_recipe_id_slug n x : r_slug (with_recipe_id n x) = r_slug x.
Proof. unfold with_recipe_id. by destruct (recipe_id x). Qed.

Lemma with_ingredient_id_slug n x :
  i_slug (with_ingredient_id n x) = i_slug x.
Proof. unfold with_ingredient_id. by destruct (ingredient_id x). Qed.

(** X2. A merge that completes keeps the natural keys unique: when no two
    recipes (ingredients) of the corpus share a slug, none do afterwards, and
    when no two aliases share their ingredient and variant label, none do
    afterwards, whatever the diff repeats. *)
Theorem merge_keeps_keys_unique utcnow master d by_whom m' out :
  merge utcnow master d by_whom = Ok (m', out) →
  (NoDup (map r_slug (recipes master)) → NoDup (map r_slug (recipes m')))
  ∧ (NoDup (map i_slug (ingredients master)) →
     NoDup (map i_slug (ingredients m')))
  ∧ (NoDup (map alias_key (aliases master)) →
     NoDup (map alias_key (aliases m'))).
Proof.
  intros H. apply merge_inv in H
    as (out_r & out_i & seen_a & out_a & st_e & out_e
        & Hr & Hi & Ha & _).
  apply merge_recipe_grows in Hr as (_ & added_r & -> & Hr).
  apply merge_ingredient_grows in Hi as (_ & added_i & -> & Hi).
  apply merge_alias_grows in Ha as (added_a & -> & Ha).
  split_and!; apply grows_NoDup; intros pre new post Hadd.
  - destruct (Hr _ _ _ Hadd) as (x & _ & Hx & ->).
    by rewrite with_recipe_id_slug.
  - destruct (Hi _ _ _ Hadd) as (x & _ & Hx & ->).
    by rewrite with_ingredient_id_slug.
  - by destruct (Ha _ _ _ Hadd) as (a & ing & _ & _ & _ & _ & _ & ?).
Qed.

Lemma merge_keeps_keys_unique_witness :
  ∃ m' out,
    merge sample_clock sample_corpus sample_diff_new_recipe "gpt"
    = Ok (m', out)
    ∧ NoDup (map i_slug (ingredients m')).
Proof.
  destruct (merge sample_clock sample_corpus sample_diff_new_recipe "gpt")
    as [[m' out]|] eqn:Hrun; [|by vm_compute in Hrun].
  exists m', out. split; [done|].
  destruct (merge_keeps_keys_unique _ _ _ _ _ _ Hrun) as (_ & Hi & _).
  apply Hi. simpl. apply NoDup_singleton.
Defined.

Lemma merge_recipe_dom xs st st' out :
  for_each merge_recipe xs st = Ok (st', out) →
  ∀ s, is_Some (st'.2 !! s) ↔ is_Some (st.2 !! s) ∨ s ∈ map r_slug xs.
Proof.
  revert st st' out. induction xs as [|x xs IH]; intros st st' out Hrun s.
  - simpl in Hrun. inv_ok. simpl. rewrite elem_of_nil. tauto.
  - simpl in Hrun. inv_bind Hrun as [st1 out1] Hx.
    inv_bind Hrun as [st2 out2] Hxs. inv_ok.
    rewrite (IH _ _ _ Hxs s). simpl. rewrite elem_of_cons.
    destruct st as [rows m]. unfold merge_recipe in Hx.
    destruct (m !! r_slug x) as [existing|] eqn:Hl.
    + inv_bind Hx as id Hid. inv_ok. simpl. split; [tauto|].
      intros [?|[->|?]]; [tauto| |tauto]. left. rewrite Hl. by eexists.
    + inv_ok. simpl. rewrite with_recipe_id_slug.
      destruct (decide (r_slug x = s)) as [<-|Hne].
      * rewrite lookup_insert_eq. split; [|by intros; left; eexists].
        intros _. right. by left.
      * rewrite lookup_insert_ne by done. split; [tauto|].
        intros [?|[?|?]]; [tauto|congruence|tauto].
Qed.

Lemma merge_ingredient_dom xs st st' out :
  for_each merge_ingredient xs st = Ok (st', out) →
  ∀ s, is_Some (st'.2 !! s) ↔ is_Some (st.2 !! s) ∨ s ∈ map i_slug xs.
Proof.
  revert st st' out. induction xs as [|x xs IH]; intros st st' out Hrun s.
  - simpl in Hrun. inv_ok. simpl. rewrite elem_of_nil. tauto.
  - simpl in Hrun. inv_bind Hrun as [st1 out1] Hx.
    inv_bind Hrun as [st2 out2] Hxs. inv_ok.
    rewrite (IH _ _ _ Hxs s). simpl. rewrite elem_of_cons.
    destruct st as [rows m]. unfold merge_ingredient in Hx.
    destruct (m !! i_slug x) as [existing|] eqn:Hl.
    + inv_bind Hx as id Hid. inv_ok. simpl. split; [tauto|].
      intros [?|[->|?]]; [tauto| |tauto]. left. rewrite Hl. by eexists.
    + inv_ok. simpl. rewrite with_ingredient_id_slug.
      destruct (decide (i_slug x = s)) as [<-|Hne].
      * rewrite lookup_insert_eq. split; [|by intros; left; eexists].
        intros _. right. by left.
      * rewrite lookup_insert_ne by done. split; [tauto|].
        intros [?|[?|?]]; [tauto|congruence|tauto].
Qed.

(** X3. After a merge that completes, the recipe slugs of the corpus are
    exactly the recipe slugs that the corpus had or the diff brings, and
    likewise for the ingredients: no recipe or ingredient of the diff is
    lost, and no slug is invented. *)
Theorem merge_slugs_exactly_known utcnow master d by_whom m' out :
  merge utcnow master d by_whom = Ok (m', out) →
  (∀ s, s ∈ map r_slug (recipes m') ↔ known_recipe_slug master d s)
  ∧ (∀ s, s ∈ map i_slug (ingredients m') ↔ known_ingredient_slug master d s).
Proof.
  intros H. apply merge_inv in H
    as (out_r & out_i & seen_a & out_a & st_e & out_e
        & Hr & Hi & _).
  split; intros s.
  - rewrite <- (idx_by_dom r_slug (recipes m')).
    rewrite (merge_recipe_dom _ _ _ _ Hr s). simpl.
    by rewrite idx_by_dom.
  - rewrite <- (idx_by_dom i_slug (ingredients m')).
    rewrite (merge_ingredient_dom _ _ _ _ Hi s). simpl.
    by rewrite idx_by_dom.
Qed.

Lemma merge_slugs_exactly_known_witness :
  ∃ m' out,
    merge sample_clock sample_corpus sample_diff_new_recipe "gpt"
    = Ok (m', out)
    ∧ "kyphi-16"%string ∈ map r_slug (recipes m').
Proof.
  destruct (merge sample_clock sample_corpus sample_diff_new_recipe "gpt")
    as [[m' out]|] eqn:Hrun; [|by vm_compute in Hrun].
  exists m', out. split; [done|].
  apply (proj1 (merge_slugs_exactly_known _ _ _ _ _ _ Hrun)).
  right. simpl. by apply list_elem_of_singleton.
Defined.

(** X4. A merge that completes allocates fresh identifiers.  When no two
    aliases of the corpus share an identifier, no two do afterwards, and
    likewise for the entries, whatever the diff contains.  For the recipes
    (ingredients) the same holds when the recipes (ingredients) of the diff
    bring no identifier of their own. *)
Theorem merge_allocates_fresh_ids utcnow master d by_whom m' out :
  merge utcnow master d by_whom = Ok (m', out) →
  ((∀ r, r ∈ d_recipes d → recipe_id r = None) →
   NoDup (omap recipe_id (recipes master)) →
   NoDup (omap recipe_id (recipes m')))
  ∧ ((∀ i, i ∈ d_ingredients d → ingredient_id i = None) →
     NoDup (omap ingredient_id (ingredients master)) →
     NoDup (omap ingredient_id (ingredients m')))
  ∧ (NoDup (omap alias_id (aliases master)) →
     NoDup (omap alias_id (aliases m')))
  ∧ (NoDup (omap entry_id (entries master)) →
     NoDup (omap entry_id (entries m'))).
Proof.
  intros H. apply merge_inv in H
    as (out_r & out_i & seen_a & out_a & st_e & out_e
        & Hr & Hi & Ha & He & Hst & _).
  apply merge_recipe_grows in Hr as (_ & added_r & -> & Hr).
  apply merge_ingredient_grows in Hi as (_ & added_i & -> & Hi).
  apply merge_alias_grows in Ha as (added_a & -> & Ha).
  apply merge_entry_grows in He as (added_e & He & Hnew).
  rewrite Hst in He. simpl in He, Hnew. rewrite He.
  split_and!.
  - intros Hdr. apply grows_fresh_ids. intros pre new post Hadd.
    destruct (Hr _ _ _ Hadd) as (x & Hx & _ & ->).
    unfold with_recipe_id. by rewrite (Hdr x Hx).
  - intros Hdi. apply grows_fresh_ids. intros pre new post Hadd.
    destruct (Hi _ _ _ Hadd) as (x & Hx & _ & ->).
    unfold with_ingredient_id. by rewrite (Hdi x Hx).
  - apply grows_fresh_ids. intros pre new post Hadd.
    by destruct (Ha _ _ _ Hadd) as (a & ing & _ & _ & _ & _ & ? & _).
  - apply grows_fresh_ids. intros pre new post Hadd.
    by destruct (Hnew _ _ _ Hadd) as (e & r & i & _ & _ & _ & _ & _ & ? & _).
Qed.

Lemma merge_allocates_fresh_ids_witness :
  ∃ m' out,
    merge sample_clock sample_corpus sample_diff_new_recipe "gpt"
    = Ok (m', out)
    ∧ NoDup (omap recipe_id (recipes m'))
    ∧ NoDup (omap entry_id (entries m')).
Proof.
  destruct (merge sample_clock sample_corpus sample_diff_new_recipe "gpt")
    as [[m' out]|] eqn:Hrun; [|by vm_compute in Hrun].
  exists m', out. split; [done|].
  destruct (merge_allocates_fresh_ids _ _ _ _ _ _ Hrun)
    as (Hr & _ & _ & He).
  split.
  - apply Hr.
    + intros r Hin. simpl in Hin.
      by apply list_elem_of_singleton in Hin as ->.
    + simpl. apply NoDup_singleton.
  - apply He. simpl. apply NoDup_cons. split; [|apply NoDup_singleton].
    intros Hin. apply list_elem_of_singleton in Hin. discriminate Hin.
Defined.

Lemma prefix_of_elem_of {A} (l k : list A) x :
  l `prefix_of` k → x ∈ l → x ∈ k.
Proof. intros [k' ->] Hx. apply elem_of_app. by left. Qed.

(** X5. A merge that completes keeps the references resolved: when every
    entry and alias of the corpus refers to identifiers carried by its recipe
    and ingredient rows, so does every entry and alias afterwards, the added
    ones included. *)
Theorem merge_keeps_references_resolved utcnow master d by_whom m' out :
  merge utcnow master d by_whom = Ok (m', out) →
  references_resolve master → references_resolve m'.
Proof.
  intros H [Hes Has]. apply merge_inv in H
    as (out_r & out_i & seen_a & out_a & st_e & out_e
        & Hr & Hi & Ha & He & Hst & _).
  assert (Hpr : recipes master `prefix_of` recipes m').
  { apply merge_recipe_grows in Hr as (_ & added_r & Hr & _).
    by exists added_r. }
  assert (Hpi : ingredients master `prefix_of` ingredients m').
  { apply merge_ingredient_grows in Hi as (_ & added_i & Hi & _).
    by exists added_i. }
  apply merge_alias_grows in Ha as (added_a & Ha & Hnew_a).
  apply merge_entry_grows in He as (added_e & He & Hnew_e).
  rewrite Hst in He. simpl in He, Hnew_e.
  assert (Hmr : ∀ id, Some id ∈ map recipe_id (recipes master) →
                      Some id ∈ map recipe_id (recipes m')).
  { intros id Hid. apply list_elem_of_fmap in Hid as (r & Hk & Hin).
    apply list_elem_of_fmap. exists r. split; [done|].
    by eapply prefix_of_elem_of. }
  assert (Hmi : ∀ id, Some id ∈ map ingredient_id (ingredients master) →
                      Some id ∈ map ingredient_id (ingredients m')).
  { intros id Hid. apply list_elem_of_fmap in Hid as (i & Hk & Hin).
    apply list_elem_of_fmap. exists i. split; [done|].
    by eapply prefix_of_elem_of. }
  split.
  - intros e Hin. rewrite He in Hin. apply elem_of_app in Hin as [Hin|Hin].
    + destruct (Hes e Hin). split; auto.
    + apply list_elem_of_split in Hin as (pre & post & Hadd).
      destruct (Hnew_e _ _ _ Hadd)
        as (e0 & r & i & _ & Hlr & Hli & Hrid & Hiid & _).
      apply idx_by_lookup in Hlr as [Hlr _].
      apply idx_by_lookup in Hli as [Hli _].
      split; apply list_elem_of_fmap; [by exists r|by exists i].
  - intros a Hin. rewrite Ha in Hin. apply elem_of_app in Hin as [Hin|Hin].
    + auto.
    + apply list_elem_of_split in Hin as (pre & post & Hadd).
      destruct (Hnew_a _ _ _ Hadd) as (a0 & ing & _ & Hing & Hid & _).
      apply idx_by_lookup in Hing as [Hing _].
      apply list_elem_of_fmap. by exists ing.
Qed.

Lemma sample_corpus_references_resolve : references_resolve sample_corpus.
Proof.
  split.
  - intros e He. simpl in He.
    apply elem_of_cons in He as [->|He];
      [|apply list_elem_of_singleton in He as ->];
      split; by apply list_elem_of_singleton.
  - intros a Ha. simpl in Ha. apply list_elem_of_singleton in Ha as ->.
    by apply list_elem_of_singleton.
Qed.

Lemma merge_keeps_references_resolved_witness :
  ∃ m' out,
    merge sample_clock sample_corpus sample_diff_new_recipe "gpt"
    = Ok (m', out)
    ∧ references_resolve m'.
Proof.
  destruct (merge sample_clock sample_corpus sample_diff_new_recipe "gpt")
    as [[m' out]|] eqn:Hrun; [|by vm_compute in Hrun].
  exists m', out. split; [done|].
  exact (merge_keeps_references_resolved _ _ _ _ _ _ Hrun
           sample_corpus_references_resolve).
Defined.

(** ** What a removal pass deletes *)

Lemma existsb_alias_matches i a das :
  existsb (alias_matches i a) das = true ↔
  ∃ da, da ∈ das
        ∧ i_slug i = da_ingredient_slug da
        ∧ variant_label a = da_variant_label da.
Proof.
  rewrite existsb_exists. unfold alias_matches.
  split; intros (da & Hin & H); exists da.
  - apply list_elem_of_In in Hin. split; [done|].
    by rewrite andb_true_iff, !bool_decide_eq_true in H.
  - apply list_elem_of_In in Hin. split; [done|].
    by rewrite andb_true_iff, !bool_decide_eq_true.
Qed.

(** X6. In the removal pass a stored alias whose ingredient resolves is
    deleted exactly when some alias of the diff names the slug of that
    ingredient and the same variant label, both compared as they are
    written. *)
Theorem remove_diff_alias_matching master d master' out a i :
  remove_diff master d = Ok (master', out) →
  a ∈ aliases master →
  find_by_id "ingredient_id" ingredient_id (ingredients master)
    (a_ingredient_id a) = Ok (Some i) →
  (a ∉ aliases master' ↔
     ∃ da, da ∈ d_aliases d
           ∧ i_slug i = da_ingredient_slug da
           ∧ variant_label a = da_variant_label da).
Proof.
  intros H Ha Hi.
  destruct (remove_diff_spec _ _ _ _ H) as (_ & [_ Hmem] & _).
  rewrite <- existsb_alias_matches, Hmem. unfold drops_alias. split.
  - intros Hn. destruct (existsb _ _) eqn:Hex; [done|].
    exfalso. apply Hn. split; [done|].
    intros (i' & Hi' & Hm). congruence.
  - intros Hex [_ Hn]. apply Hn. by exists i.
Qed.

Lemma remove_diff_alias_matching_witness :
  ∃ da, da ∈ d_aliases sample_removal_alias
        ∧ "honey"%string = da_ingredient_slug da
        ∧ "meli"%string = da_variant_label da.
Proof.
  assert (Hrun : remove_diff sample_corpus sample_removal_alias
                 = Ok (Corpus (recipes sample_corpus)
                         (ingredients sample_corpus) []
                         (entries sample_corpus),
                       [RemovedAlias "honey" "meli"]))
    by (vm_compute; reflexivity).
  assert (Hin : Alias (Some 1) 1 "meli" (Text "grc") Null
                ∈ aliases sample_corpus)
    by (apply list_elem_of_singleton; reflexivity).
  assert (Hi : find_by_id "ingredient_id" ingredient_id
                 (ingredients sample_corpus) 1
               = Ok (Some (Ingredient (Some 1) "honey" "Honey" (Text "en")
                             [])))
    by (vm_compute; reflexivity).
  apply (proj1 (remove_diff_alias_matching _ _ _ _ _ _ Hrun Hin Hi)).
  intros Hmem. by apply elem_of_nil in Hmem.
Defined.

Lemma ingredient_should_remove_iff in_use ing named id :
  ingredient_id ing = Some id →
  ingredient_should_remove in_use ing named = Ok true ↔
  (id ∉ in_use) ∧ i_slug ing ∈ map i_slug named.
Proof.
  intros Hid. induction named as [|di named IH]; simpl.
  - split; [done|]. intros [_ H]. by apply elem_of_nil in H.
  - rewrite elem_of_cons. destruct (decide (i_slug ing = i_slug di)) as [Hs|Hs].
    + rewrite Hid. simpl. destruct (decide (id ∉ in_use)) as [Hn|Hn].
      * split; [|done]. intros _. split; [done|by left].
      * rewrite IH. split; [|tauto]. intros [? _]. done.
    + rewrite IH. split; [tauto|]. intros [? [?|?]]; [done|tauto].
Qed.

Lemma recipe_should_remove_iff in_use r named id :
  recipe_id r = Some id →
  recipe_should_remove in_use r named = Ok true ↔
  (id ∉ in_use) ∧ r_slug r ∈ map r_slug named.
Proof.
  intros Hid. induction named as [|dr named IH]; simpl.
  - split; [done|]. intros [_ H]. by apply elem_of_nil in H.
  - rewrite elem_of_cons. destruct (decide (r_slug r = r_slug dr)) as [Hs|Hs].
    + rewrite Hid. simpl. destruct (decide (id ∉ in_use)) as [Hn|Hn].
      * split; [|done]. intros _. split; [done|by left].
      * rewrite IH. split; [|tauto]. intros [? _]. done.
    + rewrite IH. split; [tauto|]. intros [? [?|?]]; [done|tauto].
Qed.

(** X7. Steps 3 and 4 of the removal pass delete exactly the orphans that
    the diff names: an ingredient row is deleted when and only when the diff
    has an ingredient with its slug and no entry or alias that survived steps
    1 and 2 carries its identifier; a recipe row, when and only when the diff
    has a recipe with its slug and no surviving entry carries its
    identifier. *)
Theorem remove_diff_deletes_named_orphans master d master' out :
  remove_diff master d = Ok (master', out) →
  (∀ i id, i ∈ ingredients master → ingredient_id i = Some id →
     (i ∉ ingredients master' ↔
        i_slug i ∈ map i_slug (d_ingredients d)
        ∧ (∀ e, e ∈ entries master' → e_ingredient_id e ≠ id)
        ∧ (∀ a, a ∈ aliases master' → a_ingredient_id a ≠ id)))
  ∧ (∀ r id, r ∈ recipes master → recipe_id r = Some id →
       (r ∉ recipes master' ↔
          r_slug r ∈ map r_slug (d_recipes d)
          ∧ (∀ e, e ∈ entries master' → e_recipe_id e ≠ id))).
Proof.
  intros H.
  destruct (remove_diff_spec _ _ _ _ H) as (_ & _ & [_ Hmi] & [_ Hmr] & _).
  split.
  - intros i id Hi Hid. rewrite Hmi.
    rewrite (ingredient_should_remove_iff _ _ _ _ Hid).
    rewrite elem_of_ingredient_ids_in_use. split.
    + intros Hn.
      destruct (decide (i_slug i ∈ map i_slug (d_ingredients d)))
        as [Hs|Hs].
      * split; [done|]. split.
        -- intros e He Heq. apply Hn. split; [done|]. intros [Hu _].
           apply Hu. left. by exists e.
        -- intros a Ha Heq. apply Hn. split; [done|]. intros [Hu _].
           apply Hu. right. by exists a.
      * exfalso. apply Hn. split; [done|]. by intros [_ ?].
    + intros (Hs & He & Ha) [_ Hn]. apply Hn. split; [|done].
      intros [(e & Hin & Heq)|(a & Hin & Heq)].
      * by apply (He e).
      * by apply (Ha a).
  - intros r id Hr Hid. rewrite Hmr.
    rewrite (recipe_should_remove_iff _ _ _ _ Hid).
    rewrite elem_of_recipe_ids_in_use. split.
    + intros Hn.
      destruct (decide (r_slug r ∈ map r_slug (d_recipes d))) as [Hs|Hs].
      * split; [done|]. intros e He Heq. apply Hn. split; [done|].
        intros [Hu _]. apply Hu. by exists e.
      * exfalso. apply Hn. split; [done|]. by intros [_ ?].
    + intros (Hs & He) [_ Hn]. apply Hn. split; [|done].
      intros (e & Hin & Heq). by apply (He e).
Qed.

Lemma remove_diff_deletes_named_orphans_witness :
  "honey"%string ∈ map i_slug (d_ingredients sample_removal_all)
  ∧ (∀ e, e ∈ [] → e_ingredient_id e ≠ 1)
  ∧ (∀ a, a ∈ [] → a_ingredient_id a ≠ 1).
Proof.
  assert (Hrun : remove_diff sample_corpus sample_removal_all
                 = Ok (Corpus [] [] [] [],
                       [RemovedEntry "kyphi-28" "honey";
                        RemovedEntry "kyphi-28" "honey";
                        RemovedAlias "honey" "meli";
                        RemovedIngredient "honey" "Honey";
                        RemovedRecipe "kyphi-28" "Kyphi of 28 ingredients"]))
    by (vm_compute; reflexivity).
  apply (proj1 (proj1 (remove_diff_deletes_named_orphans _ _ _ _ Hrun)
                  (Ingredient (Some 1) "honey" "Honey" (Text "en") []) 1
                  (list_elem_of_here _ _) eq_refl)).
  intros Hmem. by apply elem_of_nil in Hmem.
Defined.

(** X8. The removal pass never deletes a row whose reference it cannot
    resolve: an entry whose recipe identifier or ingredient identifier is
    carried by no row of the corpus, and an alias whose ingredient identifier
    is carried by no row, are kept whatever the diff names. *)
Theorem remove_diff_keeps_unresolved master d master' out :
  remove_diff master d = Ok (master', out) →
  (∀ e, e ∈ entries master →
     Some (e_recipe_id e) ∉ map recipe_id (recipes master)
     ∨ Some (e_ingredient_id e) ∉ map ingredient_id (ingredients master) →
     e ∈ entries master')
  ∧ (∀ a, a ∈ aliases master →
       Some (a_ingredient_id a) ∉ map ingredient_id (ingredients master) →
       a ∈ aliases master').
Proof.
  intros H.
  destruct (remove_diff_spec _ _ _ _ H) as ([_ Hme] & [_ Hma] & _).
  split.
  - intros e He Hun. apply Hme. split; [done|].
    intros (r & i & Hr & Hi & _).
    apply find_by_id_Some in Hr as [Hr Hrid].
    apply find_by_id_Some in Hi as [Hi Hiid].
    destruct Hun as [Hun|Hun]; apply Hun, list_elem_of_fmap;
      [by exists r|by exists i].
  - intros a Ha Hun. apply Hma. split; [done|].
    intros (i & Hi & _). apply find_by_id_Some in Hi as [Hi Hiid].
    apply Hun, list_elem_of_fmap. by exists i.
Qed.

Lemma remove_diff_keeps_unresolved_witness :
  ∃ master' out,
    remove_diff sample_corpus_dangling sample_removal_all = Ok (master', out)
    ∧ Alias (Some 2) 7 "meli" (Text "grc") Null ∈ aliases master'.
Proof.
  destruct (remove_diff sample_corpus_dangling sample_removal_all)
    as [[master' out]|] eqn:Hrun; [|by vm_compute in Hrun].
  exists master', out. split; [done|].
  apply (proj2 (remove_diff_keeps_unresolved _ _ _ _ Hrun)).
  - apply list_elem_of_singleton. reflexivity.
  - intros Hin. apply list_elem_of_singleton in Hin. discriminate Hin.
Defined.

Lemma for_each_keep_all {X E}
    (body : list X → X → result (list X * list E)) xs :
  (∀ kept x, x ∈ xs → body kept x = Ok (kept ++ [x], [])) →
  ∀ kept, for_each body xs kept = Ok (kept ++ xs, []).
Proof.
  induction xs as [|x xs IH]; intros Hbody kept; simpl.
  - by rewrite app_nil_r.
  - rewrite Hbody by apply list_elem_of_here. simpl.
    rewrite IH by (intros; apply Hbody; by apply list_elem_of_further).
    simpl. by rewrite <- app_assoc.
Qed.

Lemma for_each_Ok_each {S X E} (body : S → X → result (S * list E)) xs st res :
  for_each body xs st = Ok res →
  ∀ x, x ∈ xs → ∃ st0 res0, body st0 x = Ok res0.
Proof.
  revert st res. induction xs as [|y xs IH]; intros st res Hrun x Hx.
  - by apply elem_of_nil in Hx.
  - simpl in Hrun. inv_bind Hrun as [st1 out1] Hy.
    inv_bind Hrun as [st2 out2] Hxs.
    apply elem_of_cons in Hx as [->|Hx]; [by eexists _, _|].
    by eapply IH.
Qed.

(** A loop that drops the rows for which a test succeeds and copies the
    others: the copied rows fail the test, and a search by identifier finds
    in them what it finds in the rows visited, when every row that carries
    the identifier is copied. *)
Lemma keep_loop_spec {X E} (dec : X → result bool) (ev : X → E) xs kept
    kept' out :
  for_each
    (λ kept x, b ← dec x;
               if b : bool then Ok (kept, [ev x]) else Ok (kept ++ [x], []))
    xs kept = Ok (kept', out) →
  ∃ ys, kept' = kept ++ ys
    ∧ (∀ y, y ∈ ys → dec y = Ok false)
    ∧ ∀ name (key : X → option Z) id res,
        (∀ x, x ∈ xs → key x = Some id → dec x ≠ Ok true) →
        find_by_id name key xs id = Ok res →
        find_by_id name key ys id = Ok res.
Proof.
  revert kept kept' out.
  induction xs as [|x xs IH]; intros kept kept' out Hrun.
  - simpl in Hrun. inv_ok. exists []. rewrite app_nil_r.
    split_and!; [done| |done]. intros y Hy. by apply elem_of_nil in Hy.
  - simpl in Hrun. inv_bind Hrun as [kept1 out1] Hx.
    inv_bind Hrun as [kept2 out2] Hxs. inv_ok.
    inv_bind Hx as b Hb.
    destruct (IH _ _ _ Hxs) as (ys & -> & Hys & Hfind).
    destruct b; inv_ok.
    + exists ys. split_and!; [done|done|].
      intros name key id res Hkeep Hres. simpl in Hres.
      inv_bind Hres as xid Hxid.
      destruct (decide (xid = id)) as [->|Hne].
      * exfalso. apply (Hkeep x); [by left|by inv_ok|done].
      * apply (Hfind name key id res); [|done].
        intros y Hy. apply Hkeep. by right.
    + exists (x :: ys). rewrite <- app_assoc. split_and!; [done| |].
      * intros y Hy. apply elem_of_cons in Hy as [->|Hy]; auto.
      * intros name key id res Hkeep Hres. simpl in Hres. simpl.
        inv_bind Hres as xid Hxid. rewrite Hxid. simpl.
        destruct (decide (xid = id)) as [->|Hne]; [done|].
        apply (Hfind name key id res); [|done].
        intros y Hy. apply Hkeep. by right.
Qed.

(** X9. The removal pass is idempotent: running it again with the same diff
    on the corpus it produced returns that corpus unchanged and reports
    nothing. *)
Theorem remove_diff_idempotent master d m1 out1 :
  remove_diff master d = Ok (m1, out1) →
  remove_diff m1 d = Ok (m1, []).
Proof.
  intros H.
  destruct (remove_diff_spec _ _ _ _ H) as ([_ Hme] & [_ Hma] & _).
  apply remove_diff_inv in H
    as (out_e & out_a & out_i & out_r & He & Ha & Hi & Hr & _).
  apply (keep_loop_spec
           (λ i, ingredient_should_remove
                   (ingredient_ids_in_use (entries m1) (aliases m1)) i
                   (d_ingredients d))
           (λ i, RemovedIngredient (i_slug i) (i_label i))) in Hi
    as (ings & Hings & Hkeep_i & Hfind_i).
  apply (keep_loop_spec
           (λ r, recipe_should_remove (recipe_ids_in_use (entries m1)) r
                   (d_recipes d))
           (λ r, RemovedRecipe (r_slug r) (r_label r))) in Hr
    as (rs & Hrs & Hkeep_r & Hfind_r).
  simpl in Hings, Hrs. subst ings rs.
  assert (Hfr : ∀ e res, e ∈ entries m1 →
            find_by_id "recipe_id" recipe_id (recipes master) (e_recipe_id e)
              = Ok res →
            find_by_id "recipe_id" recipe_id (recipes m1) (e_recipe_id e)
              = Ok res).
  { intros e res Hin. apply Hfind_r. intros r _ Hid Hrm.
    apply recipe_should_remove_true in Hrm as (id & Hid' & Hn & _).
    apply Hn, elem_of_recipe_ids_in_use. exists e. split; [done|].
    congruence. }
  assert (Hfi : ∀ id res,
            id ∈ ingredient_ids_in_use (entries m1) (aliases m1) →
            find_by_id "ingredient_id" ingredient_id (ingredients master) id
              = Ok res →
            find_by_id "ingredient_id" ingredient_id (ingredients m1) id
              = Ok res).
  { intros id res Hin. apply Hfind_i. intros i _ Hid Hrm.
    apply ingredient_should_remove_true in Hrm as (id' & Hid' & Hn & _).
    apply Hn. congruence. }
  unfold remove_diff.
  rewrite (for_each_keep_all (remove_entry m1 d) (entries m1)).
  2: { intros kept e Hin. destruct (proj1 (Hme e) Hin) as [Hin0 Hnd].
       destruct (for_each_Ok_each _ _ _ _ He e Hin0) as (k0 & res0 & Hb).
       unfold remove_entry in Hb. inv_bind Hb as ro Hro.
       inv_bind Hb as io Hio. unfold remove_entry.
       rewrite (Hfr e ro Hin Hro). simpl.
       rewrite (Hfi (e_ingredient_id e) io); [|
         apply elem_of_ingredient_ids_in_use; left; by exists e|done].
       simpl. destruct ro as [r|], io as [i|]; try done.
       destruct (existsb _ _) eqn:Hex; [|done].
       exfalso. apply Hnd. by exists r, i. }
  simpl.
  rewrite (for_each_keep_all (remove_alias m1 d) (aliases m1)).
  2: { intros kept a Hin. destruct (proj1 (Hma a) Hin) as [Hin0 Hnd].
       destruct (for_each_Ok_each _ _ _ _ Ha a Hin0) as (k0 & res0 & Hb).
       unfold remove_alias in Hb. inv_bind Hb as io Hio.
       unfold remove_alias.
       rewrite (Hfi (a_ingredient_id a) io); [|
         apply elem_of_ingredient_ids_in_use; right; by exists a|done].
       simpl. destruct io as [i|]; try done.
       destruct (existsb _ _) eqn:Hex; [|done].
       exfalso. apply Hnd. by exists i. }
  simpl.
  rewrite (for_each_keep_all
             (remove_ingredient
                (ingredient_ids_in_use (entries m1) (aliases m1)) d)
             (ingredients m1)).
  2: { intros kept i Hin. unfold remove_ingredient.
       by rewrite (Hkeep_i i Hin). }
  simpl.
  rewrite (for_each_keep_all
             (remove_recipe (recipe_ids_in_use (entries m1)) d)
             (recipes m1)).
  2: { intros kept r Hin. unfold remove_recipe.
       by rewrite (Hkeep_r r Hin). }
  simpl. by destruct m1.
Qed.

Lemma remove_diff_idempotent_witness :
  remove_diff sample_after_removal sample_removal
  = Ok (sample_after_removal, []).
Proof. exact (remove_diff_idempotent _ _ _ _ sample_removal_runs). Defined.

(** X10. With a diff that names nothing the removal pass returns a corpus
    whose rows carry their identifiers as it is, and reports nothing. *)
Theorem remove_diff_empty master :
  ids_present master →
  remove_diff master (Diff [] [] [] []) = Ok (master, []).
Proof.
  intros [Hr Hi]. unfold remove_diff.
  rewrite (for_each_keep_all (remove_entry master _) (entries master)).
  2: { intros kept e _. unfold remove_entry.
       destruct (find_by_id_total "recipe_id" recipe_id (recipes master)
                   (e_recipe_id e) Hr) as [r ->].
       destruct (find_by_id_total "ingredient_id" ingredient_id
                   (ingredients master) (e_ingredient_id e) Hi) as [i ->].
       simpl. by destruct r, i. }
  simpl.
  rewrite (for_each_keep_all (remove_alias master _) (aliases master)).
  2: { intros kept a _. unfold remove_alias.
       destruct (find_by_id_total "ingredient_id" ingredient_id
                   (ingredients master) (a_ingredient_id a) Hi) as [i ->].
       simpl. by destruct i. }
  simpl.
  rewrite (for_each_keep_all (remove_ingredient _ _) (ingredients master))
    by done.
  simpl.
  rewrite (for_each_keep_all (remove_recipe _ _) (recipes master)) by done.
  simpl. by destruct master.
Qed.

Lemma remove_diff_empty_witness :
  remove_diff sample_corpus (Diff [] [] [] []) = Ok (sample_corpus, []).
Proof. exact (remove_diff_empty _ sample_corpus_ids_present). Defined.

Lemma merge_idempotent_with_amounts_witness :
  ∃ m1 out1 out2,
    merge sample_clock sample_corpus sample_diff_new_recipe "gpt"
    = Ok (m1, out1)
    ∧ merge sample_clock m1 sample_diff_new_recipe "editor" = Ok (m1, out2).
Proof.
  destruct (merge sample_clock sample_corpus sample_diff_new_recipe "gpt")
    as [[m1 out1]|] eqn:Hrun; [|by vm_compute in Hrun].
  destruct (merge_idempotent_with_amounts sample_clock sample_clock
              sample_corpus sample_diff_new_recipe "gpt" "editor" m1 out1
              sample_corpus_ids_present) as [out2 H2]; [|done|].
  - intros e He. simpl in He.
    apply elem_of_cons in He as [->|He]; [done|].
    by apply list_elem_of_singleton in He as ->.
  - by exists m1, out1, out2.
Defined.

Lemma validate_diff_verdict_witness :
  ∃ r, validate_diff sample_schema sample_diff_object_section = Ok r
       ∧ ok r = false.
Proof.
  destruct (validate_diff sample_schema sample_diff_object_section)
    as [r|] eqn:Hrun; [|by vm_compute in Hrun].
  exists r. split; [done|].
  apply (proj2 (validate_diff_verdict _ _ _ Hrun)).
  left. right. left. exists "recipes"%string, (SObject []).
  split_and!; [by left|done|done].
Defined.

Lemma generate_equivalences_spec_witness :
  ∃ groups,
    generate_equivalences sample_two_junipers = Ok groups
    ∧ NoDup (map canonical_name groups).
Proof.
  destruct (generate_equivalences sample_two_junipers)
    as [groups|] eqn:Hrun; [|by vm_compute in Hrun].
  exists groups. split; [done|].
  by destruct (generate_equivalences_spec _ _ Hrun) as (by_id & _ & ? & _).
Defined.

(** ** When the validator returns *)

Lemma comprehension_Ok_iff {X Y} (f : X → result Y) xs :
  (∃ ys, comprehension f xs = Ok ys) ↔ ∀ x, x ∈ xs → ∃ y, f x = Ok y.
Proof.
  induction xs as [|x xs IH]; simpl.
  - split; [|by eexists]. intros _ x Hx. by apply elem_of_nil in Hx.
  - split.
    + intros [ys H]. inv_bind H as y Hy. inv_bind H as ys' Hys.
      intros z Hz. apply elem_of_cons in Hz as [->|Hz]; [by eexists|].
      apply (proj1 IH); [by eexists|done].
    + intros H. destruct (H x) as [y ->]; [by left|]. simpl.
      destruct (proj2 IH) as [ys ->]; [|by eexists].
      intros z Hz. apply H. by right.
Qed.

Lemma item_subscript_Ok_iff (x : item) key :
  (∃ v, item_subscript x key = Ok v) ↔ is_Some (x !! key).
Proof.
  unfold item_subscript. destruct (x !! key) as [v|]; simpl.
  - split; [by eexists|]. intros _. by eexists.
  - split; [by intros [v [=]]|by intros [v [=]]].
Qed.

Lemma label_check_Ok_iff {Y} (x : item) (bound : nat)
    (short : option string → Y) (long : Y) :
  (∃ y : Y,
     (label ← element_subscript (AnItem x) "label";
      n ← value_len label;
      if (n <? bound)%nat then
        slug ← element_subscript (AnItem x) "slug"; Ok (short slug)
      else Ok long) = Ok y) →
  has_text x "label".
Proof.
  intros [y H]. inv_bind H as label Hl. inv_bind H as n Hn.
  apply subscript_Ok in Hl. destruct label as [s|]; [|done]. by exists s.
Qed.

Lemma comprehension_then {X Y R} (f : X → result Y) xs
    (k : list Y → result R) :
  (∀ x, x ∈ xs → ∃ y, f x = Ok y) →
  (∀ ys, ∃ r, k ys = Ok r) →
  ∃ r, (ys ← comprehension f xs; k ys) = Ok r.
Proof.
  intros Hf Hk. destruct (proj2 (comprehension_Ok_iff f xs) Hf) as [ys ->].
  simpl. apply Hk.
Qed.

Lemma section_len_total (sec : option section_value) :
  empty_or_array sec → ∃ n, section_len (get_section sec) = Ok n.
Proof.
  destruct sec as [[items| | | | |s|keys]|]; simpl; by eauto.
Qed.

(** X14. [validate_diff] returns, whatever the schema, exactly when every
    section is missing, an array, or a string or an object with nothing in
    it, every recipe and ingredient of the diff has a [slug] key and a
    [label] that is a string, every alias an [ingredient_slug] key, and every
    entry a [recipe_slug] and an [ingredient_slug] key; otherwise it raises
    ([KeyError], or [TypeError] for a [null] label and for a section that is
    of another type) instead of reporting. *)
Theorem validate_diff_returns_iff s data :
  (∃ r, validate_diff s data = Ok r)
  ↔ sections_iterable data ∧ keys_present data.
Proof.
  unfold sections_iterable, keys_present. split.
  - intros [r H]. unfold validate_diff in H.
    inv_bind H as n_r Hn_r. inv_bind H as n_i Hn_i.
    inv_bind H as n_a Hn_a. inv_bind H as n_e Hn_e.
    inv_bind H as recipe_slugs Hrs. inv_bind H as ingredient_slugs His.
    inv_bind H as alias_refs Har. inv_bind H as entry_refs Her.
    inv_bind H as placeholders Hpl.
    inv_bind H as short_recipes Hsr. inv_bind H as short_ingredients Hsi.
    clear H.
    apply for_in_Ok in Hrs as [Er Hrs]; [|done].
    apply for_in_Ok in His as [Ei His]; [|done].
    apply for_in_Ok in Har as [Ea Har]; [|done].
    apply for_in_Ok in Her as [Ee Her]; [|done].
    apply for_in_Ok in Hsr as [_ Hsr]; [|done].
    apply for_in_Ok in Hsi as [_ Hsi]; [|done].
    assert (Hrs' := proj1 (comprehension_Ok_iff _ _) (ex_intro _ _ Hrs)).
    assert (His' := proj1 (comprehension_Ok_iff _ _) (ex_intro _ _ His)).
    assert (Har' := proj1 (comprehension_Ok_iff _ _) (ex_intro _ _ Har)).
    assert (Her' := proj1 (comprehension_Ok_iff _ _) (ex_intro _ _ Her)).
    assert (Hsr' := proj1 (comprehension_Ok_iff _ _) (ex_intro _ _ Hsr)).
    assert (Hsi' := proj1 (comprehension_Ok_iff _ _) (ex_intro _ _ Hsi)).
    split; [done|]. split_and!.
    + intros x Hx. split.
      * by apply item_subscript_Ok_iff, Hrs'.
      * eapply label_check_Ok_iff. by apply (Hsr' x).
    + intros x Hx. split.
      * by apply item_subscript_Ok_iff, His'.
      * eapply label_check_Ok_iff. by apply (Hsi' x).
    + intros x Hx. by apply item_subscript_Ok_iff, Har'.
    + intros x Hx. destruct (Her' x Hx) as [[v w] Hv].
      inv_bind Hv as v' Hv1. inv_bind Hv as w' Hv2.
      split; apply item_subscript_Ok_iff; by eexists.
  - intros ((Er & Ei & Ea & Ee) & Hr & Hi & Ha & He). unfold validate_diff.
    destruct (section_len_total _ Er) as [n_r ->].
    destruct (section_len_total _ Ei) as [n_i ->].
    destruct (section_len_total _ Ea) as [n_a ->].
    destruct (section_len_total _ Ee) as [n_e ->]. simpl.
    rewrite !(for_in_items (raw_recipes data)) by done.
    rewrite !(for_in_items (raw_ingredients data)) by done.
    rewrite !(for_in_items (raw_aliases data)) by done.
    rewrite !(for_in_items (raw_entries data)) by done.
    simpl.
    apply comprehension_then; [|intros recipe_slugs].
    { intros x Hx. apply item_subscript_Ok_iff. by apply Hr. }
    apply comprehension_then; [|intros ingredient_slugs].
    { intros x Hx. apply item_subscript_Ok_iff. by apply Hi. }
    apply comprehension_then; [|intros alias_refs].
    { intros x Hx. apply item_subscript_Ok_iff. by apply Ha. }
    apply comprehension_then; [|intros entry_refs].
    { intros x Hx. destruct (He x Hx) as [[v Hv] [w Hw]].
      unfold item_subscript. rewrite Hv, Hw. by eexists. }
    apply comprehension_then; [|intros placeholders].
    { intros x Hx. by eexists. }
    apply comprehension_then; [|intros short_recipes].
    { intros x Hx. destruct (Hr x Hx) as [[v Hv] [l Hl]].
      unfold item_subscript. rewrite Hv, Hl. simpl.
      destruct (_ <? _)%nat; by eexists. }
    apply comprehension_then; [|intros short_ingredients].
    { intros x Hx. destruct (Hi x Hx) as [[v Hv] [l Hl]].
      unfold item_subscript. rewrite Hv, Hl. simpl.
      destruct (_ <? _)%nat; by eexists. }
    apply comprehension_then; [|intros non_ascii_without_lang].
    { intros x Hx. destruct (Hi x Hx) as [[v Hv] [l Hl]].
      unfold item_subscript. rewrite Hv, Hl. simpl.
      destruct (non_ascii l); [|by eexists].
      destruct (negb _); by eexists. }
    by eexists.
Qed.

(** ** The order of the generated groups *)

Lemma insert_sorted_by_size {A} (size : A → nat) x l :
  StronglySorted (λ u v, (size v ≤ size u)%nat) l →
  StronglySorted (λ u v, (size v ≤ size u)%nat)
    (insert_sorted (λ x y, (size y <? size x)%nat) x l).
Proof.
  induction 1 as [|y l Hl IH Hy]; simpl.
  - repeat constructor.
  - destruct (size x <? size y)%nat eqn:Hcmp.
    + apply Nat.ltb_lt in Hcmp. constructor; [done|].
      rewrite insert_sorted_perm. constructor; [lia|done].
    + apply Nat.ltb_ge in Hcmp. constructor; [by constructor|].
      constructor; [done|]. eapply Forall_impl; [done|].
      simpl. intros; lia.
Qed.

Lemma py_sorted_by_size {A} (size : A → nat) l :
  StronglySorted (λ u v, (size v ≤ size u)%nat)
    (py_sorted (λ x y, (size y <? size x)%nat) l).
Proof.
  induction l as [|x l IH]; simpl; [constructor|].
  by apply insert_sorted_by_size.
Qed.

(** X15. The groups returned by [generate_equivalences] are ordered by the
    number of ingredients they link, largest first; every group links at
    least two, and lists as many slugs as labels. *)
Theorem generate_equivalences_sorted master groups :
  generate_equivalences master = Ok groups →
  StronglySorted
    (λ g h, (length (eg_ingredients h) ≤ length (eg_ingredients g))%nat)
    groups
  ∧ ∀ g, g ∈ groups →
      (2 ≤ length (slugs g))%nat
      ∧ length (slugs g) = length (eg_ingredients g).
Proof.
  unfold generate_equivalences. intros H. inv_bind H as by_id Hid.
  injection H as <-. split.
  - apply (py_sorted_by_size (λ g, length (eg_ingredients g))).
  - intros g Hg. apply elem_of_py_sorted, list_elem_of_omap in Hg
      as ([name ms] & _ & Hg).
    apply group_of_name in Hg as (Hlen & _ & -> & -> & _).
    rewrite !length_map. split; [lia|done].
Qed.

Lemma generate_equivalences_sorted_witness :
  ∃ groups,
    generate_equivalences sample_two_junipers = Ok groups
    ∧ ∀ g, g ∈ groups → (2 ≤ length (slugs g))%nat
                          ∧ length (slugs g) = length (eg_ingredients g).
Proof.
  destruct (generate_equivalences sample_two_junipers)
    as [groups|] eqn:Hrun; [|by vm_compute in Hrun].
  exists groups. split; [done|].
  by destruct (generate_equivalences_sorted _ _ Hrun).
Defined.

(** ** Text normalization *)

Lemma lower_char_idemp c : lower_char (lower_char c) = lower_char c.
Proof. destruct c as [[] [] [] [] [] [] [] []]; reflexivity. Qed.

Lemma is_word_not_space c : is_word c = true → isspace c = false.
Proof.
  destruct c as [[] [] [] [] [] [] [] []]; vm_compute; congruence.
Qed.

Lemma chars_text cs : chars (text cs) = cs.
Proof. apply String.list_ascii_of_string_of_list_ascii. Qed.

Lemma text_chars s : text (chars s) = s.
Proof. apply String.string_of_list_ascii_of_string. Qed.

Lemma split_ws_run w rest acc :
  Forall (λ c, isspace c = false) w →
  split_ws (w ++ rest) acc = split_ws rest (acc ++ w).
Proof.
  intros Hw. revert acc. induction Hw as [|c w Hc Hw IH]; intros acc; simpl.
  - by rewrite app_nil_r.
  - rewrite Hc, IH. by rewrite <- app_assoc.
Qed.

Lemma split_ws_space c rest acc :
  isspace c = true → acc ≠ [] →
  split_ws (c :: rest) acc = acc :: split_ws rest [].
Proof. intros Hc Hacc. simpl. rewrite Hc. by destruct acc. Qed.

Lemma split_ws_join ws :
  Forall (λ w, w ≠ [] ∧ Forall (λ c, isspace c = false) w) ws →
  split_ws (join (chars " ") ws) [] = ws.
Proof.
  induction 1 as [|w ws [Hne Hw] Hws IH]; [done|].
  destruct ws as [|w2 ws].
  - simpl. rewrite <- (app_nil_r w) at 1. rewrite split_ws_run by done.
    simpl. by destruct w.
  - change (join (chars " ") (w :: w2 :: ws))
      with (w ++ chars " " ++ join (chars " ") (w2 :: ws)).
    rewrite split_ws_run by done.
    change (chars " " ++ join (chars " ") (w2 :: ws))
      with (" "%char :: join (chars " ") (w2 :: ws)).
    rewrite app_nil_l, split_ws_space by done. by rewrite IH.
Qed.

Lemma split_ws_words cs acc :
  Forall (λ c, isspace c = false) acc →
  Forall (λ w, w ≠ [] ∧ Forall (λ c, isspace c = false ∧ c ∈ acc ++ cs) w)
    (split_ws cs acc).
Proof.
  revert acc. induction cs as [|c cs IH]; intros acc Hacc; simpl.
  - destruct acc as [|a acc]; [constructor|].
    constructor; [|constructor]. split; [done|].
    rewrite app_nil_r. apply Forall_forall. intros x Hx.
    split; [|done]. by apply (proj1 (Forall_forall _ _) Hacc).
  - assert (Hweak : ∀ acc' ws,
              (∀ x, x ∈ acc' ++ cs → x ∈ acc ++ c :: cs) →
              Forall (λ w, w ≠ []
                ∧ Forall (λ c, isspace c = false ∧ c ∈ acc' ++ cs) w) ws →
              Forall (λ w, w ≠ []
                ∧ Forall (λ c0, isspace c0 = false ∧ c0 ∈ acc ++ c :: cs) w)
                ws).
    { intros acc' ws Hsub Hall. eapply Forall_impl; [exact Hall|].
      intros w [Hne Hw].
      split; [done|]. eapply Forall_impl; [exact Hw|].
      intros x [? ?]. split; [done|]. by apply Hsub. }
    destruct (isspace c) eqn:Hc.
    + destruct acc as [|a acc].
      * apply (Hweak []); [|by apply IH]. intros x Hx. simpl in *.
        by right.
      * constructor.
        -- split; [done|]. apply Forall_forall. intros x Hx.
           split; [by apply (proj1 (Forall_forall _ _) Hacc)|].
           apply elem_of_app. by left.
        -- apply (Hweak []); [|by apply IH]. intros x Hx. simpl in Hx.
           apply elem_of_app. right. by right.
    + apply (Hweak (acc ++ [c])).
      * intros x Hx. by rewrite <- app_assoc in Hx.
      * apply IH. apply Forall_app. split; [done|]. by constructor.
Qed.

Lemma Forall_join {P : ascii → Prop} sep ws :
  Forall P sep → Forall (Forall P) ws → Forall P (join sep ws).
Proof.
  intros Hsep. induction 1 as [|w ws Hw Hws IH]; [constructor|].
  destruct ws as [|w2 ws]; [done|].
  change (join sep (w :: w2 :: ws)) with (w ++ sep ++ join sep (w2 :: ws)).
  apply Forall_app. split; [done|]. apply Forall_app. by split.
Qed.

Lemma map_fixed {X} (f : X → X) l : Forall (λ x, f x = x) l → map f l = l.
Proof. induction 1 as [|x l Hx Hl IH]; simpl; congruence. Qed.

Lemma filter_all {X} (P : X → Prop) `{∀ x, Decision (P x)} l :
  Forall P l → filter P l = l.
Proof.
  induction 1 as [|x l Hx Hl IH]; [done|].
  rewrite filter_cons, decide_True by done. by rewrite IH.
Qed.

(** The words of a normalized search text. *)
Lemma normalize_for_search_words s :
  plain_words (split_ws (drop_punctuation (chars (str_lower s))) []).
Proof.
  unfold plain_words, drop_punctuation, str_lower. rewrite chars_text.
  eapply Forall_impl; [apply split_ws_words; constructor|].
  intros w [Hne Hw]. split; [done|]. eapply Forall_impl; [exact Hw|].
  intros c [Hc Hin]. simpl in Hin.
  apply list_elem_of_filter in Hin as [Hkeep Hin].
  apply list_elem_of_fmap in Hin as (c0 & -> & _).
  rewrite Hc, orb_false_r in Hkeep. split.
  - by apply Is_true_true.
  - apply lower_char_idemp.
Qed.

Lemma plain_words_fixed ws :
  plain_words ws →
  normalize_for_search (text (join (chars " ") ws))
  = text (join (chars " ") ws).
Proof.
  intros Hws. unfold normalize_for_search, str_lower, drop_punctuation.
  rewrite !chars_text. f_equal.
  rewrite map_fixed.
  2: { apply Forall_join; [by repeat constructor|].
       eapply Forall_impl; [exact Hws|]. intros w [_ Hw].
       eapply Forall_impl; [exact Hw|]. by intros c [_ ?]. }
  rewrite filter_all.
  2: { apply Forall_join; [by repeat constructor|].
       eapply Forall_impl; [exact Hws|]. intros w [_ Hw].
       eapply Forall_impl; [exact Hw|]. intros c [Hc _].
       rewrite Hc. done. }
  rewrite split_ws_join; [done|].
  eapply Forall_impl; [exact Hws|]. intros w [Hne Hw]. split; [done|].
  eapply Forall_impl; [exact Hw|]. intros c [Hc _].
  by apply is_word_not_space.
Qed.

(** X16. [normalize_for_search] computes a normal form: its result is a
    sequence of non-empty words of lower-case word characters separated by
    exactly one space, with no space at either end, and normalizing the
    result again gives the result back. *)
Theorem normalize_for_search_normal_form s :
  (∃ ws, normalize_for_search s = text (join (chars " ") ws)
         ∧ plain_words ws)
  ∧ normalize_for_search (normalize_for_search s) = normalize_for_search s.
Proof.
  pose proof (normalize_for_search_words s) as Hws. split.
  - by eexists.
  - by apply plain_words_fixed.
Qed.

(** ** Searching for a text that is in the pool *)

Lemma similarity_same_normal_form a b :
  normalize_for_search a = normalize_for_search b → (similarity a b == 1)%Q.
Proof. unfold similarity. intros ->. apply ratio_self. Qed.

(** X17. When the query and the label of an ingredient of the pool have the
    same normalized search text, and the threshold is below 1, the search
    returns a result for the slug of that ingredient, with score 1. *)
Theorem find_similar_ingredients_finds_label master query threshold res ing :
  find_similar_ingredients master query threshold = Ok res →
  ing ∈ ingredients master →
  normalize_for_search query = normalize_for_search (i_label ing) →
  (threshold < 1)%Q →
  ∃ r, r ∈ res ∧ m_slug r = i_slug ing ∧ (m_similarity r == 1)%Q.
Proof.
  intros H Hing Hnorm Hthr.
  apply find_similar_ingredients_inv in H as (matches & Hm & ->).
  pose proof (similarity_same_normal_form _ _ Hnorm) as Hsim.
  set (m := FuzzyMatch "ingredient" (i_slug ing) (i_label ing)
              (get_or "unknown" (i_language ing))
              (similarity query (i_label ing))).
  assert (Hin : m ∈ matches).
  { unfold collect_matches in Hm. inv_bind Hm as by_id Hid. inv_ok.
    apply elem_of_app. left. unfold label_matches.
    apply list_elem_of_omap. exists ing. split; [done|]. simpl.
    assert (Hlt : Qltb threshold (similarity query (i_label ing)) = true)
      by (apply Qltb_lt; by rewrite Hsim).
    by rewrite Hlt. }
  destruct (unique_by_slug_highest ∅ (sorted_reverse m_similarity matches) m)
    as (r & Hr & Hslug & Hle).
  - apply sorted_reverse_desc.
  - by rewrite sorted_reverse_perm.
  - apply not_elem_of_empty.
  - exists r. split_and!; [done|done|].
    assert (Hrm : r ∈ matches).
    { eapply elem_of_sublist in Hr; [|apply unique_by_slug_sublist].
      by rewrite sorted_reverse_perm in Hr. }
    destruct (collect_matches_scores _ _ _ _ _ Hm Hrm) as [label Hscore].
    apply Qle_antisym.
    + rewrite Hscore. apply similarity_bounds.
    + simpl in Hle. by rewrite Hsim in Hle.
Qed.

Lemma find_similar_ingredients_finds_label_witness :
  ∃ res r,
    find_similar_ingredients sample_pool "A-B-Z" search_threshold = Ok res
    ∧ r ∈ res ∧ m_slug r = "z"%string ∧ (m_similarity r == 1)%Q.
Proof.
  destruct (find_similar_ingredients sample_pool "A-B-Z" search_threshold)
    as [res|] eqn:Hrun; [|by vm_compute in Hrun].
  destruct (find_similar_ingredients_finds_label sample_pool "A-B-Z"
              search_threshold res
              (Ingredient (Some 3) "z" "abz" Absent []) Hrun)
    as (r & Hr & Hslug & Hsim).
  - apply elem_of_cons. right. apply elem_of_cons. right.
    apply list_elem_of_singleton. reflexivity.
  - vm_compute. reflexivity.
  - reflexivity.
  - exists res, r. exact (conj eq_refl (conj Hr (conj Hslug Hsim))).
Defined.

Lemma omap_length_le {X Y} (f : X → option Y) l :
  (length (omap f l) ≤ length l)%nat.
Proof.
  induction l as [|x l IH]; [done|].
  change (omap f (x :: l))
    with (match f x with Some y => y :: omap f l | None => omap f l end).
  destruct (f x); simpl; lia.
Qed.

(** X18. [find_similar] of the linking tool returns the ingredients of the
    pool whose score exceeds the threshold, each with its slug and label and
    a score of at most 1, ordered by decreasing score; an ingredient whose
    normalized label equals the normalized new label is among them with
    score 1 when the threshold is below 1; and every ingredient is returned
    at most once per row of the pool. *)
Theorem find_similar_ranked new_label existing threshold :
  StronglySorted (λ x y, (l_similarity y <= l_similarity x)%Q)
    (find_similar new_label existing threshold)
  ∧ (∀ m, m ∈ find_similar new_label existing threshold →
       ∃ ing, ing ∈ existing ∧ l_slug m = i_slug ing
              ∧ l_label m = i_label ing
              ∧ (threshold < l_similarity m)%Q ∧ (l_similarity m <= 1)%Q)
  ∧ (∀ ing, ing ∈ existing →
       normalize new_label = normalize (i_label ing) → (threshold < 1)%Q →
       ∃ m, m ∈ find_similar new_label existing threshold
            ∧ l_slug m = i_slug ing ∧ (l_similarity m == 1)%Q)
  ∧ (length (find_similar new_label existing threshold) ≤ length existing)%nat.
Proof.
  unfold find_similar. split_and!.
  - apply sorted_reverse_desc.
  - intros m Hm. rewrite sorted_reverse_perm in Hm.
    apply list_elem_of_omap in Hm as (ing & Hin & Hm).
    destruct (Qltb threshold _) eqn:Hcmp; [|done].
    injection Hm as <-. simpl. exists ing. split_and!; [done..| |].
    + by apply Qltb_lt.
    + apply ratio_bounds.
  - intros ing Hin Hnorm Hthr.
    exists (LinkMatch (i_slug ing) (i_label ing)
              (ratio (chars (normalize new_label))
                 (chars (normalize (i_label ing))))).
    assert (Hsim : (ratio (chars (normalize new_label))
                      (chars (normalize (i_label ing))) == 1)%Q)
      by (rewrite Hnorm; apply ratio_self).
    split_and!; [|done|done].
    rewrite sorted_reverse_perm. apply list_elem_of_omap. exists ing.
    split; [done|]. simpl.
    assert (Hlt : Qltb threshold
                    (ratio (chars (normalize new_label))
                       (chars (normalize (i_label ing)))) = true)
      by (apply Qltb_lt; by rewrite Hsim).
    by rewrite Hlt.
  - rewrite sorted_reverse_perm. apply omap_length_le.
Qed.

(** ** Long-format export *)

Lemma recipes_by_id_spec rows acc by_id :
  recipes_by_id rows acc = Ok by_id →
  (∀ r, r ∈ rows → is_Some (recipe_id r))
  ∧ ∀ id, by_id !! id
          = match last (filter (λ r, recipe_id r = Some id) rows) with
            | Some r => Some r
            | None => acc !! id
            end.
Proof.
  revert acc. induction rows as [|r rows IH]; intros acc H; simpl in H.
  - inv_ok. split; [|done]. intros r Hr. by apply elem_of_nil in Hr.
  - inv_bind H as rid Hrid. apply subscript_Ok in Hrid.
    destruct (IH _ H) as [Hids Hlook]. split.
    + intros x Hx. apply elem_of_cons in Hx as [->|Hx]; [by eexists|auto].
    + intros id. rewrite Hlook, filter_cons.
      destruct (decide (recipe_id r = Some id)) as [Heq|Hne].
      * rewrite last_cons. destruct (last _); [done|].
        assert (rid = id) as -> by congruence. by rewrite lookup_insert_eq.
      * destruct (last _); [done|].
        rewrite lookup_insert_ne; [done|]. congruence.
Qed.

Lemma recipes_by_id_total rows acc :
  (∀ r, r ∈ rows → is_Some (recipe_id r)) →
  ∃ by_id, recipes_by_id rows acc = Ok by_id.
Proof.
  revert acc. induction rows as [|r rows IH]; intros acc Hids; simpl;
    [by eexists|].
  destruct (Hids r) as [id ->]; [by apply elem_of_cons; left|]. simpl.
  apply IH. intros j Hj. apply Hids. by apply elem_of_cons; right.
Qed.

Lemma last_filter_None {X} (P : X → Prop) `{∀ x, Decision (P x)} l :
  last (filter P l) = None ↔ ∀ x, x ∈ l → ¬ P x.
Proof.
  rewrite last_None. split.
  - intros Hnil x Hx HP.
    assert (Hin : x ∈ filter P l) by (by apply list_elem_of_filter).
    rewrite Hnil in Hin. by apply elem_of_nil in Hin.
  - intros Hall. destruct (filter P l) as [|y l'] eqn:Hf; [done|].
    assert (Hin : y ∈ filter P l) by (rewrite Hf; by left).
    apply list_elem_of_filter in Hin as [HP Hin]. by destruct (Hall y Hin).
Qed.

Lemma last_filter_elem_of {X} (P : X → Prop) `{∀ x, Decision (P x)} l x :
  last (filter P l) = Some x → x ∈ l ∧ P x.
Proof.
  intros Hl. apply last_Some in Hl as [l' Hl].
  assert (Hin : x ∈ filter P l).
  { rewrite Hl. apply elem_of_app. right. by apply list_elem_of_singleton. }
  apply list_elem_of_filter in Hin. tauto.
Qed.

(** A dictionary built from rows has a key exactly when a row carries it. *)
Lemma by_id_key_iff {R} (key : R → option Z) rows (by_id : gmap Z R) :
  (∀ id, by_id !! id
         = match last (filter (λ r, key r = Some id) rows) with
           | Some r => Some r
           | None => None
           end) →
  ∀ id, by_id !! id = None ↔ Some id ∉ map key rows.
Proof.
  intros Hlook id. rewrite Hlook. split.
  - intros H Hin. apply list_elem_of_fmap in Hin as (r & Hr & Hin).
    destruct (last _) eqn:Hl; [done|].
    pose proof (proj1 (last_filter_None _ _) Hl) as Hall.
    by apply (Hall r).
  - intros Hn. destruct (last _) as [r|] eqn:Hl; [|done].
    apply last_filter_elem_of in Hl as [Hin Hk]. exfalso. apply Hn.
    apply list_elem_of_fmap. by exists r.
Qed.

Lemma add_alias_label_lookup acc a id :
  default [] (add_alias_label acc a !! id)
  = default [] (acc !! id) ++ english_labels id [a].
Proof.
  unfold add_alias_label, english_labels. rewrite filter_cons, filter_nil.
  destruct (decide (get (a_language a) = Some "en"%string)) as [Hen|Hen].
  - destruct (decide (a_ingredient_id a = id)) as [<-|Hne].
    + rewrite decide_True by done. simpl. rewrite lookup_insert_eq. simpl.
      destruct (acc !! a_ingredient_id a) eqn:Hacc; simpl.
      * by rewrite Hacc.
      * by rewrite lookup_insert_eq.
    + rewrite decide_False by tauto. simpl. rewrite app_nil_r.
      rewrite lookup_insert_ne by done.
      destruct (acc !! a_ingredient_id a); [done|].
      by rewrite lookup_insert_ne.
  - rewrite decide_False by tauto. simpl. rewrite app_nil_r.
    destruct (acc !! a_ingredient_id a) eqn:Hacc; [done|].
    destruct (decide (a_ingredient_id a = id)) as [<-|Hne].
    + by rewrite lookup_insert_eq, Hacc.
    + by rewrite lookup_insert_ne.
Qed.

Lemma ingredient_aliases_lookup als acc id :
  default [] (foldl add_alias_label acc als !! id)
  = default [] (acc !! id) ++ english_labels id als.
Proof.
  revert acc. induction als as [|a als IH]; intros acc; simpl.
  - unfold english_labels. by rewrite filter_nil, app_nil_r.
  - rewrite IH, add_alias_label_lookup, <- app_assoc. f_equal.
    unfold english_labels. rewrite <- map_app. f_equal.
    by rewrite (filter_app _ [a] als).
Qed.

Lemma filter_nil_iff_gen {X} (P : X → Prop) `{∀ x, Decision (P x)} l :
  (∀ x, x ∈ l → ¬ P x) → filter P l = [].
Proof.
  intros Hall. destruct (filter P l) as [|y l'] eqn:Hf; [done|].
  assert (Hin : y ∈ filter P l) by (rewrite Hf; by left).
  apply list_elem_of_filter in Hin as [HP Hin]. by destruct (Hall y Hin).
Qed.

(** The steps of [export]. *)
Lemma export_inv os m out_path o :
  export os m out_path = Ok o →
  ∃ rbi ibi,
    recipes_by_id (recipes m) ∅ = Ok rbi
    ∧ index_by_id (ingredients m) ∅ = Ok ibi
    ∧ ((o = ExportExit 1
        ∧ ∃ e, e ∈ entries m
               ∧ (rbi !! e_recipe_id e = None
                  ∨ ibi !! e_ingredient_id e = None))
       ∨ ((∀ e, e ∈ entries m →
             is_Some (rbi !! e_recipe_id e)
             ∧ is_Some (ibi !! e_ingredient_id e))
          ∧ ∃ rows,
              comprehension
                (long_row_of rbi ibi
                   (foldl add_alias_label ∅ (aliases m))) (entries m)
              = Ok rows
              ∧ makedirs os (dirname out_path) = Ok ()
              ∧ o = if write_succeeds os out_path then ExportRows rows
                    else ExportExit 1)).
Proof.
  unfold export. intros H. inv_bind H as rbi Hr.
  inv_bind H as ibi Hi. exists rbi, ibi.
  split_and!; [done|done|].
  destruct (decide (map e_recipe_id
              (filter (λ e, rbi !! e_recipe_id e = None) (entries m))
            = [])) as [Hmr|Hmr].
  2: { rewrite bool_decide_eq_false_2 in H by done. simpl in H. inv_ok.
       left. split; [done|].
       destruct (filter _ (entries m)) as [|e l] eqn:Hf; [done|].
       assert (Hin : e ∈ filter (λ e, rbi !! e_recipe_id e = None)
                           (entries m)) by (rewrite Hf; by left).
       apply list_elem_of_filter in Hin as [Hn Hin]. exists e. tauto. }
  rewrite bool_decide_eq_true_2 in H by done. simpl in H.
  destruct (decide (map e_ingredient_id
              (filter (λ e, ibi !! e_ingredient_id e = None)
                 (entries m)) = [])) as [Hmi|Hmi].
  2: { rewrite bool_decide_eq_false_2 in H by done. simpl in H. inv_ok.
       left. split; [done|].
       destruct (filter (λ e, ibi !! e_ingredient_id e = None) (entries m))
         as [|e l] eqn:Hf; [done|].
       assert (Hin : e ∈ filter
                           (λ e, ibi !! e_ingredient_id e = None)
                           (entries m)) by (rewrite Hf; by left).
       apply list_elem_of_filter in Hin as [Hn Hin]. exists e. tauto. }
  rewrite bool_decide_eq_true_2 in H by done. simpl in H.
  inv_bind H as rows Hrows. inv_bind H as u Hdir. destruct u.
  right. split.
  2: { exists rows. split_and!; [done|done|].
       destruct (write_succeeds os out_path); by inv_ok. }
  apply map_eq_nil in Hmr, Hmi. intros e He. split.
  - destruct (rbi !! e_recipe_id e) eqn:Hl; [by eexists|].
    assert (Hin : e ∈ filter (λ e, rbi !! e_recipe_id e = None)
                        (entries m)) by (by apply list_elem_of_filter).
    rewrite Hmr in Hin. by apply elem_of_nil in Hin.
  - destruct (ibi !! e_ingredient_id e) eqn:Hl; [by eexists|].
    assert (Hin : e ∈ filter (λ e, ibi !! e_ingredient_id e = None)
                        (entries m)) by (by apply list_elem_of_filter).
    rewrite Hmi in Hin. by apply elem_of_nil in Hin.
Qed.

Lemma comprehension_length {X Y} (f : X → result Y) xs ys :
  comprehension f xs = Ok ys → length ys = length xs.
Proof.
  revert ys. induction xs as [|x xs IH]; intros ys H; simpl in H.
  - by inv_ok.
  - inv_bind H as y Hy. inv_bind H as ys' Hys. inv_ok. simpl.
    by rewrite (IH _ Hys).
Qed.

Lemma comprehension_lookup {X Y} (f : X → result Y) xs ys k x :
  comprehension f xs = Ok ys → xs !! k = Some x →
  ∃ y, ys !! k = Some y ∧ f x = Ok y.
Proof.
  revert ys k. induction xs as [|x0 xs IH]; intros ys k H Hk; simpl in H.
  - by rewrite lookup_nil in Hk.
  - inv_bind H as y Hy. inv_bind H as ys' Hys. inv_ok.
    destruct k as [|k]; simpl in Hk.
    + injection Hk as ->. by exists y.
    + by apply (IH _ _ Hys).
Qed.

Lemma long_row_of_total recipes ingredients ingredient_aliases rows e :
  (∀ id, ingredients !! id
         = match last (filter (λ i, ingredient_id i = Some id) rows) with
           | Some i => Some i
           | None => None
           end) →
  is_Some (recipes !! e_recipe_id e) →
  is_Some (ingredients !! e_ingredient_id e) →
  ∃ row, long_row_of recipes ingredients ingredient_aliases e = Ok row.
Proof.
  intros Hli [r Hr] [i Hi]. unfold long_row_of, lookup_id.
  rewrite Hr, Hi. simpl. rewrite Hli in Hi.
  destruct (last _) as [i'|] eqn:Hl; [|done]. injection Hi as ->.
  apply last_filter_elem_of in Hl as [_ Hid]. rewrite Hid. simpl. by eexists.
Qed.

(** The directory part of a path is empty exactly when the path has no
    slash. *)
Lemma up_to_last_nil sep cs : up_to_last sep cs = [] ↔ sep ∉ cs.
Proof.
  induction cs as [|c cs IH]; simpl.
  - split; [|done]. intros _. apply not_elem_of_nil.
  - rewrite not_elem_of_cons. destruct (up_to_last sep cs) as [|x rest].
    + destruct (Ascii.eqb c sep) eqn:Hc.
      * apply Ascii.eqb_eq in Hc as ->. split; [done|]. by intros [? _].
      * apply Ascii.eqb_neq in Hc. split; [|done]. intros _.
        split; [congruence|]. by apply IH.
    + split; [done|]. intros [_ Hn]. by apply IH in Hn.
Qed.

Lemma rstrip_char_nil sep cs :
  rstrip_char sep cs = [] → forallb (Ascii.eqb sep) cs = true.
Proof.
  induction cs as [|c cs IH]; simpl; [done|].
  destruct (rstrip_char sep cs) as [|x rest]; [|done].
  destruct (Ascii.eqb c sep) eqn:Hc; [|done].
  apply Ascii.eqb_eq in Hc as ->. intros _.
  by rewrite Ascii.eqb_refl, IH.
Qed.

Lemma text_nil cs : text cs = ""%string → cs = [].
Proof. by destruct cs. Qed.

Lemma dirname_empty_iff p : dirname p = ""%string ↔ "/"%char ∉ chars p.
Proof.
  unfold dirname. rewrite <- up_to_last_nil.
  destruct (forallb _ (up_to_last "/" (chars p))) eqn:Hall.
  - split; [apply text_nil|by intros ->].
  - split.
    + intros H. apply text_nil, rstrip_char_nil in H. congruence.
    + intros H. by rewrite H in Hall.
Qed.

(** X19. On a corpus whose recipe and ingredient rows carry their
    identifiers [export] behaves as follows.  When some entry refers to an
    identifier that no row carries, it leaves with status 1.  Otherwise it
    builds one row per entry, and then: when the output path has no slash, it
    raises [FileNotFoundError], because its directory part is empty; when
    the directory cannot be made, it raises the error of [os.makedirs]; when
    the file cannot be written, it leaves with status 1; and else it writes
    exactly one row per entry. *)
Theorem export_rows_or_exit os m out_path :
  ids_present m →
  (¬ entries_resolve m ∧ export os m out_path = Ok (ExportExit 1))
  ∨ (entries_resolve m
     ∧ ((("/"%char ∉ chars out_path)
         ∧ export os m out_path = Raise (FileNotFoundError ""))
        ∨ ("/"%char ∈ chars out_path
           ∧ match makedirs_error os (dirname out_path) with
             | Some e => export os m out_path = Raise e
             | None =>
                 if write_succeeds os out_path then
                   ∃ rows, export os m out_path = Ok (ExportRows rows)
                           ∧ length rows = length (entries m)
                 else export os m out_path = Ok (ExportExit 1)
             end))).
Proof.
  intros [Hr Hi].
  destruct (recipes_by_id_total (recipes m) ∅ Hr) as [rbi Hrec].
  destruct (index_by_id_total (ingredients m) ∅ Hi) as [ibi Hing].
  destruct (recipes_by_id_spec _ _ _ Hrec) as [_ Hlr].
  destruct (index_by_id_spec _ _ _ Hing) as [_ Hli].
  pose proof (by_id_key_iff recipe_id (recipes m) rbi Hlr) as Hkr.
  pose proof (by_id_key_iff ingredient_id (ingredients m) ibi Hli)
    as Hki.
  assert (Hsome_r : ∀ id, is_Some (rbi !! id)
                          ↔ Some id ∈ map recipe_id (recipes m)).
  { intros id. specialize (Hkr id). destruct (rbi !! id).
    - split; [|by eexists]. intros _.
      destruct (decide (Some id ∈ map recipe_id (recipes m)))
        as [|Hn]; [done|]. by apply Hkr in Hn.
    - split; [by intros [? ?]|]. intros Hin. by destruct (proj1 Hkr). }
  assert (Hsome_i : ∀ id, is_Some (ibi !! id)
                          ↔ Some id ∈ map ingredient_id (ingredients m)).
  { intros id. specialize (Hki id). destruct (ibi !! id).
    - split; [|by eexists]. intros _.
      destruct (decide (Some id
                        ∈ map ingredient_id (ingredients m)))
        as [|Hn]; [done|]. by apply Hki in Hn.
    - split; [by intros [? ?]|]. intros Hin. by destruct (proj1 Hki). }
  destruct (decide (Forall
              (λ e, is_Some (rbi !! e_recipe_id e)
                    ∧ is_Some (ibi !! e_ingredient_id e))
              (entries m))) as [Hall|Hnall].
  - rewrite Forall_forall in Hall. right. split.
    { intros e He. destruct (Hall e He). split.
      - by apply Hsome_r.
      - by apply Hsome_i. }
    destruct (proj2 (comprehension_Ok_iff
                (long_row_of rbi ibi
                   (foldl add_alias_label ∅ (aliases m))) (entries m)))
      as [rows Hrows].
    { intros e He. destruct (Hall e He).
      by eapply long_row_of_total. }
    assert (Hrun : export os m out_path
                   = (_ ← makedirs os (dirname out_path);
                      if write_succeeds os out_path then Ok (ExportRows rows)
                      else Ok (ExportExit 1))).
    { unfold export. rewrite Hrec. simpl. rewrite Hing. simpl.
      rewrite (filter_nil_iff_gen _ (entries m)).
      2: { intros e He HP. destruct (Hall e He) as [[? ?] _]. congruence. }
      rewrite (filter_nil_iff_gen _ (entries m)).
      2: { intros e He HP. destruct (Hall e He) as [_ [? ?]]. congruence. }
      simpl. by rewrite Hrows. }
    rewrite Hrun. unfold makedirs.
    destruct (decide (dirname out_path = ""%string)) as [Hd|Hd].
    + left. split; [by apply dirname_empty_iff|done].
    + right. split.
      { destruct (decide ("/"%char ∈ chars out_path)) as [|Hn]; [done|].
        by apply dirname_empty_iff in Hn. }
      destruct (makedirs_error os (dirname out_path)); [done|]. simpl.
      destruct (write_succeeds os out_path); [|done].
      exists rows. split; [done|]. by eapply comprehension_length.
  - left. apply not_Forall_Exists in Hnall; [|apply _].
    apply Exists_exists in Hnall as (e & He & Hne). split.
    { intros Hres. apply Hne. destruct (Hres e He). split.
      - by apply Hsome_r.
      - by apply Hsome_i. }
    unfold export. rewrite Hrec. simpl. rewrite Hing. simpl.
    destruct (decide (rbi !! e_recipe_id e = None)) as [Hn|Hn].
    + assert (Hin : e ∈ filter (λ e, rbi !! e_recipe_id e = None)
                          (entries m)) by (by apply list_elem_of_filter).
      destruct (filter _ (entries m)); [by apply elem_of_nil in Hin|done].
    + assert (Hn' : ibi !! e_ingredient_id e = None).
      { destruct (ibi !! e_ingredient_id e) eqn:Hl; [|done].
        exfalso. apply Hne. split; [|by eexists].
        by destruct (rbi !! e_recipe_id e); [eexists|]. }
      assert (Hin : e ∈ filter (λ e, ibi !! e_ingredient_id e = None)
                          (entries m)) by (by apply list_elem_of_filter).
      destruct (bool_decide _); [|done]. simpl.
      destruct (filter (λ e, ibi !! _ = None) (entries m));
        [by apply elem_of_nil in Hin|done].
Qed.

Lemma sample_corpus_entries_resolve : entries_resolve sample_corpus.
Proof.
  intros e He. simpl in He.
  apply elem_of_cons in He as [->|He];
    [|apply list_elem_of_singleton in He as ->];
    split; by apply list_elem_of_singleton.
Qed.

Lemma export_rows_or_exit_witness :
  (∃ rows,
     export sample_os sample_corpus "docs/kyphi_long.json"
     = Ok (ExportRows rows)
     ∧ length rows = length (entries sample_corpus))
  ∧ export sample_os sample_corpus "out.json"
    = Raise (FileNotFoundError "").
Proof.
  split.
  - destruct (export_rows_or_exit sample_os sample_corpus
                "docs/kyphi_long.json" sample_corpus_ids_present)
      as [[Hn _]|(_ & [[Hn _]|[_ Hrun]])].
    + destruct (Hn sample_corpus_entries_resolve).
    + exfalso. apply Hn. apply (bool_decide_unpack _). by vm_compute.
    + exact Hrun.
  - destruct (export_rows_or_exit sample_os sample_corpus "out.json"
                sample_corpus_ids_present)
      as [[Hn _]|(_ & [[_ Hrun]|[Hin _]])].
    + destruct (Hn sample_corpus_entries_resolve).
    + exact Hrun.
    + exfalso. revert Hin. apply (bool_decide_unpack _). by vm_compute.
Defined.

(** X20. The rows that [export] writes describe the entries in their order:
    the row of an entry has the label of the last recipe row and of the last
    ingredient row that carry the identifiers of the entry, the amount,
    preparation and notes of the entry with a missing key exported as [null],
    and, in its aliases column, the variant labels of the English aliases of
    that ingredient, in the order of the aliases, joined by a comma and a
    space. *)
Theorem export_row_content os m out_path rows k e :
  export os m out_path = Ok (ExportRows rows) →
  entries m !! k = Some e →
  ∃ row r i,
    rows !! k = Some row
    ∧ last (filter (λ r, recipe_id r = Some (e_recipe_id e)) (recipes m))
      = Some r
    ∧ last (filter (λ i, ingredient_id i = Some (e_ingredient_id e))
              (ingredients m)) = Some i
    ∧ lr_recipe row = r_label r
    ∧ lr_ingredient row = i_label i
    ∧ lr_amount row = get (amount_raw e)
    ∧ lr_preparation row = get (preparation e)
    ∧ lr_notes row = get (notes e)
    ∧ lr_aliases row
      = aliases_text (english_labels (e_ingredient_id e) (aliases m)).
Proof.
  intros H Hk.
  apply export_inv in H as (rbi & ibi & Hrec & Hing & Hcase).
  destruct Hcase as [[[=] _]|(_ & rows' & Hrows & _ & Ho)].
  destruct (write_succeeds os out_path); [|done]. injection Ho as ->.
  destruct (recipes_by_id_spec _ _ _ Hrec) as [_ Hlr].
  destruct (index_by_id_spec _ _ _ Hing) as [_ Hli].
  destruct (comprehension_lookup _ _ _ _ _ Hrows Hk) as (row & Hrow & Hof).
  unfold long_row_of, lookup_id in Hof.
  inv_bind Hof as r Hr. inv_bind Hof as i Hi. inv_bind Hof as iid Hiid.
  apply subscript_Ok in Hr, Hi, Hiid. injection Hof as <-.
  rewrite Hlr in Hr. rewrite Hli in Hi.
  destruct (last (filter (λ r, recipe_id r = Some (e_recipe_id e)) _))
    as [r'|] eqn:Hlast_r; [|done].
  destruct (last (filter (λ i, ingredient_id i = Some (e_ingredient_id e)) _))
    as [i'|] eqn:Hlast_i; [|done].
  injection Hr as ->. injection Hi as ->.
  eexists _, r, i. split_and!; try done. simpl.
  apply last_filter_elem_of in Hlast_i as [_ Hid].
  assert (iid = e_ingredient_id e) as -> by congruence.
  f_equal. by rewrite ingredient_aliases_lookup.
Qed.

Lemma export_row_content_witness :
  ∃ row, lr_recipe row = "Kyphi of 28 ingredients"%string
         ∧ lr_preparation row = Some "strained"%string
         ∧ lr_aliases row = ""%string.
Proof.
  destruct (export sample_os sample_corpus "docs/kyphi_long.json")
    as [[status|rows]|] eqn:Hrun;
    [by vm_compute in Hrun| |by vm_compute in Hrun].
  destruct (export_row_content sample_os sample_corpus
              "docs/kyphi_long.json" rows 1
              (Entry (Some 2) 1 1 (Text "2 hin") JNull Null (Text "strained")
                 Null Null Null (Text "2025-09-02T10:00:00") (Text "gpt"))
              Hrun eq_refl)
    as (row & r & i & _ & Hr & _ & Hlr & _ & _ & Hp & _ & Ha).
  exists row. split_and!.
  - rewrite Hlr. vm_compute in Hr. by injection Hr as <-.
  - done.
  - rewrite Ha. reflexivity.
Defined.

(** ** The count stated by a recipe label *)












(** ** The completeness check *)

Section dict_facts.
Context {K V : Type} `{EqDecision K}.
Implicit Types (d : list (K * list V)).

Lemma dict_get_append k k' (v : V) d :
  dict_get k (dict_append k' v d)
  = if decide (k' = k) then Some (default [] (dict_get k d) ++ [v])
    else dict_get k d.
Proof.
  induction d as [|[k0 vs] d IH]; simpl.
  - by destruct (decide (k' = k)).
  - destruct (decide (k0 = k')) as [->|Hne]; simpl.
    + by destruct (decide (k' = k)).
    + destruct (decide (k0 = k)) as [->|Hne']; [|done].
      by rewrite decide_False by done.
Qed.

Lemma dict_get_group (key : V → K) (es : list V) d0 k :
  default [] (dict_get k (foldl (λ d e, dict_append (key e) e d) d0 es))
  = default [] (dict_get k d0) ++ filter (λ e, key e = k) es
  ∧ (is_Some (dict_get k (foldl (λ d e, dict_append (key e) e d) d0 es))
     ↔ is_Some (dict_get k d0) ∨ k ∈ map key es).
Proof.
  revert d0. induction es as [|e es IH]; intros d0; simpl.
  - rewrite app_nil_r, elem_of_nil. split; [done|tauto].
  - destruct (IH (dict_append (key e) e d0)) as [-> ->].
    rewrite dict_get_append, filter_cons, elem_of_cons.
    destruct (decide (key e = k)) as [Heq|Hne]; simpl.
    + rewrite <- app_assoc. split; [done|]. split; [by intros; right; left|].
      intros _. left. by eexists.
    + split; [done|]. split; [tauto|]. intros [?|[?|?]]; [tauto| |tauto].
      congruence.
Qed.

Lemma dict_get_snoc k k' d :
  dict_get k (d ++ [(k', [])])
  = match dict_get k d with
    | Some vs => Some vs
    | None => if decide (k' = k) then Some [] else None
    end.
Proof.
  induction d as [|[k0 vs] d IH]; simpl; [done|].
  by destruct (decide (k0 = k)).
Qed.

Lemma dict_get_touch k k' d :
  default [] (dict_get k (dict_touch k' d)) = default [] (dict_get k d)
  ∧ (is_Some (dict_get k (dict_touch k' d))
     ↔ is_Some (dict_get k d) ∨ k' = k).
Proof.
  unfold dict_touch. destruct (dict_get k' d) as [vs'|] eqn:Hk'.
  - split; [done|]. split; [tauto|]. intros [?|<-]; [done|].
    rewrite Hk'. by eexists.
  - rewrite dict_get_snoc. destruct (dict_get k d) as [vs|] eqn:Hk.
    + split; [done|]. split; [by left|by eexists].
    + destruct (decide (k' = k)) as [->|Hne].
      * split; [done|]. split; [by right|by eexists].
      * split; [done|]. split; [by intros [? [=]]|].
        by intros [[? [=]]|?].
Qed.



End dict_facts.

(** One round of the loop over the recipes. *)
Lemma check_recipe_step strict ebr issues warnings id r :
  ∃ issues' warnings',
    check_recipe strict (ebr, issues, warnings) (id, r)
    = (dict_touch id ebr, issues', warnings')
    ∧ ((issues' = issues
        ∧ ∀ n, extract_ingredient_count_from_label (r_label r) = Some n →
               Z.of_nat (length (default [] (dict_get id ebr))) = n)
       ∨ (∃ n x, issues' = issues ++ [x]
                 ∧ extract_ingredient_count_from_label (r_label r) = Some n
                 ∧ Z.of_nat (length (default [] (dict_get id ebr))) ≠ n))
    ∧ ∀ strict' warnings2,
        (check_recipe strict' (ebr, issues, warnings2) (id, r)).1
        = (dict_touch id ebr, issues').
Proof.
  unfold check_recipe.
  rewrite (proj1 (dict_get_touch id id ebr)).
  destruct (extract_ingredient_count_from_label (r_label r)) as [n|].
  - destruct (decide (_ ≠ n)) as [Hne|Heq].
    + eexists _, _. split_and!; [done| |done]. right. by eexists _, _.
    + eexists _, _. split_and!; [done| |done]. left. split; [done|].
      intros n' [= <-]. by destruct (decide (Z.of_nat
        (length (default [] (dict_get id ebr))) = n)).
  - destruct (_ && strict).
    + eexists _, _. split_and!; [done| |].
      * left. split; [done|]. by intros n [=].
      * intros strict' w2. by destruct (_ && strict').
    + eexists _, _. split_and!; [done| |].
      * left. split; [done|]. by intros n [=].
      * intros strict' w2. by destruct (_ && strict').
Qed.

Lemma check_recipes_spec strict items ebr0 issues0 warnings0 :
  (∀ id, default []
           (dict_get id
              (foldl (check_recipe strict) (ebr0, issues0, warnings0)
                 items).1.1)
         = default [] (dict_get id ebr0))
  ∧ (∀ id, is_Some
             (dict_get id
                (foldl (check_recipe strict) (ebr0, issues0, warnings0)
                   items).1.1)
           ↔ is_Some (dict_get id ebr0) ∨ id ∈ map fst items)
  ∧ ((foldl (check_recipe strict) (ebr0, issues0, warnings0) items).1.2 = []
     ↔ issues0 = []
       ∧ ∀ id r n, (id, r) ∈ items →
           extract_ingredient_count_from_label (r_label r) = Some n →
           Z.of_nat (length (default [] (dict_get id ebr0))) = n)
  ∧ (∀ x, x ∈ (foldl (check_recipe strict) (ebr0, issues0, warnings0)
                 items).1.2 →
       x ∈ issues0
       ∨ ∃ id r n, (id, r) ∈ items
           ∧ extract_ingredient_count_from_label (r_label r) = Some n
           ∧ Z.of_nat (length (default [] (dict_get id ebr0))) ≠ n)
  ∧ ∀ strict' warnings2,
      (foldl (check_recipe strict') (ebr0, issues0, warnings2) items).1
      = (foldl (check_recipe strict) (ebr0, issues0, warnings0) items).1.
Proof.
  revert ebr0 issues0 warnings0.
  induction items as [|[id r] items IH]; intros ebr0 issues0 warnings0.
  - simpl. split_and!; [done| | |by left|done].
    + intros id. rewrite elem_of_nil. tauto.
    + split; [|tauto]. intros ->. split; [done|].
      intros id r n Hin. by apply elem_of_nil in Hin.
  - cbn [foldl].
    destruct (check_recipe_step strict ebr0 issues0 warnings0 id r)
      as (issues1 & warnings1 & Hstep & Hissues & Hindep).
    rewrite Hstep.
    destruct (IH (dict_touch id ebr0) issues1 warnings1)
      as (Hget & Hkeys & Hnil & Hfrom & Hsame).
    split_and!.
    + intros k. rewrite Hget. apply dict_get_touch.
    + intros k. rewrite Hkeys, (proj2 (dict_get_touch k id ebr0)).
      simpl. rewrite elem_of_cons. split.
      * intros [[?|?]|?]; [tauto|right; by left|tauto].
      * intros [?|[?|?]]; [tauto|left; by right|tauto].
    + rewrite Hnil. split.
      * intros [Hi1 Hall].
        destruct Hissues as [[-> Hok]|(n & x & -> & _)];
          [|by destruct issues0].
        split; [done|]. intros k r' n Hin Hn.
        apply elem_of_cons in Hin as [[= -> ->]|Hin]; [by apply Hok|].
        rewrite <- (proj1 (dict_get_touch k id ebr0)). by eapply Hall.
      * intros [-> Hall].
        destruct Hissues as [[-> Hok]|(n & x & -> & Hn & Hne)].
        -- split; [done|]. intros k r' n Hin Hn.
           rewrite (proj1 (dict_get_touch k id ebr0)).
           eapply Hall; [|done]. by right.
        -- exfalso. apply Hne. eapply Hall; [|done]. by left.
    + intros x Hx. destruct (Hfrom x Hx) as [Hin|(k & r' & n & Hin & Hn & Hne)].
      * destruct Hissues as [[-> Hok]|(n & y & -> & Hn & Hne)]; [by left|].
        apply elem_of_app in Hin as [Hin|Hin]; [by left|].
        right. exists id, r, n. split_and!; [by left|done|done].
      * right. exists k, r', n. split_and!; [by right|done|].
        by rewrite <- (proj1 (dict_get_touch k id ebr0)).
    + intros strict' w2.
      destruct (check_recipe strict' (ebr0, issues0, w2) (id, r))
        as [[ebr' issues'] w'] eqn:Hstep'.
      pose proof (Hindep strict' w2) as Heq. rewrite Hstep' in Heq.
      simpl in Heq. injection Heq as -> ->. apply Hsame.
Qed.

Lemma elem_of_sorted_items (recipes : gmap Z recipe) id r :
  (id, r) ∈ py_sorted (λ x y : Z * recipe, x.1 <? y.1) (map_to_list recipes)
  ↔ recipes !! id = Some r.
Proof. by rewrite elem_of_py_sorted, elem_of_map_to_list. Qed.

(** The steps of [validate_completeness]. *)
Lemma validate_completeness_inv strict data code rep :
  validate_completeness strict data = Ok (code, rep) →
  ∃ rbi ibi st,
    recipes_by_id (recipes data) ∅ = Ok rbi
    ∧ index_by_id (ingredients data) ∅ = Ok ibi
    ∧ st = foldl (check_recipe strict)
             (foldl (λ d entry, dict_append (e_recipe_id entry) entry d) []
                (entries data), [], [])
             (py_sorted (λ x y : Z * recipe, x.1 <? y.1) (map_to_list rbi))
    ∧ for_each (check_notes rbi) st.1.1 (0%nat, 0%nat)
      = Ok (cr_optional_count rep, cr_alternative_count rep, cr_notes rep)
    ∧ cr_issues rep = st.1.2
    ∧ code = if bool_decide (st.1.2 = []) then 0 else 1.
Proof.
  unfold validate_completeness. intros H.
  inv_bind H as rbi Hr. inv_bind H as ibi Hi. exists rbi, ibi.
  destruct (foldl (check_recipe strict) _ _) as [[ebr issues] warnings]
    eqn:Hfold.
  inv_bind H as [[oc ac] notes] Hn. injection H as <- <-.
  eexists. split_and!; [done|done|done| | |]; by rewrite Hfold.
Qed.

Lemma group_count data id :
  length (default []
            (dict_get id
               (foldl (λ d entry, dict_append (e_recipe_id entry) entry d) []
                  (entries data))))
  = length (filter (λ e, e_recipe_id e = id) (entries data)).
Proof.
  by rewrite (proj1 (dict_get_group e_recipe_id (entries data) [] id)).
Qed.

(** X22. When [validate_completeness] returns, it returns 1 exactly when
    some recipe has a label that states a count different from the number of
    its entries, and 0 otherwise.  The [--strict] flag changes neither the
    value returned nor the mismatches found: it only adds warnings. *)
Theorem validate_completeness_exit_code strict data code rep :
  validate_completeness strict data = Ok (code, rep) →
  (code = 1 ↔ count_mismatch data)
  ∧ (code = 0 ↔ ¬ count_mismatch data)
  ∧ ∃ rep', validate_completeness (negb strict) data = Ok (code, rep')
            ∧ cr_issues rep' = cr_issues rep.
Proof.
  intros H. pose proof H as Hrun.
  apply validate_completeness_inv in H
    as (rbi & ibi & st & Hr & Hi & Hst & Hnotes & Hissues & Hcode).
  destruct (recipes_by_id_spec _ _ _ Hr) as [_ Hlook].
  destruct (check_recipes_spec strict
              (py_sorted (λ x y : Z * recipe, x.1 <? y.1) (map_to_list rbi))
              (foldl (λ d entry, dict_append (e_recipe_id entry) entry d) []
                 (entries data)) [] [])
    as (_ & _ & Hnil & Hfrom & Hsame).
  rewrite <- Hst in Hnil, Hfrom.
  assert (Hitem : ∀ id r,
            (id, r) ∈ py_sorted (λ x y : Z * recipe, x.1 <? y.1)
                        (map_to_list rbi)
            ↔ recipe_of data id = Some r).
  { intros id r. rewrite elem_of_sorted_items, Hlook. unfold recipe_of.
    by destruct (last _). }
  assert (Hno : st.1.2 = [] → ¬ count_mismatch data).
  { intros Hn (id & r & n & Hrow & Hn' & Hne). apply Hne.
    rewrite <- group_count. eapply (proj2 (proj1 Hnil Hn)); [|done].
    by apply Hitem. }
  assert (Hyes : st.1.2 ≠ [] → count_mismatch data).
  { intros Hn. destruct (st.1.2) as [|x l] eqn:Hl; [done|].
    destruct (Hfrom x) as [Hin|(id & r & n & Hin & Hn' & Hne)]; [by left| |].
    - by apply elem_of_nil in Hin.
    - exists id, r, n. split_and!; [by apply Hitem|done|].
      by rewrite <- group_count. }
  split_and!.
  - rewrite Hcode. destruct (bool_decide_reflect (st.1.2 = [])) as [Hn|Hn].
    + split; [done|]. intros Hm. by destruct (Hno Hn).
    + split; [|done]. intros _. by apply Hyes.
  - rewrite Hcode. destruct (bool_decide_reflect (st.1.2 = [])) as [Hn|Hn].
    + split; [|done]. intros _. by apply Hno.
    + split; [done|]. intros Hm. destruct (Hm (Hyes Hn)).
  - pose proof (Hsame (negb strict) []) as Heq. rewrite <- Hst in Heq.
    unfold validate_completeness. rewrite Hr. simpl. rewrite Hi. simpl.
    destruct (foldl (check_recipe (negb strict)) _ _)
      as [[ebr' issues'] warnings'] eqn:Hfold.
    simpl in Heq. destruct st as [[ebr issues] warnings]. simpl in *.
    injection Heq as -> ->. rewrite Hnotes. simpl.
    eexists. split; [by rewrite Hcode|]. by rewrite Hissues.
Qed.

Lemma validate_completeness_exit_code_witness :
  ∃ rep,
    validate_completeness true sample_corpus = Ok (1, rep)
    ∧ count_mismatch sample_corpus.
Proof.
  destruct (validate_completeness true sample_corpus) as [[code rep]|]
    eqn:Hrun; [|by vm_compute in Hrun].
  assert (Hcode : code = 1) by (vm_compute in Hrun; congruence).
  subst code. exists rep. split; [done|].
  by apply (proj1 (proj1 (validate_completeness_exit_code _ _ _ _ Hrun))).
Defined.



(** ** Suggested slugs *)

Lemma sub_runs_chars sep h b cs :
  Forall (λ c, sep c = false ∨ c = h) (sub_runs sep [h] b cs).
Proof.
  revert b. induction cs as [|c cs IH]; intros b; simpl; [constructor|].
  destruct (sep c) eqn:Hc.
  - destruct b; [done|]. simpl. constructor; [by right|done].
  - constructor; [by left|done].
Qed.

Section sub_runs_facts.
Context (sep : ascii → bool) (h : ascii).
Hypothesis sep_h : sep h = true.

Lemma sub_runs_shape b cs :
  Forall (λ c, sep c = false ∨ c = h) (sub_runs sep [h] b cs)
  ∧ (b = true → head (sub_runs sep [h] b cs) ≠ Some h)
  ∧ ∀ l1 l2, sub_runs sep [h] b cs ≠ l1 ++ h :: h :: l2.
Proof.
  revert b. induction cs as [|c cs IH]; intros b; simpl.
  - split_and!; [constructor|done|]. intros l1 l2 H. by destruct l1.
  - destruct (sep c) eqn:Hc.
    + destruct b.
      * apply IH.
      * destruct (IH true) as (Hall & Hhead & Hdouble). simpl.
        split_and!; [constructor; [by right|done]|done|].
        intros [|x l1] l2 H; simpl in H; apply (f_equal tail) in H;
          simpl in H.
        -- apply Hhead; [done|]. by rewrite H.
        -- by apply (Hdouble l1 l2).
    + destruct (IH false) as (Hall & _ & Hdouble).
      split_and!; [constructor; [by left|done]| |].
      * intros _ [= ->]. congruence.
      * intros [|x l1] l2 H; simpl in H.
        -- apply (f_equal head) in H. simpl in H. congruence.
        -- apply (f_equal tail) in H. simpl in H. by apply (Hdouble l1 l2).
Qed.

Lemma sub_runs_Forall (Q : ascii → Prop) b cs :
  Q h → Forall Q cs → Forall Q (sub_runs sep [h] b cs).
Proof.
  intros Hh Hall. revert b. induction Hall as [|c cs Hc Hall IH];
    intros b; simpl; [constructor|].
  destruct (sep c); [destruct b|]; simpl; auto.
Qed.

(** A text in which the separator characters are single [h]s is left as it
    is. *)
Lemma sub_runs_fixed b cs :
  (∀ c, c ∈ cs → sep c = true → c = h) →
  (b = true → head cs ≠ Some h) →
  (∀ l1 l2, cs ≠ l1 ++ h :: h :: l2) →
  sub_runs sep [h] b cs = cs.
Proof.
  revert b. induction cs as [|c cs IH]; intros b Hsep Hhead Hdouble;
    [done|].
  assert (Hdouble' : ∀ l1 l2, cs ≠ l1 ++ h :: h :: l2).
  { intros l1 l2 ->. by apply (Hdouble (c :: l1) l2). }
  assert (Hsep' : ∀ x, x ∈ cs → sep x = true → x = h).
  { intros x Hx. apply Hsep. by right. }
  simpl. destruct (sep c) eqn:Hc.
  - assert (c = h) as -> by (apply Hsep; [by left|done]).
    destruct b; [by destruct Hhead|]. simpl. f_equal.
    apply IH; [done| |done]. intros _ Hh. destruct cs as [|x cs]; [done|].
    injection Hh as ->. by apply (Hdouble [] cs).
  - f_equal. by apply IH.
Qed.

End sub_runs_facts.

Lemma sub_runs_none sep rep b cs :
  Forall (λ c, sep c = false) cs → sub_runs sep rep b cs = cs.
Proof.
  intros Hall. revert b. induction Hall as [|c cs Hc Hall IH]; intros b;
    simpl; [done|].
  rewrite Hc. by rewrite IH.
Qed.

Section strip_facts.
Context (cls : ascii → bool).

Lemma lstrip_chars_suffix cs : ∃ pre, cs = pre ++ lstrip_chars cls cs.
Proof.
  induction cs as [|c cs [pre IH]]; simpl; [by exists []|].
  destruct (cls c); [|by exists []]. exists (c :: pre). simpl. by f_equal.
Qed.

Lemma lstrip_chars_head cs c :
  head (lstrip_chars cls cs) = Some c → cls c = false.
Proof.
  induction cs as [|x cs IH]; simpl; [done|].
  destruct (cls x) eqn:Hx; [done|]. by intros [= <-].
Qed.

Lemma lstrip_chars_fixed cs :
  (∀ c, head cs = Some c → cls c = false) → lstrip_chars cls cs = cs.
Proof.
  destruct cs as [|c cs]; simpl; [done|]. intros H. by rewrite (H c).
Qed.

Lemma strip_chars_infix cs :
  ∃ pre post, cs = pre ++ strip_chars cls cs ++ post.
Proof.
  unfold strip_chars.
  destruct (lstrip_chars_suffix cs) as [pre Hpre].
  destruct (lstrip_chars_suffix (reverse (lstrip_chars cls cs)))
    as [post Hpost].
  exists pre, (reverse post). rewrite <- reverse_app, <- Hpost.
  by rewrite reverse_involutive.
Qed.

Lemma strip_chars_ends cs c :
  head (strip_chars cls cs) = Some c ∨ last (strip_chars cls cs) = Some c →
  cls c = false.
Proof.
  unfold strip_chars. rewrite head_reverse, last_reverse.
  set (l1 := lstrip_chars cls cs).
  intros [Hlast|Hhead]; [|by eapply lstrip_chars_head].
  destruct (lstrip_chars_suffix (reverse l1)) as [pre Hpre].
  assert (Hl : last (reverse l1) = Some c).
  { rewrite Hpre, last_app. by rewrite Hlast. }
  rewrite last_reverse in Hl. by eapply lstrip_chars_head.
Qed.

Lemma strip_chars_fixed cs :
  (∀ c, head cs = Some c → cls c = false) →
  (∀ c, last cs = Some c → cls c = false) →
  strip_chars cls cs = cs.
Proof.
  intros Hhead Hlast. unfold strip_chars.
  rewrite (lstrip_chars_fixed cs) by done.
  rewrite lstrip_chars_fixed.
  - apply reverse_involutive.
  - intros c. rewrite head_reverse. apply Hlast.
Qed.

End strip_facts.

Lemma is_hyphen_true c : is_hyphen c = true ↔ c = "-"%char.
Proof. apply Ascii.eqb_eq. Qed.

Lemma slug_char_lower c : slug_char c = true → lower_char c = c.
Proof.
  destruct c as [[] [] [] [] [] [] [] []]; vm_compute; congruence.
Qed.

Lemma slug_char_plain c :
  slug_char c = true → is_bracket_or_dot c = false ∧ is_hyphen c = false.
Proof.
  destruct c as [[] [] [] [] [] [] [] []]; vm_compute; intros; split;
    congruence.
Qed.

(** Stripping the hyphens of a text without double hyphens gives kebab
    case. *)
Lemma strip_hyphens_kebab cs :
  Forall (λ c, slug_char c = true ∨ c = "-"%char) cs →
  (∀ l1 l2, cs ≠ l1 ++ "-"%char :: "-"%char :: l2) →
  kebab (strip_chars is_hyphen cs).
Proof.
  intros Hall Hdouble.
  destruct (strip_chars_infix is_hyphen cs) as (pre & post & Hcs).
  split_and!.
  - rewrite Hcs in Hall. apply Forall_app in Hall as [_ Hall].
    by apply Forall_app in Hall as [Hall _].
  - intros Hh. by pose proof (strip_chars_ends is_hyphen cs _ (or_introl Hh)).
  - intros Hl. by pose proof (strip_chars_ends is_hyphen cs _ (or_intror Hl)).
  - intros l1 l2 Heq. apply (Hdouble (pre ++ l1) (l2 ++ post)).
    rewrite Hcs at 1. rewrite Heq. by rewrite <- !app_assoc.
Qed.

Lemma kebab_lower cs : kebab cs → map lower_char cs = cs.
Proof.
  intros [Hall _]. apply map_fixed. eapply Forall_impl; [exact Hall|].
  intros c [Hc| ->]; [by apply slug_char_lower|done].
Qed.

(** A text in kebab case is its own slug, in every language but Greek. *)
Lemma kebab_fixed normalize_greek s language :
  kebab (chars s) → language ≠ "grc"%string →
  suggest_slug normalize_greek s language = s.
Proof.
  intros Hk Hlang. pose proof Hk as (Hall & Hhead & Hlast & Hdouble).
  unfold suggest_slug. rewrite decide_False by done.
  unfold str_lower. rewrite chars_text, (kebab_lower _ Hk).
  assert (Hstrip : strip_chars is_hyphen (chars s) = chars s).
  { apply strip_chars_fixed; intros c Hc;
      destruct (is_hyphen c) eqn:Hh; try done;
      apply is_hyphen_true in Hh as ->; done. }
  destruct (decide (language = "egy"%string)).
  - rewrite filter_all.
    2: { eapply Forall_impl; [exact Hall|]. intros c [Hc| ->]; [|done].
         by rewrite (proj1 (slug_char_plain c Hc)). }
    rewrite (sub_runs_none (λ c, negb (slug_char c || is_hyphen c))).
    2: { eapply Forall_impl; [exact Hall|]. intros c [Hc| ->]; [|done].
         by rewrite Hc. }
    change (chars "-") with ["-"%char].
    rewrite (sub_runs_fixed is_hyphen "-"); [| |done|done].
    + by rewrite Hstrip, text_chars.
    + intros c _. apply is_hyphen_true.
  - change (chars "-") with ["-"%char].
    rewrite (sub_runs_fixed (λ c, negb (slug_char c)) "-"); [| |done|done].
    + by rewrite Hstrip, text_chars.
    + intros c Hc Hsep. apply (proj1 (Forall_forall _ _) Hall) in Hc
        as [Hc|Hc]; [|done]. by rewrite Hc in Hsep.
Qed.

(** X24. A suggested slug is in kebab case, whatever the label and the
    language: it consists of small letters, digits and hyphens, has no
    hyphen at either end and no two hyphens in a row.  For every language
    but Greek the slug of a slug is that slug. *)
Theorem suggest_slug_kebab normalize_greek label language :
  kebab (chars (suggest_slug normalize_greek label language))
  ∧ (language ≠ "grc"%string →
     suggest_slug normalize_greek
       (suggest_slug normalize_greek label language) language
     = suggest_slug normalize_greek label language).
Proof.
  assert (Hk : kebab (chars (suggest_slug normalize_greek label language))).
  { unfold suggest_slug.
    destruct (decide (language = "grc"%string)).
    - rewrite chars_text.
      destruct (sub_runs_shape (λ c, negb (is_small_letter c)) "-" eq_refl
                  false (chars (str_lower (normalize_greek label))))
        as (Hall & _ & Hdouble).
      apply strip_hyphens_kebab; [|done].
      eapply Forall_impl; [exact Hall|]. intros c [Hc|Hc]; [|by right].
      left. apply negb_false_iff in Hc. unfold slug_char. by rewrite Hc.
    - destruct (decide (language = "egy"%string)).
      + rewrite chars_text.
        set (s1 := filter _ (chars (str_lower label))).
        set (s2 := sub_runs _ (chars "-") false s1).
        pose proof (sub_runs_chars (λ c, negb (slug_char c || is_hyphen c))
                      "-" false s1) as Hall2.
        change ["-"%char] with (chars "-") in Hall2. fold s2 in Hall2.
        destruct (sub_runs_shape is_hyphen "-" eq_refl false s2)
          as (_ & _ & Hdouble).
        apply strip_hyphens_kebab; [|done].
        apply (sub_runs_Forall is_hyphen "-"
                 (λ c, slug_char c = true ∨ c = "-"%char)); [by right|].
        eapply Forall_impl; [exact Hall2|]. intros c [Hc|Hc]; [|by right].
        apply negb_false_iff, orb_true_iff in Hc as [Hc|Hc]; [by left|].
        right. by apply is_hyphen_true.
      + rewrite chars_text.
        destruct (sub_runs_shape (λ c, negb (slug_char c)) "-" eq_refl
                    false (chars (str_lower label)))
          as (Hall & _ & Hdouble).
        apply strip_hyphens_kebab; [|done].
        eapply Forall_impl; [exact Hall|]. intros c [Hc|Hc]; [|by right].
        left. by apply negb_false_iff in Hc. }
  split; [done|]. intros Hlang. by apply kebab_fixed.
Qed.

(** ** Looking a term up in the equivalence groups *)

Lemma existsb_names_term search_term terms :
  existsb
    (λ term, bool_decide (normalize_text term = normalize_text search_term))
    terms = true
  ↔ names_term search_term terms.
Proof.
  rewrite existsb_exists. unfold names_term.
  split; intros (term & Hin & H); exists term.
  - apply list_elem_of_In in Hin. by apply bool_decide_eq_true in H.
  - apply list_elem_of_In in Hin. by rewrite bool_decide_eq_true.
Qed.

(** X25. [find_equivalence_group] returns the name of the first group, in
    the order of the file, one of whose terms is the search term up to case
    and surrounding white space, and [None] when no group has such a term;
    search terms that differ in case and surrounding white space only give
    the same answer. *)
Theorem find_equivalence_group_first search_term equivalences :
  (∀ g, find_equivalence_group search_term equivalences = Some g ↔
     ∃ before terms after,
       equivalences = before ++ (g, terms) :: after
       ∧ names_term search_term terms
       ∧ ∀ g' terms', (g', terms') ∈ before →
           ¬ names_term search_term terms')
  ∧ (find_equivalence_group search_term equivalences = None ↔
       ∀ g terms, (g, terms) ∈ equivalences →
         ¬ names_term search_term terms)
  ∧ ∀ other, normalize_text other = normalize_text search_term →
      find_equivalence_group other equivalences
      = find_equivalence_group search_term equivalences.
Proof.
  split_and!.
  - induction equivalences as [|[g0 terms0] eqs IH]; intros g; simpl.
    + split; [done|]. intros (before & terms & after & H & _).
      by destruct before.
    + destruct (existsb _ terms0) eqn:Hex.
      * apply existsb_names_term in Hex. split.
        -- intros [= <-]. exists [], terms0, eqs. split_and!; [done|done|].
           intros g' terms' Hin. by apply elem_of_nil in Hin.
        -- intros ([|[g1 terms1] before] & terms & after & H & Hn & Hb);
             simpl in H.
           ++ by injection H as <- _ _.
           ++ injection H as <- <- _. exfalso.
              apply (Hb g0 terms0); [by left|done].
      * assert (Hno : ¬ names_term search_term terms0).
        { intros Hn. apply existsb_names_term in Hn. congruence. }
        rewrite IH. split.
        -- intros (before & terms & after & -> & Hn & Hb).
           exists ((g0, terms0) :: before), terms, after.
           split_and!; [done|done|]. intros g' terms' Hin.
           apply elem_of_cons in Hin as [[= -> ->]|Hin]; [done|].
           by eapply Hb.
        -- intros ([|[g1 terms1] before] & terms & after & H & Hn & Hb);
             simpl in H.
           ++ injection H as _ <- _. done.
           ++ injection H as _ _ ->. exists before, terms, after.
              split_and!; [done|done|]. intros g' terms' Hin.
              apply (Hb g' terms'). by right.
  - induction equivalences as [|[g0 terms0] eqs IH]; simpl.
    + split; [|done]. intros _ g terms Hin. by apply elem_of_nil in Hin.
    + destruct (existsb _ terms0) eqn:Hex.
      * apply existsb_names_term in Hex. split; [done|]. intros H.
        exfalso. apply (H g0 terms0); [by left|done].
      * assert (Hno : ¬ names_term search_term terms0).
        { intros Hn. apply existsb_names_term in Hn. congruence. }
        rewrite IH. split.
        -- intros H g terms Hin.
           apply elem_of_cons in Hin as [[= -> ->]|Hin]; [done|].
           by eapply H.
        -- intros H g terms Hin. apply (H g terms). by right.
  - intros other Hnorm.
    induction equivalences as [|[g0 terms0] eqs IH]; simpl; [done|].
    rewrite Hnorm, IH. done.
Qed.

(** ** Undoing a merge *)

Lemma omap_cons_Some {X Y} (f : X → option Y) x y l :
  f x = Some y → omap f (x :: l) = y :: omap f l.
Proof.
  intros Hx.
  change (omap f (x :: l))
    with (match f x with Some y => y :: omap f l | None => omap f l end).
  by rewrite Hx.
Qed.

(** Among rows with pairwise different identifiers the search by identifier
    finds the row that carries it. *)
Lemma find_by_id_unique {A} name (key : A → option Z) rows r id :
  (∀ x, x ∈ rows → is_Some (key x)) →
  NoDup (omap key rows) →
  r ∈ rows → key r = Some id →
  find_by_id name key rows id = Ok (Some r).
Proof.
  induction rows as [|x rows IH]; intros Hids Hnd Hin Hk.
  - by apply elem_of_nil in Hin.
  - simpl. destruct (Hids x) as [xid Hx]; [by left|]. rewrite Hx. simpl.
    rewrite (omap_cons_Some _ _ _ _ Hx) in Hnd.
    apply NoDup_cons in Hnd as [Hnotin Hnd].
    apply elem_of_cons in Hin as [->|Hin].
    + assert (xid = id) as -> by congruence. by rewrite decide_True.
    + destruct (decide (xid = id)) as [->|Hne].
      * exfalso. apply Hnotin. apply list_elem_of_omap. by exists r.
      * apply IH; [|done|done|done]. intros y Hy. apply Hids. by right.
Qed.

Lemma ingredient_should_remove_unnamed in_use ing named :
  i_slug ing ∉ map i_slug named →
  ingredient_should_remove in_use ing named = Ok false.
Proof.
  induction named as [|di named IH]; intros Hn; simpl; [done|].
  rewrite decide_False.
  - apply IH. intros Hin. apply Hn. by right.
  - intros Heq. apply Hn. simpl. rewrite Heq. by left.
Qed.

Lemma recipe_should_remove_unnamed in_use r named :
  r_slug r ∉ map r_slug named →
  recipe_should_remove in_use r named = Ok false.
Proof.
  induction named as [|dr named IH]; intros Hn; simpl; [done|].
  rewrite decide_False.
  - apply IH. intros Hin. apply Hn. by right.
  - intros Heq. apply Hn. simpl. rewrite Heq. by left.
Qed.

(** A loop that copies the first rows and drops the others. *)
Lemma for_each_keep_then_drop {X E}
    (body : list X → X → result (list X * list E)) old added :
  (∀ kept x, x ∈ old → body kept x = Ok (kept ++ [x], [])) →
  (∀ x, x ∈ added → ∃ out, body old x = Ok (old, out)) →
  ∃ outs, for_each body (old ++ added) [] = Ok (old, outs).
Proof.
  intros Hold Hadded. rewrite for_each_app.
  rewrite (for_each_keep_all body old Hold []). simpl.
  destruct (for_each_noop body added old Hadded) as [outs ->].
  simpl. by eexists.
Qed.

(** X26. Removing a diff undoes its merge: when a diff that brings new
    things only is merged into a well-formed corpus, the removal pass run
    with the same diff on the merged corpus returns the corpus as it was
    before the merge. *)
Theorem merge_then_remove_round_trip utcnow master d by_whom m1 out1 :
  merge utcnow master d by_whom = Ok (m1, out1) →
  well_formed master →
  brings_new master d →
  ∃ out2, remove_diff m1 d = Ok (master, out2).
Proof.
  intros Hrun ([Hids_r Hids_i] & [Hres_e Hres_a] & Hnd_r & Hnd_i)
    (Hfr & Hfi & Hfa & Hfe).
  apply merge_inv in Hrun
    as (out_r & out_i & seen_a & out_a & st_e & out_e
        & Hr & Hi & Ha & He & Hst & _).
  apply merge_recipe_grows in Hr as (_ & added_r & Er & Hnew_r).
  apply merge_ingredient_grows in Hi as (_ & added_i & Ei & Hnew_i).
  apply merge_alias_grows in Ha as (added_a & Ea & Hnew_a).
  apply merge_entry_grows in He as (added_e & Ee & Hnew_e).
  rewrite Hst in Ee. simpl in Ee, Hnew_e.
  (* the rows of the merged corpus carry pairwise different identifiers *)
  assert (Hids_r1 : ∀ x, x ∈ recipes m1 → is_Some (recipe_id x)).
  { intros x Hx. rewrite Er in Hx. apply elem_of_app in Hx as [Hx|Hx];
      [by apply Hids_r|].
    apply list_elem_of_split in Hx as (pre & post & Hadd).
    destruct (Hnew_r _ _ _ Hadd) as (y & Hy & _ & ->).
    unfold with_recipe_id. rewrite (proj1 (Hfr y Hy)). by eexists. }
  assert (Hids_i1 : ∀ x, x ∈ ingredients m1 → is_Some (ingredient_id x)).
  { intros x Hx. rewrite Ei in Hx. apply elem_of_app in Hx as [Hx|Hx];
      [by apply Hids_i|].
    apply list_elem_of_split in Hx as (pre & post & Hadd).
    destruct (Hnew_i _ _ _ Hadd) as (y & Hy & _ & ->).
    unfold with_ingredient_id. rewrite (proj1 (Hfi y Hy)). by eexists. }
  assert (Hnd_r1 : NoDup (omap recipe_id (recipes m1))).
  { rewrite Er. apply grows_fresh_ids; [|done]. intros pre new post Hadd.
    destruct (Hnew_r _ _ _ Hadd) as (y & Hy & _ & ->).
    unfold with_recipe_id. by rewrite (proj1 (Hfr y Hy)). }
  assert (Hnd_i1 : NoDup (omap ingredient_id (ingredients m1))).
  { rewrite Ei. apply grows_fresh_ids; [|done]. intros pre new post Hadd.
    destruct (Hnew_i _ _ _ Hadd) as (y & Hy & _ & ->).
    unfold with_ingredient_id. by rewrite (proj1 (Hfi y Hy)). }
  (* the rows that the corpus had are found under their identifiers *)
  assert (Hold_r : ∀ id, Some id ∈ map recipe_id (recipes master) →
            ∃ r, r ∈ recipes master
                 ∧ find_by_id "recipe_id" recipe_id (recipes m1) id
                   = Ok (Some r)).
  { intros id Hid. apply list_elem_of_fmap in Hid as (r & Hk & Hin).
    exists r. split; [done|]. apply find_by_id_unique; [done|done| |done].
    rewrite Er. apply elem_of_app. by left. }
  assert (Hold_i : ∀ id, Some id ∈ map ingredient_id (ingredients master) →
            ∃ i, i ∈ ingredients master
                 ∧ find_by_id "ingredient_id" ingredient_id (ingredients m1)
                     id = Ok (Some i)).
  { intros id Hid. apply list_elem_of_fmap in Hid as (i & Hk & Hin).
    exists i. split; [done|]. apply find_by_id_unique; [done|done| |done].
    rewrite Ei. apply elem_of_app. by left. }
  (* a slug of the diff is not a slug of the corpus *)
  assert (Hfresh_r : ∀ r, r ∈ recipes master →
                          r_slug r ∉ map r_slug (d_recipes d)).
  { intros r Hin Hs. apply list_elem_of_fmap in Hs as (x & Hs & Hx).
    apply (proj2 (Hfr x Hx)). rewrite <- Hs. apply list_elem_of_fmap.
    by exists r. }
  assert (Hfresh_i : ∀ i, i ∈ ingredients master →
                          i_slug i ∉ map i_slug (d_ingredients d)).
  { intros i Hin Hs. apply list_elem_of_fmap in Hs as (x & Hs & Hx).
    apply (proj2 (Hfi x Hx)). rewrite <- Hs. apply list_elem_of_fmap.
    by exists i. }
  (* step 1 *)
  assert (Hstep_e : ∃ outs,
            for_each (remove_entry m1 d) (entries m1) []
            = Ok (entries master, outs)).
  { rewrite Ee. apply for_each_keep_then_drop.
    - intros kept e Hin. destruct (Hres_e e Hin) as [Hrid Hiid].
      destruct (Hold_r _ Hrid) as (r & Hr_in & Hfind_r).
      destruct (Hold_i _ Hiid) as (i & Hi_in & Hfind_i).
      unfold remove_entry. rewrite Hfind_r. simpl. rewrite Hfind_i. simpl.
      destruct (existsb _ _) eqn:Hex; [|done]. exfalso.
      apply existsb_entry_matches in Hex as (de & Hde & Hslug & _).
      apply (Hfresh_r r Hr_in). rewrite Hslug. by apply Hfe.
    - intros new Hin. apply list_elem_of_split in Hin as (pre & post & Hadd).
      destruct (Hnew_e _ _ _ Hadd)
        as (e0 & r & i & He0 & Hlr & Hli & Hrid & Hiid & _ & _ & Ham & Hprep).
      apply idx_by_lookup in Hlr as [Hr_in Hr_slug].
      apply idx_by_lookup in Hli as [Hi_in Hi_slug].
      unfold remove_entry.
      rewrite (find_by_id_unique "recipe_id" recipe_id (recipes m1) r
                 (e_recipe_id new)) by done.
      simpl.
      rewrite (find_by_id_unique "ingredient_id" ingredient_id
                 (ingredients m1) i (e_ingredient_id new)) by done.
      simpl.
      assert (Hex : existsb (entry_matches r i new) (d_entries d) = true).
      { apply existsb_entry_matches. exists e0.
        split_and!; [done|done|done| |]; by apply coalesce_same_text. }
      rewrite Hex. by eexists. }
  (* step 2 *)
  assert (Hstep_a : ∃ outs,
            for_each (remove_alias m1 d) (aliases m1) []
            = Ok (aliases master, outs)).
  { rewrite Ea. apply for_each_keep_then_drop.
    - intros kept a Hin.
      destruct (Hold_i _ (Hres_a a Hin)) as (i & Hi_in & Hfind_i).
      unfold remove_alias. rewrite Hfind_i. simpl.
      destruct (existsb _ _) eqn:Hex; [|done]. exfalso.
      apply existsb_alias_matches in Hex as (da & Hda & Hslug & _).
      apply (Hfresh_i i Hi_in). rewrite Hslug. by apply Hfa.
    - intros new Hin. apply list_elem_of_split in Hin as (pre & post & Hadd).
      destruct (Hnew_a _ _ _ Hadd)
        as (a0 & ing & Ha0 & Hl & Hid & Hlabel & _).
      apply idx_by_lookup in Hl as [Hing_in Hing_slug].
      unfold remove_alias.
      rewrite (find_by_id_unique "ingredient_id" ingredient_id
                 (ingredients m1) ing (a_ingredient_id new)) by done.
      simpl.
      assert (Hex : existsb (alias_matches ing new) (d_aliases d) = true).
      { apply existsb_alias_matches. by exists a0. }
      rewrite Hex. by eexists. }
  (* the identifiers in use are identifiers of rows that the corpus had *)
  assert (Huse_i : ∀ id,
            id ∈ ingredient_ids_in_use (entries master) (aliases master) →
            Some id ∈ map ingredient_id (ingredients master)).
  { intros id Hid.
    apply elem_of_ingredient_ids_in_use in Hid
      as [(e & He & <-)|(a & Ha & <-)].
    - by apply Hres_e.
    - by apply Hres_a. }
  assert (Huse_r : ∀ id, id ∈ recipe_ids_in_use (entries master) →
                         Some id ∈ map recipe_id (recipes master)).
  { intros id Hid. apply elem_of_recipe_ids_in_use in Hid as (e & He & <-).
    by apply Hres_e. }
  (* step 3 *)
  assert (Hstep_i : ∃ outs,
            for_each
              (remove_ingredient
                 (ingredient_ids_in_use (entries master) (aliases master)) d)
              (ingredients m1) []
            = Ok (ingredients master, outs)).
  { rewrite Ei. apply for_each_keep_then_drop.
    - intros kept i Hin. unfold remove_ingredient.
      by rewrite ingredient_should_remove_unnamed by (by apply Hfresh_i).
    - intros new Hin. apply list_elem_of_split in Hin as (pre & post & Hadd).
      destruct (Hnew_i _ _ _ Hadd) as (x & Hx & _ & Hnew).
      assert (Hid : ingredient_id new
                    = Some (next_id (ingredients master ++ pre)
                              ingredient_id)).
      { rewrite Hnew. unfold with_ingredient_id.
        by rewrite (proj1 (Hfi x Hx)). }
      unfold remove_ingredient.
      rewrite (proj2 (ingredient_should_remove_iff _ _ _ _ Hid)).
      + by eexists.
      + split.
        * intros Huse. apply Huse_i, list_elem_of_fmap in Huse
            as (row & Hk & Hrow).
          assert (Hlt := next_id_gt ingredient_id
                           (ingredients master ++ pre) row _
                           (proj2 (elem_of_app _ _ _) (or_introl Hrow))
                           (eq_sym Hk)).
          lia.
        * rewrite Hnew, with_ingredient_id_slug. apply list_elem_of_fmap.
          by exists x. }
  (* step 4 *)
  assert (Hstep_r : ∃ outs,
            for_each (remove_recipe (recipe_ids_in_use (entries master)) d)
              (recipes m1) []
            = Ok (recipes master, outs)).
  { rewrite Er. apply for_each_keep_then_drop.
    - intros kept r Hin. unfold remove_recipe.
      by rewrite recipe_should_remove_unnamed by (by apply Hfresh_r).
    - intros new Hin. apply list_elem_of_split in Hin as (pre & post & Hadd).
      destruct (Hnew_r _ _ _ Hadd) as (x & Hx & _ & Hnew).
      assert (Hid : recipe_id new
                    = Some (next_id (recipes master ++ pre) recipe_id)).
      { rewrite Hnew. unfold with_recipe_id.
        by rewrite (proj1 (Hfr x Hx)). }
      unfold remove_recipe.
      rewrite (proj2 (recipe_should_remove_iff _ _ _ _ Hid)).
      + by eexists.
      + split.
        * intros Huse. apply Huse_r, list_elem_of_fmap in Huse
            as (row & Hk & Hrow).
          assert (Hlt := next_id_gt recipe_id (recipes master ++ pre) row _
                           (proj2 (elem_of_app _ _ _) (or_introl Hrow))
                           (eq_sym Hk)).
          lia.
        * rewrite Hnew, with_recipe_id_slug. apply list_elem_of_fmap.
          by exists x. }
  destruct Hstep_e as [o_e Hstep_e]. destruct Hstep_a as [o_a Hstep_a].
  destruct Hstep_i as [o_i Hstep_i]. destruct Hstep_r as [o_r Hstep_r].
  unfold remove_diff. rewrite Hstep_e. simpl. rewrite Hstep_a. simpl.
  rewrite Hstep_i. simpl. rewrite Hstep_r. simpl.
  eexists. by destruct master.
Qed.

Lemma sample_corpus_well_formed : well_formed sample_corpus.
Proof.
  split_and!.
  - exact sample_corpus_ids_present.
  - exact sample_corpus_references_resolve.
  - simpl. apply NoDup_singleton.
  - simpl. apply NoDup_singleton.
Qed.

Lemma sample_diff_brings_new : brings_new sample_corpus sample_diff_new_recipe.
Proof.
  split_and!.
  - intros r Hr. simpl in Hr. apply list_elem_of_singleton in Hr as ->.
    split; [done|]. simpl. intros H. apply list_elem_of_singleton in H.
    discriminate H.
  - intros i Hi. simpl in Hi. apply list_elem_of_singleton in Hi as ->.
    split; [done|]. simpl. intros H. apply list_elem_of_singleton in H.
    discriminate H.
  - intros a Ha. simpl in Ha. apply list_elem_of_singleton in Ha as ->.
    simpl. by apply list_elem_of_singleton.
  - intros e He. simpl in He.
    apply elem_of_cons in He as [->|He];
      [|apply list_elem_of_singleton in He as ->];
      simpl; by apply list_elem_of_singleton.
Qed.

Lemma merge_then_remove_round_trip_witness :
  ∃ m1 out1 out2,
    merge sample_clock sample_corpus sample_diff_new_recipe "gpt"
    = Ok (m1, out1)
    ∧ remove_diff m1 sample_diff_new_recipe = Ok (sample_corpus, out2).
Proof.
  destruct (merge sample_clock sample_corpus sample_diff_new_recipe "gpt")
    as [[m1 out1]|] eqn:Hrun; [|by vm_compute in Hrun].
  destruct (merge_then_remove_round_trip _ _ _ _ _ _ Hrun
              sample_corpus_well_formed sample_diff_brings_new)
    as [out2 Hback].
  by exists m1, out1, out2.
Defined.
